(** * G2A: the evolutionary search engine of [ga.py]

    A shallow embedding of the class [G2A] (file [ga.py]) and the
    properties of its evaluation pipeline and generational bookkeeping.

    - Python [dict] individuals are finite maps from field names to
      Python values; a field that was never assigned is absent from the
      map and reading it raises [KeyError].
    - Python [float] is IEEE-754 binary64, taken from the Standard
      Library's executable specification [spec_float] at precision 53
      and maximal exponent 1024.
    - Methods of [G2A] are computations in a state-and-exception monad
      over the attributes of [self]; the state reached when an exception
      escapes is kept, as it is in Python.
    - A population is a list of individuals by value. The program only
      ever evaluates lists of dicts that [response_to_individual] has
      just allocated, one object per slot, so the in-place update of
      [population[i]] is the update of slot [i] of the list.
    - Everything outside [ga.py] (the helpers of [utils.utils], the
      builtin [float(str)], [str.format], subprocesses, the random
      generator, the model provider) is a parameter of the development.
      Logging and the writing of artifact files are left out. *)

From Stdlib Require Import ZArith Ascii String Floats.SpecFloat.
From stdpp Require Import base option gmap strings list pretty.

Open Scope string_scope.
Open Scope list_scope.
Open Scope nat_scope.

(** ** Python values *)

Module PyFloat.

Abbreviation float := spec_float.

Definition prec : Z := 53.
Definition emax : Z := 1024.

(** [float("inf")] *)
Definition inf : float := S754_infinity false.
Definition zero : float := S754_zero false.
(** the float of the integer literal [1] *)
Definition one : float := Eval vm_compute in SFone prec emax.

Definition ltb (x y : float) : bool := SFltb x y.
Definition leb (x y : float) : bool := SFleb x y.
Definition div (x y : float) : float := SFdiv prec emax x y.

Definition is_nan (x : float) : bool :=
  match x with S754_nan => true | _ => false end.

(** neither an infinity nor a NaN *)
Definition is_finite (x : float) : bool :=
  match x with
  | S754_zero _ | S754_finite _ _ _ => true
  | S754_infinity _ | S754_nan => false
  end.

Definition is_zero (x : float) : bool :=
  match x with S754_zero _ => true | _ => false end.

End PyFloat.

Import PyFloat.

Inductive pyval : Type :=
  | VNone
  | VBool (b : bool)
  | VInt (z : Z)
  | VFloat (f : float)
  | VStr (s : string).

#[global] Instance float_eq_dec : EqDecision float.
Proof. solve_decision. Defined.

#[global] Instance pyval_eq_dec : EqDecision pyval.
Proof. solve_decision. Defined.

(** An individual is a Python [dict] with string keys. *)
Abbreviation Individual := (gmap string pyval).

(** ** Exceptions *)

Inductive exn : Type :=
  | KeyError (key : string)
  | AttributeError (attr : string)
  | TypeError (msg : string)
  | ValueError (msg : string)
  | IndexError (msg : string)
  | AssertionError (msg : string)
  | ZeroDivisionError (msg : string)
  | OSError (msg : string).

Inductive result (A : Type) : Type :=
  | Ok (a : A)
  | Raise (e : exn).
Arguments Ok {A} a.
Arguments Raise {A} e.

(** [str(e)]; the text of a [KeyError] is the [repr] of its key. *)
Definition py_str_exn (e : exn) : string :=
  match e with
  | KeyError k => "'" +:+ k +:+ "'"
  | AttributeError a => "'G2A' object has no attribute '" +:+ a +:+ "'"
  | TypeError m | ValueError m | IndexError m | AssertionError m
  | ZeroDivisionError m | OSError m => m
  end.

Definition py_type_name (v : pyval) : string :=
  match v with
  | VNone => "NoneType"
  | VBool _ => "bool"
  | VInt _ => "int"
  | VFloat _ => "float"
  | VStr _ => "str"
  end.

(** [d[key]] on a dict *)
Definition getitem (d : Individual) (key : string) : result pyval :=
  match d !! key with
  | Some v => Ok v
  | None => Raise (KeyError key)
  end.

(** [v + s] for a string [s] on the right *)
Definition py_add_str (v : pyval) (s : string) : result string :=
  match v with
  | VStr c => Ok (c +:+ s)
  | _ => Raise (TypeError ("unsupported operand type(s) for +: '"
                             +:+ py_type_name v +:+ "' and 'str'"))
  end.

(** [v] read as a float operand of a comparison or of [min] *)
Definition as_float (v : pyval) : result float :=
  match v with
  | VFloat f => Ok f
  | _ => Raise (TypeError ("'<' not supported for '" +:+ py_type_name v +:+ "'"))
  end.

(** ** Strings: [s.split('\n')] and the index [-2] *)

Definition newline : ascii := "010"%char.

Fixpoint split_newline (s : string) : list string :=
  match s with
  | EmptyString => [EmptyString]
  | String c rest =>
      if Ascii.eqb c newline then EmptyString :: split_newline rest
      else match split_newline rest with
           | h :: t => String c h :: t
           | [] => [String c EmptyString]
           end
  end.

(** [l[-2]] *)
Definition index_neg2 {A : Type} (l : list A) : result A :=
  match l !! (length l - 2) with
  | Some x => if decide (2 ≤ length l) then Ok x
              else Raise (IndexError "list index out of range")
  | None => Raise (IndexError "list index out of range")
  end.

(** ** [min] and [numpy.argmin] on a list of floats *)

(** Python's [min]: the first item is kept until a later one is strictly
    smaller under [<]. *)
Definition py_min_from (x : float) (l : list float) : float :=
  fold_left (λ cur y, if ltb y cur then y else cur) l x.

Definition py_min (l : list float) : result float :=
  match l with
  | [] => Raise (ValueError "min() arg is an empty sequence")
  | x :: l' => Ok (py_min_from x l')
  end.

(** [numpy.argmin]: the first position of the smallest value, a NaN
    counting as smaller than everything. [go] carries the position and
    value of the best entry so far and the position of the next entry. *)
Fixpoint np_argmin_go (best : nat) (cur : float) (next : nat) (l : list float) : nat :=
  match l with
  | [] => best
  | y :: l' =>
      if is_nan cur then best
      else if is_nan y || ltb y cur then np_argmin_go next y (S next) l'
      else np_argmin_go best cur (S next) l'
  end.

Definition np_argmin (l : list float) : result nat :=
  match l with
  | [] => Raise (ValueError "attempt to get argmin of an empty sequence")
  | x :: l' => Ok (np_argmin_go 0 x 1 l')
  end.

(** ** The parts of the program that are not in [ga.py] *)

(** A chat message: role and content. *)
Definition message : Type := string * string.

Record Externals : Type := {
  (** [utils.process_code]: the code of a completion, [None] when there is none *)
  process_code : string → option string;
  (** [utils.filter_traceback]: the traceback part of a capture, [''] when there is none *)
  filter_traceback : string → string;
  (** the builtin [float(str)], [None] standing for [ValueError] *)
  py_float : string → option float;
  (** [template.format(name=value, ...)] *)
  str_format : string → list (string * pyval) → string;
}.

(** The configuration [cfg] and the prompt texts read by [init_prompt]
    and [__init__]. *)
Record Config : Type := {
  pop_size : nat;
  max_fe : nat;
  diversify : bool;
  problem_description : string;
  seed_function : string;
  generator_system_prompt : string;
  initial_user : string;
  ga_crossover_prompt : string;
  ga_mutate_prompt : string;
}.

(** What [communicate(timeout=...)] on a launched process does. *)
Inductive wait_result : Type :=
  | Exited (capture : string)     (* returned; the text of the stdout file,
                                     as far as it can be read back *)
  | TimedOut (msg : string).      (* raised TimeoutExpired, [str(e) = msg] *)

(** The operating system as seen by one call of [evaluate_population]:
    for the response slot [rid], whether starting the harness raises
    (and with which text), whether the started process is seen running,
    how the wait on the process ends and whether its capture can be read
    back. *)
Record Harness : Type := {
  (** opening the shared output file raises, with this text *)
  open_output : nat → option string;
  (** writing the code to it raises, with this text *)
  write_output : nat → option string;
  (** opening the capture file for writing or [subprocess.Popen] raises,
      with this text: no process is started *)
  spawn : nat → option string;
  (** [utils.block_until_running], called once the process is started,
      raises this exception *)
  block_until_running : nat → option exn;
  (** how the wait on the process ends *)
  communicate : nat → wait_result;
  (** after the wait has returned, opening the capture file in text
      mode or [f.read()] raises this exception: the file is gone, or
      its bytes are not text in the default encoding *)
  read_capture : nat → option exn;
}.

(** The rest of the outside world, per generation. *)
Record World : Type := {
  harness_at : nat → Harness;
  (** [chat_completion(n, messages, ...)]: the texts of the completions *)
  chat_completion : nat → list message → list string;
  (** [multi_chat_completion(messages_lst, 1, ...)] *)
  multi_chat_completion : nat → list (list message) → list (list string);
  (** raw random numbers behind the [draw]-th [np.random.choice] of a generation *)
  random_pair : nat → nat → nat * nat;
  (** [np.random.uniform() < cfg.mutation_rate] for slot [i] of a generation *)
  mutation_draw : nat → nat → bool;
}.

(** ** The object state *)

(** Observable actions on processes, most recent first. *)
Inductive event : Type :=
  | EvLaunch (rid : nat)
  | EvCommunicate (rid : nat) (timeout : nat)
  | EvKill (rid : nat).

#[global] Instance event_eq_dec : EqDecision event.
Proof. solve_decision. Defined.

(** The attributes of [self] that the methods below read or write. An
    attribute of type [option _] whose value is [None] has not been
    assigned yet, except [elitist], which [__init__] sets to Python's
    [None]. *)
Record G2A : Type := mkG2A {
  iteration : nat;
  function_evals : nat;
  elitist : option Individual;
  best_obj_overall : float;
  best_code_overall : option pyval;
  best_desc_overall : option pyval;
  best_code_path_overall : option pyval;
  population : option (list Individual);
  events : list event;
}.

(** The state after the four assignments at the top of [__init__]. *)
Definition init_state : G2A :=
  {| iteration := 0; function_evals := 0; elitist := None;
     best_obj_overall := inf;
     best_code_overall := None; best_desc_overall := None;
     best_code_path_overall := None; population := None; events := [] |}.

(** ** The monad of methods *)

Definition M (A : Type) : Type := G2A → G2A * result A.

Definition ret {A : Type} (a : A) : M A := λ s, (s, Ok a).
Definition raise {A : Type} (e : exn) : M A := λ s, (s, Raise e).
Definition bind {A B : Type} (m : M A) (k : A → M B) : M B :=
  λ s, match m s with
       | (s', Ok a) => k a s'
       | (s', Raise e) => (s', Raise e)
       end.
(** [try: m except Exception as e: h e] *)
Definition try_except {A : Type} (m : M A) (h : exn → M A) : M A :=
  λ s, match m s with
       | (s', Ok a) => (s', Ok a)
       | (s', Raise e) => h e s'
       end.
Definition lift {A : Type} (r : result A) : M A := λ s, (s, r).
Definition get : M G2A := λ s, (s, Ok s).
Definition modify (f : G2A → G2A) : M unit := λ s, (f s, Ok tt).

Declare Scope py_scope.
Delimit Scope py_scope with py.
Notation "x <- m ;; k" := (bind m (λ x, k))
  (at level 100, m at next level, k at level 200, right associativity) : py_scope.
Notation "m ;;; k" := (bind m (λ _, k))
  (at level 100, k at level 200, right associativity) : py_scope.
Open Scope py_scope.

(** pure computations with exceptions *)
Definition rbind {A B : Type} (r : result A) (k : A → result B) : result B :=
  match r with Ok a => k a | Raise e => Raise e end.

Definition set_function_evals (n : nat) (s : G2A) : G2A :=
  mkG2A (iteration s) n (elitist s) (best_obj_overall s) (best_code_overall s)
        (best_desc_overall s) (best_code_path_overall s) (population s) (events s).
Definition set_iteration (n : nat) (s : G2A) : G2A :=
  mkG2A n (function_evals s) (elitist s) (best_obj_overall s) (best_code_overall s)
        (best_desc_overall s) (best_code_path_overall s) (population s) (events s).
Definition set_elitist (e : option Individual) (s : G2A) : G2A :=
  mkG2A (iteration s) (function_evals s) e (best_obj_overall s) (best_code_overall s)
        (best_desc_overall s) (best_code_path_overall s) (population s) (events s).
Definition set_best_obj_overall (f : float) (s : G2A) : G2A :=
  mkG2A (iteration s) (function_evals s) (elitist s) f (best_code_overall s)
        (best_desc_overall s) (best_code_path_overall s) (population s) (events s).
Definition set_best_code_overall (v : pyval) (s : G2A) : G2A :=
  mkG2A (iteration s) (function_evals s) (elitist s) (best_obj_overall s) (Some v)
        (best_desc_overall s) (best_code_path_overall s) (population s) (events s).
Definition set_best_desc_overall (v : pyval) (s : G2A) : G2A :=
  mkG2A (iteration s) (function_evals s) (elitist s) (best_obj_overall s)
        (best_code_overall s) (Some v) (best_code_path_overall s) (population s) (events s).
Definition set_best_code_path_overall (v : pyval) (s : G2A) : G2A :=
  mkG2A (iteration s) (function_evals s) (elitist s) (best_obj_overall s)
        (best_code_overall s) (best_desc_overall s) (Some v) (population s) (events s).
Definition set_population (p : list Individual) (s : G2A) : G2A :=
  mkG2A (iteration s) (function_evals s) (elitist s) (best_obj_overall s)
        (best_code_overall s) (best_desc_overall s) (best_code_path_overall s) (Some p) (events s).
Definition emit (e : event) (s : G2A) : G2A :=
  mkG2A (iteration s) (function_evals s) (elitist s) (best_obj_overall s)
        (best_code_overall s) (best_desc_overall s) (best_code_path_overall s)
        (population s) (e :: events s).

(** [self.name] for an attribute that may not have been assigned *)
Definition getattr {A : Type} (name : string) (field : G2A → option A) : M A :=
  λ s, match field s with
       | Some v => (s, Ok v)
       | None => (s, Raise (AttributeError name))
       end.

(** [l[i]] on a list *)
Definition list_getitem {A : Type} (l : list A) (i : nat) : result A :=
  match l !! i with
  | Some x => Ok x
  | None => Raise (IndexError "list index out of range")
  end.

(** ** Loops *)

(** [for x in l: acc = body(x, acc)], left to right; an exception ends the loop. *)
Fixpoint for_each {A S : Type} (body : A → S → M S) (l : list A) (acc : S) : M S :=
  match l with
  | [] => ret acc
  | x :: l' => acc' <- body x acc ;; for_each body l' acc'
  end.

(** [enumerate(l)] *)
Definition enumerate {A : Type} (l : list A) : list (nat * A) :=
  zip (seq 0 (length l)) l.

(** the one-character string of a line feed *)
Definition nl : string := String newline EmptyString.

(** [1 / x] for a float [x] *)
Definition py_truediv_one (x : float) : result float :=
  if is_zero x then Raise (ZeroDivisionError "float division by zero")
  else Ok (div one x).

(** ** Individuals and their evaluation *)

Section Evaluation.

Variable E : Externals.

(** [response_to_individual]: [response] is the text
    [response.message.content]. The second conditional tests the
    variable [file_name] after it has been reassigned. *)
Definition response_to_individual (response : string) (response_id : nat)
    (file_name : option string) : M Individual :=
  s <- get ;;
  let code := match process_code E response with
              | Some c => VStr c
              | None => VNone
              end in
  let file_name : option string :=
    Some match file_name with
         | None => "problem_iter" +:+ pretty (iteration s) +:+ "_response"
                     +:+ pretty response_id +:+ ".txt"
         | Some f => f +:+ ".txt"
         end in
  _ <- lift (py_add_str code nl) ;;
  let std_out_filepath :=
    match file_name with
    | None => "problem_iter" +:+ pretty (iteration s) +:+ "_stdout"
                +:+ pretty response_id +:+ ".txt"
    | Some f => f +:+ "_stdout.txt"
    end in
  ret (<["response_id" := VInt (Z.of_nat response_id)]>
       (<["code" := code]>
        (<["code_path" := VStr ("problem_iter" +:+ pretty (iteration s) +:+ "_code"
                                  +:+ pretty response_id +:+ ".py")]>
         (<["stdout_filepath" := VStr std_out_filepath]> ∅)))).

(** [responses_to_population] *)
Definition responses_to_population (responses : list string) : M (list Individual) :=
  for_each (λ '(response_id, response) population,
              individual <- response_to_individual response response_id None ;;
              ret (population ++ [individual]))
           (enumerate responses) [].

(** [mark_invalid_individual] *)
Definition mark_invalid_individual (individual : Individual) (traceback_msg : string)
    : Individual :=
  <["traceback_msg" := VStr traceback_msg]>
    (<["fitness" := VInt 0]>
      (<["obj" := VFloat inf]>
        (<["exec_success" := VBool false]> individual))).

Section OnePopulation.

Variable h : Harness.

(** [run_code]; the process handle is the response slot. The process
    is started by [subprocess.Popen], before [block_until_running] is
    called. *)
Definition run_code (individual : Individual) (response_id : nat) : M nat :=
  match open_output h response_id with
  | Some msg => raise (OSError msg)
  | None =>
      code <- lift (getitem individual "code") ;;
      _ <- lift (py_add_str code nl) ;;
      match write_output h response_id with
      | Some msg => raise (OSError msg)
      | None =>
          _ <- lift (getitem individual "stdout_filepath") ;;
          match spawn h response_id with
          | Some msg => raise (OSError msg)
          | None =>
              modify (emit (EvLaunch response_id)) ;;;
              match block_until_running h response_id with
              | Some e => raise e
              | None => ret response_id
              end
          end
      end
  end.

(** One round of the first loop of [evaluate_population]. *)
Definition launch_one (response_id : nat)
    (acc : list Individual * list (option nat))
    : M (list Individual * list (option nat)) :=
  let '(population, inner_runs) := acc in
  individual <- lift (list_getitem population response_id) ;;
  code <- lift (getitem individual "code") ;;
  match code with
  | VNone =>
      ret (<[response_id := mark_invalid_individual individual "Invalid response!"]>
             population,
           inner_runs ++ [None])
  | _ =>
      modify (λ s, set_function_evals (function_evals s + 1) s) ;;;
      try_except
        (process <- run_code individual response_id ;;
         ret (population, inner_runs ++ [Some process]))
        (λ e, ret (<[response_id := mark_invalid_individual individual (py_str_exn e)]>
                     population,
                   inner_runs ++ [None]))
  end.

(** The body of the inner [try] of the second loop: the dict as the
    body left it, and whether the body raised. *)
Definition read_objective (individual : Individual) (stdout_str : string)
    : Individual * result unit :=
  match index_neg2 (split_newline stdout_str) with
  | Raise e => (individual, Raise e)
  | Ok line =>
      match py_float E line with
      | None => (individual, Raise (ValueError "could not convert string to float"))
      | Some obj =>
          let individual := <["obj" := VFloat obj]> individual in
          if ltb zero obj then
            match py_truediv_one obj with
            | Raise e => (individual, Raise e)
            | Ok fitness =>
                let individual := <["fitness" := VFloat fitness]> individual in
                (<["exec_success" := VBool true]> individual, Ok tt)
            end
          else (individual, Raise (AssertionError "Objective value <= 0 is not supported."))
      end
  end.

(** The deadline passed to [communicate]. *)
Definition wait_timeout : nat := 20.

(** One round of the second loop of [evaluate_population]. The capture
    is opened and read between the two [try] statements of the loop: an
    exception of the read leaves the loop and the method. *)
Definition collect_one (entry : nat * option nat) (population : list Individual)
    : M (list Individual) :=
  let '(response_id, inner_run) := entry in
  match inner_run with
  | None => ret population
  | Some process =>
      modify (emit (EvCommunicate process wait_timeout)) ;;;
      match communicate h process with
      | TimedOut msg =>
          individual <- lift (list_getitem population response_id) ;;
          modify (emit (EvKill process)) ;;;
          ret (<[response_id := mark_invalid_individual individual msg]> population)
      | Exited stdout_str =>
          individual <- lift (list_getitem population response_id) ;;
          _ <- lift (getitem individual "stdout_filepath") ;;
          match read_capture h process with
          | Some e => raise e
          | None =>
              let traceback_msg := filter_traceback E stdout_str in
              if decide (traceback_msg = "") then
                match read_objective individual stdout_str with
                | (individual, Ok _) => ret (<[response_id := individual]> population)
                | (individual, Raise _) =>
                    ret (<[response_id :=
                             mark_invalid_individual individual
                               "Invalid std out / objective value!"]> population)
                end
              else
                ret (<[response_id := mark_invalid_individual individual traceback_msg]>
                       population)
          end
      end
  end.

(** [evaluate_population] *)
Definition evaluate_population (population : list Individual) : M (list Individual) :=
  launched <- for_each launch_one (seq 0 (length population)) (population, []) ;;
  let '(population, inner_runs) := launched in
  for_each collect_one (enumerate inner_runs) population.

End OnePopulation.

End Evaluation.

(** ** Selection, variation and the generational loop *)

(** [[f(x) for x in l]] for an [f] that may raise *)
Fixpoint list_comprehension {A B : Type} (f : A → result B) (l : list A)
    : result (list B) :=
  match l with
  | [] => Ok []
  | x :: l' => rbind (f x) (λ y, rbind (list_comprehension f l') (λ ys, Ok (y :: ys)))
  end.

(** [individual["obj"]], an objective being a float *)
Definition obj_of (individual : Individual) : result float :=
  rbind (getitem individual "obj") as_float.

(** the truth value of a Python value in a condition *)
Definition py_truthy (v : pyval) : bool :=
  match v with
  | VNone => false
  | VBool b => b
  | VInt z => negb (Z.eqb z 0)
  | VFloat f => negb (is_zero f)
  | VStr s => negb (String.eqb s "")
  end.

(** [np.random.choice(a, size=2, replace=False)]: two entries of [a] at
    two different positions, the positions computed from two raw random
    numbers; it raises when [a] has fewer than two entries. *)
Definition np_random_choice2 {A : Type} (raw : nat * nat) (a : list A) : result (A * A) :=
  let n := length a in
  if decide (n = 0) then
    Raise (ValueError "'a' cannot be empty unless no samples are taken")
  else if decide (n < 2) then
    Raise (ValueError "Cannot take a larger sample than population when 'replace=False'")
  else
    let i := fst raw mod n in
    let j := (i + 1 + snd raw mod (n - 1)) mod n in
    rbind (list_getitem a i) (λ x, rbind (list_getitem a j) (λ y, Ok (x, y))).

(** [range(0, n, 2)] *)
Definition range_step2 (n : nat) : list nat :=
  (λ k, 2 * k) <$> seq 0 ((n + 1) / 2).

(** [assert cond, msg] *)
Definition py_assert (cond : bool) (msg : string) : M unit :=
  if cond then ret tt else raise (AssertionError msg).

(** No method of the class assigns [self.system_prompt]: [init_prompt]
    stores the system prompt as [generator_system_prompt]. *)
Definition system_prompt (s : G2A) : option string := None.

Section Evolution.

Variable E : Externals.
Variable cfg : Config.
Variable W : World.

(** the block [# update best overall] of [update_iter] *)
Definition update_best_overall (population : list Individual) (best_obj : float)
    (best_sample_idx : nat) : M unit :=
  s <- get ;;
  if ltb best_obj (best_obj_overall s) then
    modify (set_best_obj_overall best_obj) ;;;
    best <- lift (list_getitem population best_sample_idx) ;;
    code <- lift (getitem best "code") ;;
    modify (set_best_code_overall code) ;;;
    description <- lift (getitem best "description") ;;
    modify (set_best_desc_overall description) ;;;
    code_path <- lift (getitem best "code_path") ;;
    modify (set_best_code_path_overall code_path)
  else ret tt.

(** the block [# update elitist] of [update_iter] *)
Definition update_elitist (population : list Individual) (best_obj : float)
    (best_sample_idx : nat) : M unit :=
  s <- get ;;
  replace <- match elitist s with
             | None => ret true
             | Some e => elitist_obj <- lift (obj_of e) ;; ret (ltb best_obj elitist_obj)
             end ;;
  if replace : bool then
    best <- lift (list_getitem population best_sample_idx) ;;
    modify (set_elitist (Some best))
  else ret tt.

(** [update_iter] *)
Definition update_iter : M unit :=
  population <- getattr "population" population ;;
  objs <- lift (list_comprehension obj_of population) ;;
  best_obj <- lift (py_min objs) ;;
  best_sample_idx <- lift (np_argmin objs) ;;
  update_best_overall population best_obj best_sample_idx ;;;
  update_elitist population best_obj best_sample_idx ;;;
  modify (λ s, set_iteration (iteration s + 1) s).

(** [init_population] *)
Definition init_population : M unit :=
  let messages : list message :=
    [("system", generator_system_prompt cfg);
     ("user", initial_user cfg);
     ("assistant", seed_function cfg);
     ("user", "Improve over the above code. " +:+ nl +:+ "[code]:" +:+ nl)] in
  let responses := chat_completion W (pop_size cfg) messages in
  population <- responses_to_population E responses ;;
  s <- get ;;
  population <- evaluate_population E (harness_at W (iteration s)) population ;;
  objs <- lift (list_comprehension obj_of population) ;;
  best_obj <- lift (py_min objs) ;;
  best_sample_idx <- lift (np_argmin objs) ;;
  modify (set_best_obj_overall best_obj) ;;;
  best <- lift (list_getitem population best_sample_idx) ;;
  code <- lift (getitem best "code") ;;
  modify (set_best_code_overall code) ;;;
  code_path <- lift (getitem best "code_path") ;;
  modify (set_best_code_path_overall code_path) ;;;
  modify (set_population population) ;;;
  update_iter.

(** [random_select] *)
Definition random_select (population : list Individual) : M (list Individual) :=
  s <- get ;;
  flags <- lift (list_comprehension
                   (λ individual, rbind (getitem individual "exec_success")
                                        (λ v, Ok (individual, py_truthy v)))
                   population) ;;
  let population := fst <$> filter (λ p, snd p = true) flags in
  selected_population <-
    for_each (λ draw selected_population,
                parents <- lift (np_random_choice2 (random_pair W (iteration s) draw)
                                                   population) ;;
                ret (selected_population ++ [fst parents; snd parents]))
             (seq 0 (pop_size cfg)) [] ;;
  py_assert (bool_decide (length selected_population = 2 * pop_size cfg)) "" ;;;
  ret selected_population.

(** the two chat messages built from a user prompt, [self.system_prompt] read first *)
Definition system_and_user (user_prompt : string) : M (list message) :=
  system <- getattr "system_prompt" system_prompt ;;
  ret [("system", system); ("user", user_prompt)].

(** the loop over the completions shared by [crossover] and [mutate]:
    [responses_lst[i][0]] turned into an individual *)
Definition first_response (responses : list string) : result string :=
  list_getitem responses 0.

(** [crossover] *)
Definition crossover (population : list Individual) : M (list Individual) :=
  s <- get ;;
  py_assert (bool_decide (length population = pop_size cfg * 2)) "" ;;;
  messages_lst <-
    for_each (λ i messages_lst,
                parent_1 <- lift (list_getitem population i) ;;
                parent_2 <- lift (list_getitem population (i + 1)) ;;
                code1 <- lift (getitem parent_1 "code") ;;
                code2 <- lift (getitem parent_2 "code") ;;
                description1 <- lift (getitem parent_1 "description") ;;
                description2 <- lift (getitem parent_2 "description") ;;
                let crossover_prompt_user :=
                  str_format E (ga_crossover_prompt cfg)
                    [("problem_description", VStr (problem_description cfg));
                     ("code1", code1); ("code2", code2);
                     ("description1", description1);
                     ("description2", description2)] in
                messages <- system_and_user crossover_prompt_user ;;
                ret (messages_lst ++ [messages]))
             (range_step2 (length population)) [] ;;
  let responses_lst := multi_chat_completion W (iteration s) messages_lst in
  crossed_population <-
    for_each (λ '(response_id, responses) crossed_population,
                response <- lift (first_response responses) ;;
                individual <- response_to_individual E response response_id None ;;
                ret (crossed_population ++ [individual]))
             (enumerate responses_lst) [] ;;
  py_assert (bool_decide (length crossed_population = pop_size cfg)) "" ;;;
  ret crossed_population.

(** [mutate] *)
Definition mutate (population : list Individual) : M (list Individual) :=
  s <- get ;;
  selected <-
    for_each (λ i (acc : list (list message) * list nat),
                let '(messages_lst, response_id_lst) := acc in
                individual <- lift (list_getitem population i) ;;
                if mutation_draw W (iteration s) i then
                  code <- lift (getitem individual "code") ;;
                  description <- lift (getitem individual "description") ;;
                  let mutate_prompt :=
                    str_format E (ga_mutate_prompt cfg)
                      [("problem_description", VStr (problem_description cfg));
                       ("code", code); ("description", description)] in
                  messages <- system_and_user mutate_prompt ;;
                  ret (messages_lst ++ [messages], response_id_lst ++ [i])
                else ret acc)
             (seq 0 (length population)) ([], []) ;;
  let '(messages_lst, response_id_lst) := selected in
  let responses_lst := multi_chat_completion W (iteration s) messages_lst in
  population <-
    for_each (λ '(i, responses) population,
                response_id <- lift (list_getitem response_id_lst i) ;;
                response <- lift (first_response responses) ;;
                mutated_individual <- response_to_individual E response response_id None ;;
                ret (<[response_id := mutated_individual]> population))
             (enumerate responses_lst) population ;;
  py_assert (bool_decide (length population = pop_size cfg)) "" ;;;
  ret population.

(** One round of the loop of [evolve]. The class has no method
    [diversify]. *)
Definition generation : M unit :=
  (if diversify cfg then raise (AttributeError "diversify") else ret tt) ;;;
  s <- get ;;
  population <- getattr "population" population ;;
  let population_to_select :=
    match elitist s with
    | None => population
    | Some e => [e] ++ population
    end in
  selected_population <- random_select population_to_select ;;
  crossed_population <- crossover selected_population ;;
  mutated_population <- mutate crossed_population ;;
  s <- get ;;
  population <- evaluate_population E (harness_at W (iteration s)) mutated_population ;;
  modify (set_population population) ;;;
  update_iter.

(** the [return] statement of [evolve] *)
Definition evolve_return : M (pyval * pyval * pyval) :=
  best_code_overall <- getattr "best_code_overall" best_code_overall ;;
  best_desc_overall <- getattr "best_desc_overall" best_desc_overall ;;
  best_code_path_overall <- getattr "best_code_path_overall" best_code_path_overall ;;
  ret (best_code_overall, best_desc_overall, best_code_path_overall).

(** [evolve]: the state it ends in and what it returns or raises, or
    [None] when its [while] loop is still running after [fuel] rounds *)
Fixpoint evolve (fuel : nat) (s : G2A)
    : option (G2A * result (pyval * pyval * pyval)) :=
  if bool_decide (function_evals s < max_fe cfg) then
    match fuel with
    | 0 => None
    | S fuel' =>
        match generation s with
        | (s', Ok _) => evolve fuel' s'
        | (s', Raise e) => Some (s', Raise e)
        end
    end
  else Some (evolve_return s).

(** [G2A(cfg, root_dir)] followed by [evolve()] *)
Definition run (fuel : nat) : option (G2A * result (pyval * pyval * pyval)) :=
  match init_population init_state with
  | (s, Ok _) => evolve fuel s
  | (s, Raise e) => Some (s, Raise e)
  end.

End Evolution.

(** ** The evaluation of one individual, in closed form *)

Section ClosedForm.

Variable E : Externals.
Variable h : Harness.

(** what [run_code] returns or raises *)
Definition launch_result (individual : Individual) (response_id : nat) : result nat :=
  match open_output h response_id with
  | Some msg => Raise (OSError msg)
  | None =>
      rbind (getitem individual "code") (λ code,
      rbind (py_add_str code nl) (λ _,
      match write_output h response_id with
      | Some msg => Raise (OSError msg)
      | None =>
          rbind (getitem individual "stdout_filepath") (λ _,
          match spawn h response_id with
          | Some msg => Raise (OSError msg)
          | None =>
              match block_until_running h response_id with
              | Some e => Raise e
              | None => Ok response_id
              end
          end)
      end))
  end.

(** whether [run_code] gets as far as starting the process *)
Definition started (individual : Individual) (response_id : nat) : bool :=
  match open_output h response_id with
  | Some _ => false
  | None =>
      match rbind (getitem individual "code") (λ code, py_add_str code nl) with
      | Raise _ => false
      | Ok _ =>
          match write_output h response_id with
          | Some _ => false
          | None =>
              match getitem individual "stdout_filepath" with
              | Raise _ => false
              | Ok _ =>
                  match spawn h response_id with
                  | Some _ => false
                  | None => true
                  end
              end
          end
      end
  end.

(** the dict and the entry of [inner_runs] after the first loop *)
Definition after_launch (response_id : nat) (individual : Individual)
    : Individual * option nat :=
  match individual !! "code" with
  | Some VNone => (mark_invalid_individual individual "Invalid response!", None)
  | _ =>
      match launch_result individual response_id with
      | Ok process => (individual, Some process)
      | Raise e => (mark_invalid_individual individual (py_str_exn e), None)
      end
  end.

(** the classification of a finished run from its capture *)
Definition classify (individual : Individual) (stdout_str : string) : Individual :=
  if decide (filter_traceback E stdout_str = "") then
    match read_objective E individual stdout_str with
    | (individual, Ok _) => individual
    | (individual, Raise _) =>
        mark_invalid_individual individual "Invalid std out / objective value!"
    end
  else mark_invalid_individual individual (filter_traceback E stdout_str).

(** the dict after the second loop *)
Definition after_wait (entry : Individual * option nat) : Individual :=
  match entry.2 with
  | None => entry.1
  | Some process =>
      match communicate h process with
      | TimedOut msg => mark_invalid_individual entry.1 msg
      | Exited stdout_str => classify entry.1 stdout_str
      end
  end.

Definition evaluated (response_id : nat) (individual : Individual) : Individual :=
  after_wait (after_launch response_id individual).

(** whether the individual counts as a function evaluation *)
Definition submitted (individual : Individual) : bool :=
  match individual !! "code" with
  | Some VNone | None => false
  | Some _ => true
  end.

(** the events of the first loop on one individual, oldest first *)
Definition launch_events (response_id : nat) (individual : Individual) : list event :=
  if submitted individual && started individual response_id
  then [EvLaunch response_id] else [].

(** the events of the second loop on one individual, oldest first *)
Definition wait_events (entry : Individual * option nat) : list event :=
  match entry.2 with
  | None => []
  | Some process =>
      match communicate h process with
      | TimedOut _ => [EvCommunicate process wait_timeout; EvKill process]
      | Exited _ => [EvCommunicate process wait_timeout]
      end
  end.

Definition has_code (individual : Individual) : Prop :=
  is_Some (individual !! "code").

(** the state after the first loop on one individual *)
Definition launch_step (response_id : nat) (individual : Individual) (s : G2A) : G2A :=
  if submitted individual then
    let s := set_function_evals (function_evals s + 1) s in
    if started individual response_id then emit (EvLaunch response_id) s else s
  else s.

Fixpoint launch_state (k : nat) (l : list Individual) (s : G2A) : G2A :=
  match l with
  | [] => s
  | individual :: l' => launch_state (S k) l' (launch_step k individual s)
  end.

(** the state after the second loop on one entry *)
Definition wait_step (entry : Individual * option nat) (s : G2A) : G2A :=
  fold_left (λ s e, emit e s) (wait_events entry) s.

Definition wait_state (l : list (Individual * option nat)) (s : G2A) : G2A :=
  fold_left (λ s entry, wait_step entry s) l s.

(** an entry of the second loop whose individual has a capture path *)
Definition launched_ok (entry : Individual * option nat) : Prop :=
  ∀ process, entry.2 = Some process → is_Some (entry.1 !! "stdout_filepath").

(** the exception of the read of the capture of an entry of the second
    loop, if the loop gets to the read and the read raises *)
Definition unreadable (entry : Individual * option nat) : option exn :=
  match entry.2 with
  | None => None
  | Some process =>
      match communicate h process with
      | TimedOut _ => None
      | Exited _ => read_capture h process
      end
  end.

(** the second loop on a list of entries: the state it ends in, and the
    exception that ends it when the read of a capture raises *)
Fixpoint wait_outcome (l : list (Individual * option nat)) (s : G2A)
    : G2A * option exn :=
  match l with
  | [] => (s, None)
  | entry :: l' =>
      match unreadable entry with
      | Some e => (wait_step entry s, Some e)
      | None => wait_outcome l' (wait_step entry s)
      end
  end.

(** every capture that the second loop opens can be read *)
Definition readable (population : list Individual) : Prop :=
  Forall (λ entry, unreadable entry = None) (imap after_launch population).

(** the number of entries that the second loop gets to: all of them, or
    those up to and including the first whose capture cannot be read *)
Fixpoint reach (l : list (Individual * option nat)) : nat :=
  match l with
  | [] => 0
  | entry :: l' =>
      match unreadable entry with
      | Some _ => 1
      | None => S (reach l')
      end
  end.

(** the objective line of a capture: the second-to-last line, parsed *)
Definition parse_objective (stdout_str : string) : option float :=
  match index_neg2 (split_newline stdout_str) with
  | Ok line => py_float E line
  | Raise _ => None
  end.

(** The ways the evaluation of one individual fails, each with the
    failure message it is recorded with. *)
Inductive failure (response_id : nat) (individual : Individual) : string → Prop :=
  | null_code :
      individual !! "code" = Some VNone →
      failure response_id individual "Invalid response!"
  | launch_exception e :
      individual !! "code" ≠ Some VNone →
      launch_result individual response_id = Raise e →
      failure response_id individual (py_str_exn e)
  | timeout process msg :
      individual !! "code" ≠ Some VNone →
      launch_result individual response_id = Ok process →
      communicate h process = TimedOut msg →
      failure response_id individual msg
  | runtime_traceback process stdout_str :
      individual !! "code" ≠ Some VNone →
      launch_result individual response_id = Ok process →
      communicate h process = Exited stdout_str →
      filter_traceback E stdout_str ≠ "" →
      failure response_id individual (filter_traceback E stdout_str)
  | malformed_output process stdout_str :
      individual !! "code" ≠ Some VNone →
      launch_result individual response_id = Ok process →
      communicate h process = Exited stdout_str →
      filter_traceback E stdout_str = "" →
      parse_objective stdout_str = None →
      failure response_id individual "Invalid std out / objective value!"
  | nonpositive_objective process stdout_str obj :
      individual !! "code" ≠ Some VNone →
      launch_result individual response_id = Ok process →
      communicate h process = Exited stdout_str →
      filter_traceback E stdout_str = "" →
      parse_objective stdout_str = Some obj →
      ltb zero obj = false →
      failure response_id individual "Invalid std out / objective value!".

(** the events of an evaluation that runs to its end, oldest first *)
Definition evaluation_events (population : list Individual) : list event :=
  mjoin (imap launch_events population)
  ++ mjoin (wait_events <$> imap after_launch population).

(** the events of a call of [evaluate_population], oldest first: those
    of the first loop, then those of the rounds that the second loop
    gets to *)
Definition run_events (population : list Individual) : list event :=
  mjoin (imap launch_events population)
  ++ mjoin (wait_events <$>
              imap after_launch
                (take (reach (imap after_launch population)) population)).

End ClosedForm.

(** ** Vocabulary of the statements *)

(** the fields written by the evaluation *)
Definition evaluation_keys : gset string :=
  {["exec_success"; "obj"; "fitness"; "traceback_msg"]}.

(** an individual that carries an objective, a fitness and a success flag *)
Definition scored (individual : Individual) : Prop :=
  (∃ obj, individual !! "obj" = Some (VFloat obj) ∧ is_nan obj = false) ∧
  is_Some (individual !! "fitness") ∧
  (∃ b, individual !! "exec_success" = Some (VBool b)).

(** an individual marked invalid with the message [msg] *)
Definition invalid_with (msg : string) (individual : Individual) : Prop :=
  individual !! "exec_success" = Some (VBool false) ∧
  individual !! "obj" = Some (VFloat inf) ∧
  individual !! "fitness" = Some (VInt 0) ∧
  individual !! "traceback_msg" = Some (VStr msg).

(** [s'] differs from [s] at most in the evaluation counter and the
    process events *)
Definition same_bookkeeping (s s' : G2A) : Prop :=
  iteration s' = iteration s ∧ elitist s' = elitist s ∧
  best_obj_overall s' = best_obj_overall s ∧
  best_code_overall s' = best_code_overall s ∧
  best_desc_overall s' = best_desc_overall s ∧
  best_code_path_overall s' = best_code_path_overall s ∧
  population s' = population s.

(** the dict of a successful evaluation with objective [obj] *)
Definition success_with (obj : float) (individual : Individual) : Individual :=
  <["exec_success" := VBool true]>
    (<["fitness" := VFloat (div one obj)]> (<["obj" := VFloat obj]> individual)).

(** the dict handed to [mark_invalid_individual]: the input, possibly
    with an objective already stored by the failed attempt *)
Definition attempt_of (individual individual0 : Individual) : Prop :=
  individual0 = individual ∨ ∃ obj, individual0 = <["obj" := VFloat obj]> individual.

(** [e] is a wait on the process of slot [rid] *)
Definition is_wait_on (rid : nat) (e : event) : bool :=
  match e with
  | EvCommunicate r _ => bool_decide (r = rid)
  | _ => false
  end.

(** the individual's code is not Python's [None] *)
Definition code_not_null (individual : Individual) : Prop :=
  individual !! "code" ≠ Some VNone.

#[global] Instance code_not_null_dec individual : Decision (code_not_null individual).
Proof. unfold code_not_null. apply _. Defined.

(** an individual returned by [response_to_individual] *)
Definition constructed (E : Externals) (individual : Individual) : Prop :=
  ∃ response response_id file_name s s',
    response_to_individual E response response_id file_name s = (s', Ok individual).

(** the fields of the dict literal of [response_to_individual] *)
Definition constructor_keys : gset string :=
  {["stdout_filepath"; "code_path"; "code"; "response_id"]}.

(** [individual["exec_success"]] is present and true in a condition *)
Definition successful (individual : Individual) : Prop :=
  ∃ v, individual !! "exec_success" = Some v ∧ py_truthy v = true.

#[global] Instance successful_dec individual : Decision (successful individual).
Proof.
  unfold successful. destruct (individual !! "exec_success") as [v|].
  - destruct (py_truthy v) eqn:Hv.
    + left. eauto.
    + right. intros (v' & [= <-] & Hv'). congruence.
  - right. intros (v' & [=] & _).
Defined.

(** the best objective of a generation, as [update_iter] computes it *)
Definition best_of_generation (population : list Individual) : result float :=
  rbind (list_comprehension obj_of population) py_min.

(** entries [2k] and [2k+1] of [selected] are entries of [pool] at two
    different positions *)
Definition pair_from (pool selected : list Individual) (k : nat) : Prop :=
  ∃ i j x y, i ≠ j ∧ pool !! i = Some x ∧ pool !! j = Some y ∧
             selected !! (2 * k) = Some x ∧ selected !! (2 * k + 1) = Some y.

(** the best individual of a generation can be recorded as best overall *)
Definition recordable (individual : Individual) : Prop :=
  is_Some (individual !! "code") ∧ is_Some (individual !! "description") ∧
  is_Some (individual !! "code_path").

(** a computation that leaves the state as it found it *)
Definition reads_only {A : Type} (m : M A) : Prop := ∀ s, (m s).1 = s.

(** [m] can only return values that satisfy [P] *)
Definition returns {A : Type} (m : M A) (P : A → Prop) : Prop :=
  ∀ s s' a, m s = (s', Ok a) → P a.

(** a computation that changes at most the evaluation counter and the
    process events *)
Definition keeps_bookkeeping {A : Type} (m : M A) : Prop :=
  ∀ s, same_bookkeeping s (m s).1.

(** a computation that never raises the best objective overall *)
Definition non_increasing {A : Type} (m : M A) : Prop :=
  ∀ s s' r, is_nan (best_obj_overall s) = false → m s = (s', r) →
    leb (best_obj_overall s') (best_obj_overall s) = true ∧
    is_nan (best_obj_overall s') = false.

(** an individual with a code field and no description field *)
Definition undescribed (individual : Individual) : Prop :=
  has_code individual ∧ individual !! "description" = None.

(** ** Concrete data for running the definitions *)

Module Sample.

Definition float_of_Z (z : Z) : float := binary_normalize prec emax z 0 false.

(** the float [42.5] *)
Definition f42_5 : float := Eval vm_compute in div (float_of_Z 85) (float_of_Z 2).
(** the float [10.0] *)
Definition f10 : float := Eval vm_compute in float_of_Z 10.
(** the float [-1.0] *)
Definition fm1 : float := Eval vm_compute in float_of_Z (-1).

(** [float(str)] on the few texts used below; Python accepts more. *)
Definition parse (s : string) : option float :=
  if String.eqb s "inf" then Some inf
  else if String.eqb s "42.5" then Some f42_5
  else if String.eqb s "10.0" then Some f10
  else if String.eqb s "-1.0" then Some fm1
  else if String.eqb s "0.0" then Some zero
  else None.

(** a capture counts as a traceback when it starts with that word *)
Definition traceback_of (s : string) : string :=
  if String.prefix "Traceback" s then s else "".

(** a completion is taken to be its own code, the empty one having none *)
Definition code_of (s : string) : option string :=
  if String.eqb s "" then None else Some s.

Definition externals : Externals :=
  {| process_code := code_of;
     filter_traceback := traceback_of;
     py_float := parse;
     str_format := λ template _, template |}.

(** a harness in which every launch works and slot [rid] ends as [outs !! rid] *)
Definition harness (outs : list wait_result) : Harness :=
  {| open_output := λ _, None;
     write_output := λ _, None;
     spawn := λ _, None;
     block_until_running := λ _, None;
     communicate := λ rid, default (Exited "") (outs !! rid);
     read_capture := λ _, None |}.

(** the individual built for slot [rid] of generation 0 from code [code] *)
Definition fresh (rid : nat) (code : pyval) : Individual :=
  <["response_id" := VInt (Z.of_nat rid)]>
    (<["code" := code]>
      (<["code_path" := VStr ("problem_iter0_code" +:+ pretty rid +:+ ".py")]>
        (<["stdout_filepath" :=
             VStr ("problem_iter0_response" +:+ pretty rid +:+ ".txt_stdout.txt")]> ∅))).

(** the capture [42.5\nDONE] *)
Definition capture_42_5 : string := "42.5" +:+ nl +:+ "DONE".
(** the capture [10.0\nDONE] *)
Definition capture_10 : string := "10.0" +:+ nl +:+ "DONE".
(** the capture [inf\n] *)
Definition capture_inf : string := "inf" +:+ nl.
(** the capture [-1.0\n] *)
Definition capture_neg : string := "-1.0" +:+ nl.

Definition config (n budget : nat) : Config :=
  {| pop_size := n; max_fe := budget; diversify := false;
     problem_description := "tsp"; seed_function := "seed";
     generator_system_prompt := "system"; initial_user := "user";
     ga_crossover_prompt := "crossover"; ga_mutate_prompt := "mutate" |}.

(** a world whose model answers every request with the same completions
    and whose harness is the same in every generation *)
Definition world (completions : list string) (outs : list wait_result) : World :=
  {| harness_at := λ _, harness outs;
     chat_completion := λ _ _, completions;
     multi_chat_completion := λ _ messages_lst, (λ _, completions) <$> messages_lst;
     random_pair := λ _ draw, (draw, draw);
     mutation_draw := λ _ _, false |}.

(** a batch of five individuals, the second with null code *)
Definition batch : list Individual :=
  [fresh 0 (VStr "a"); fresh 1 VNone; fresh 2 (VStr "b"); fresh 3 (VStr "c");
   fresh 4 (VStr "d")].

(** how the waits on the five slots end *)
Definition outs : list wait_result :=
  [Exited capture_42_5; Exited ""; TimedOut "timed out"; Exited capture_inf;
   Exited capture_neg].

(** two fresh individuals and their evaluation with objectives 42.5 and 10.0 *)
Definition pair : list Individual := [fresh 0 (VStr "a"); fresh 1 (VStr "b")].

Definition pair_outs : list wait_result := [Exited capture_42_5; Exited capture_10].

Definition evaluated_pair : list Individual :=
  [success_with f42_5 (fresh 0 (VStr "a")); success_with f10 (fresh 1 (VStr "b"))].

(** the same two after evaluation, had they carried a description *)
Definition described_pair : list Individual :=
  [success_with f42_5 (<["description" := VStr "first"]> (fresh 0 (VStr "a")));
   success_with f10 (<["description" := VStr "second"]> (fresh 1 (VStr "b")))].

(** a state at the start of [update_iter] whose population improves on
    the best objective overall and on the elitist, both at 42.5 *)
Definition boundary_state : G2A :=
  {| iteration := 1; function_evals := 4;
     elitist := Some (success_with f42_5 (<["description" := VStr "old"]>
                                            (fresh 0 (VStr "c"))));
     best_obj_overall := f42_5;
     best_code_overall := Some (VStr "c");
     best_desc_overall := Some (VStr "old");
     best_code_path_overall := Some (VStr "problem_iter0_code0.py");
     population := Some described_pair;
     events := [] |}.

End Sample.

(** ** Vocabulary of the bookkeeping invariants *)

(** the elitist carries the best objective overall *)
Definition elitist_is_best (s : G2A) : Prop :=
  ∃ e, elitist s = Some e ∧ obj_of e = Ok (best_obj_overall s).

(** the messages of the request of [init_population] *)
Definition initial_messages (cfg : Config) : list message :=
  [("system", generator_system_prompt cfg);
   ("user", initial_user cfg);
   ("assistant", seed_function cfg);
   ("user", "Improve over the above code. " +:+ nl +:+ "[code]:" +:+ nl)].

(** the dict literal of [response_to_individual] when no file name is
    given, for the code [code] *)
Definition new_individual (iteration response_id : nat) (code : string) : Individual :=
  <["response_id" := VInt (Z.of_nat response_id)]>
    (<["code" := VStr code]>
      (<["code_path" := VStr ("problem_iter" +:+ pretty iteration +:+ "_code"
                                +:+ pretty response_id +:+ ".py")]>
        (<["stdout_filepath" :=
             VStr (("problem_iter" +:+ pretty iteration +:+ "_response"
                      +:+ pretty response_id +:+ ".txt") +:+ "_stdout.txt")]> ∅))).

(** the text of the [TypeError] of [None + '\n'] *)
Definition none_plus_str : string :=
  "unsupported operand type(s) for +: 'NoneType' and 'str'".

(** ** The variation operators: where they stop *)

(** the exception of the first round of the loop of [crossover] on the
    parents [parent_1] and [parent_2] *)
Definition crossover_error (parent_1 parent_2 : Individual) : exn :=
  if parent_1 !! "code" is None then KeyError "code"
  else if parent_2 !! "code" is None then KeyError "code"
  else if parent_1 !! "description" is None then KeyError "description"
  else if parent_2 !! "description" is None then KeyError "description"
  else AttributeError "system_prompt".

(** the exception of the round of the loop of [mutate] on an individual
    drawn for mutation *)
Definition mutate_error (individual : Individual) : exn :=
  if individual !! "code" is None then KeyError "code"
  else if individual !! "description" is None then KeyError "description"
  else AttributeError "system_prompt".

Section Greedy.

Variable E : Externals.
Variable cfg : Config.
Variable W : World.


End Greedy.

(** ** Captures as lines, and the process trace *)

(** ['\n'.join(lines)] *)
Fixpoint join_newline (lines : list string) : string :=
  match lines with
  | [] => ""
  | [line] => line
  | line :: rest => line +:+ nl +:+ join_newline rest
  end.

(** a text without a line feed *)
Fixpoint one_line (s : string) : bool :=
  match s with
  | EmptyString => true
  | String c rest => negb (Ascii.eqb c newline) && one_line rest
  end.

(** a list of numbers in strictly increasing order *)
Definition increasing (l : list nat) : Prop :=
  ∀ i j a b, i < j → l !! i = Some a → l !! j = Some b → a < b.

Section Trace.

Variable h : Harness.

(** the slots whose process was started by the first loop of
    [evaluate_population], in the order of the loop *)
Definition launched_slots (population : list Individual) : list nat :=
  omap id (imap (λ i x, if submitted x && started h x i then Some i else None)
             population).

(** the slots whose process the second loop waits on when it runs to
    its end: those for which [run_code] returned *)
Definition waited_slots (population : list Individual) : list nat :=
  omap id (imap (λ i x, (after_launch h i x).2) population).

(** the events of the second loop on the process of one slot, oldest first *)
Definition wait_trace (process : nat) : list event :=
  match communicate h process with
  | TimedOut _ => [EvCommunicate process wait_timeout; EvKill process]
  | Exited _ => [EvCommunicate process wait_timeout]
  end.

End Trace.

(** ** Digits *)

(** a character among [0] ... [9] *)
Definition is_digit (c : ascii) : bool :=
  (48 <=? nat_of_ascii c) && (nat_of_ascii c <=? 57).

Fixpoint all_digits (s : string) : bool :=
  match s with
  | EmptyString => true
  | String c rest => is_digit c && all_digits rest
  end.

(** the name of the response file of [response_to_individual] *)
Definition response_file (iteration response_id : nat) (file_name : option string)
    : string :=
  match file_name with
  | None => "problem_iter" +:+ pretty iteration +:+ "_response"
              +:+ pretty response_id +:+ ".txt"
  | Some f => f +:+ ".txt"
  end.

(** ** The similarity matrix *)

Definition Z_of_bool (b : bool) : Z := if b then 1%Z else 0%Z.

(** the float [f] has the value of the integer [z] *)
Definition float_eq_Z (f : float) (z : Z) : bool :=
  match f with
  | S754_zero _ => (z =? 0)%Z
  | S754_finite sign m e =>
      let v := if sign then Z.neg m else Z.pos m in
      if (0 <=? e)%Z then (z =? v * 2 ^ e)%Z else (z * 2 ^ (- e) =? v)%Z
  | S754_infinity _ | S754_nan => false
  end.

(** [x == y]: numbers are compared by value, a [bool] counting as the
    integer 0 or 1, and a NaN is equal to nothing *)
Definition py_eq (x y : pyval) : bool :=
  match x, y with
  | VNone, VNone => true
  | VStr a, VStr b => String.eqb a b
  | VFloat a, VFloat b => SFeqb a b
  | VFloat a, VInt z | VInt z, VFloat a => float_eq_Z a z
  | VFloat a, VBool b | VBool b, VFloat a => float_eq_Z a (Z_of_bool b)
  | VInt a, VInt b => (a =? b)%Z
  | VInt a, VBool b | VBool b, VInt a => (a =? Z_of_bool b)%Z
  | VBool a, VBool b => Bool.eqb a b
  | _, _ => false
  end.

(** a [for] loop of a function without object state: [acc = body(x, acc)]
    for each [x], an exception ending the loop *)
Fixpoint rfor {A S : Type} (body : A → S → result S) (l : list A) (acc : S)
    : result S :=
  match l with
  | [] => Ok acc
  | x :: l' => rbind (body x acc) (rfor body l')
  end.

(** [range(a, b)] *)
Definition range (a b : nat) : list nat := seq a (b - a).

(** numpy's error for an index past the end of an axis *)
Definition np_index_error (i size : nat) : exn :=
  IndexError ("index " +:+ pretty i +:+ " is out of bounds for axis 0 with size "
                +:+ pretty size).

(** [matrix[i][j] = v] on a two-dimensional array of floats, given by
    its rows *)
Definition np_setitem2 (matrix : list (list float)) (i j : nat) (v : float)
    : result (list (list float)) :=
  match matrix !! i with
  | None => Raise (np_index_error i (length matrix))
  | Some row =>
      if decide (j < length row) then Ok (<[i := <[j := v]> row]> matrix)
      else Raise (np_index_error j (length row))
  end.

(** the body of the inner loop of [adjust_similarity_matrix] *)
Definition adjust_pair (population : list Individual) (i j : nat)
    (similarity_matrix : list (list float)) : result (list (list float)) :=
  rbind (list_getitem population i) (λ individual_i,
  rbind (getitem individual_i "obj") (λ obj_i,
  rbind (list_getitem population j) (λ individual_j,
  rbind (getitem individual_j "obj") (λ obj_j,
  if py_eq obj_i obj_j then
    rbind (np_setitem2 similarity_matrix i j one) (λ similarity_matrix,
    np_setitem2 similarity_matrix j i one)
  else Ok similarity_matrix)))).

(** [adjust_similarity_matrix]: the array it returns, which is the
    array it was given, updated in place. When it raises, the entries
    written before the exception stay written in the caller's array;
    the model gives the exception only. *)
Definition adjust_similarity_matrix (similarity_matrix : list (list float))
    (population : list Individual) : result (list (list float)) :=
  rfor (λ i similarity_matrix,
          rfor (adjust_pair population i)
               (range (i + 1) (length population)) similarity_matrix)
       (range 0 (length population)) similarity_matrix.

(** the entry of row [a] and column [b] *)
Definition cell (matrix : list (list float)) (a b : nat) : option float :=
  match matrix !! a with
  | Some row => row !! b
  | None => None
  end.

(** the two arrays have the same numbers of rows and of columns *)
Definition same_shape (matrix matrix' : list (list float)) : Prop :=
  length <$> matrix' = length <$> matrix.

(** the array has at least [n] rows and its first [n] rows at least [n]
    columns *)
Definition wide (n : nat) (matrix : list (list float)) : Prop :=
  n ≤ length matrix ∧ ∀ a row, a < n → matrix !! a = Some row → n ≤ length row.

(** the objectives of the individuals at [i] and [j] are equal *)
Definition same_obj (population : list Individual) (i j : nat) : bool :=
  match population !! i, population !! j with
  | Some x, Some y =>
      match x !! "obj", y !! "obj" with
      | Some u, Some v => py_eq u v
      | _, _ => false
      end
  | _, _ => false
  end.

(** the entry [(a, b)] is one of [(i, j)] and [(j, i)] *)
Definition hit (i j a b : nat) : bool :=
  (a =? i) && (b =? j) || (a =? j) && (b =? i).

(** the entry [(a, b)] is written by the rounds [j] of the inner loop for [i] *)
Definition written_in_row (population : list Individual) (js : list nat)
    (i a b : nat) : bool :=
  existsb (λ j, same_obj population i j && hit i j a b) js.

(** the entry [(a, b)] is written by the rounds [i] of the outer loop *)
Definition written (population : list Individual) (rows : list nat) (a b : nat) : bool :=
  existsb (λ i, written_in_row population (range (i + 1) (length population)) i a b)
          rows.

(** ** Further concrete data *)

Module Cases.

(** the float [0.5] *)
Definition half : float := Eval vm_compute in div one (Sample.float_of_Z 2).

(** a world in which every slot is drawn for mutation *)
Definition mutating_world : World :=
  {| harness_at := λ _, Sample.harness [];
     chat_completion := λ _ _, [];
     multi_chat_completion := λ _ messages_lst, (λ _, ["m"]) <$> messages_lst;
     random_pair := λ _ draw, (draw, draw);
     mutation_draw := λ _ _, true |}.

(** the exception of reading a capture whose bytes are not text in the
    default encoding: a [UnicodeDecodeError], which is a [ValueError] *)
Definition decode_error : exn :=
  ValueError "'utf-8' codec can't decode byte 0xff in position 0: invalid start byte".

(** a harness like [Sample.harness outs], except that the capture of
    slot [rid] cannot be read back once the wait has returned *)
Definition garbled (rid : nat) (outs : list wait_result) : Harness :=
  {| open_output := λ _, None;
     write_output := λ _, None;
     spawn := λ _, None;
     block_until_running := λ _, None;
     communicate := λ p, default (Exited "") (outs !! p);
     read_capture := λ p, if decide (p = rid) then Some decode_error else None |}.

(** a harness like [Sample.harness outs], except that
    [block_until_running] raises on the capture of slot [rid] *)
Definition stalled (rid : nat) (outs : list wait_result) : Harness :=
  {| open_output := λ _, None;
     write_output := λ _, None;
     spawn := λ _, None;
     block_until_running := λ p, if decide (p = rid) then Some decode_error else None;
     communicate := λ p, default (Exited "") (outs !! p);
     read_capture := λ _, None |}.

(** a world like [Sample.world completions outs], except that the
    capture of slot 0 cannot be read back *)
Definition garbled_world (completions : list string) (outs : list wait_result)
    : World :=
  {| harness_at := λ _, garbled 0 outs;
     chat_completion := λ _ _, completions;
     multi_chat_completion := λ _ messages_lst, (λ _, completions) <$> messages_lst;
     random_pair := λ _ draw, (draw, draw);
     mutation_draw := λ _ _, false |}.

(** the capture [42.5\nDONE], line by line *)
Definition capture_lines : list string := ["42.5"; "DONE"].

(** three evaluated individuals, the first and the third with the same
    objective *)
Definition trio : list Individual :=
  [success_with Sample.f10 (Sample.fresh 0 (VStr "a"));
   success_with Sample.f42_5 (Sample.fresh 1 (VStr "b"));
   success_with Sample.f10 (Sample.fresh 2 (VStr "c"))].

(** three evaluated individuals, the first and the third failed *)
Definition two_failed : list Individual :=
  [mark_invalid_individual (Sample.fresh 0 (VStr "a")) "timed out";
   success_with Sample.f10 (Sample.fresh 1 (VStr "b"));
   mark_invalid_individual (Sample.fresh 2 (VStr "c"))
     "Invalid std out / objective value!"].

(** a symmetric array of similarities of three descriptions *)
Definition similarities : list (list float) :=
  [[one; half; zero]; [half; one; half]; [zero; half; one]].

(** the same array with the entries of the first and the third
    individual at 1.0 *)
Definition adjusted : list (list float) :=
  [[one; half; one]; [half; one; half]; [one; half; one]].

End Cases.

(** * Properties *)

(** ** The order on floats *)

Section FloatOrder.

Local Ltac cmp_cases :=
  repeat match goal with
  | |- context [Z.compare ?a ?b] => destruct (Z.compare_spec a b)
  | |- context [Pos.compare_cont Eq ?a ?b] =>
      change (Pos.compare_cont Eq a b) with (Pos.compare a b);
      destruct (Pos.compare_spec a b)
  | H : context [Z.compare ?a ?b] |- _ => destruct (Z.compare_spec a b)
  | H : context [Pos.compare_cont Eq ?a ?b] |- _ =>
      change (Pos.compare_cont Eq a b) with (Pos.compare a b) in H;
      destruct (Pos.compare_spec a b)
  end.

Lemma leb_trans x y z : leb x y = true → leb y z = true → leb x z = true.
Proof.
  unfold leb, SFleb, SFcompare.
  destruct x as [[]|[]| |[] mx ex], y as [[]|[]| |[] my ey], z as [[]|[]| |[] mz ez];
    simpl; try done; intros H1 H2; cmp_cases; simpl in *; try done; try lia.
Qed.

Lemma ltb_leb x y : ltb x y = true → leb x y = true.
Proof. unfold ltb, leb, SFltb, SFleb. by destruct (SFcompare x y) as [[]|]. Qed.

Lemma ltb_not_leb x y : ltb x y = true → leb y x = false.
Proof.
  unfold ltb, leb, SFltb, SFleb, SFcompare.
  destruct x as [[]|[]| |[] mx ex], y as [[]|[]| |[] my ey];
    simpl; try done; intros H; cmp_cases; simpl in *; try done; try lia.
Qed.

Lemma not_ltb_leb x y :
  is_nan x = false → is_nan y = false → ltb x y = false → leb y x = true.
Proof.
  unfold ltb, leb, SFltb, SFleb, SFcompare.
  destruct x as [[]|[]| |[] mx ex], y as [[]|[]| |[] my ey];
    simpl; try done; intros _ _ H; cmp_cases; simpl in *; try done; try lia.
Qed.

Lemma leb_refl x : is_nan x = false → leb x x = true.
Proof.
  unfold leb, SFleb, SFcompare.
  destruct x as [[]|[]| |[] mx ex]; simpl; try done; intros _;
    cmp_cases; simpl; try done; lia.
Qed.

Lemma ltb_irrefl x : ltb x x = false.
Proof.
  unfold ltb, SFltb, SFcompare.
  destruct x as [[]|[]| |[] mx ex]; simpl; try done; cmp_cases; simpl; try done; lia.
Qed.

Lemma leb_inf x : is_nan x = false → leb x inf = true.
Proof. by destruct x as [[]|[]| |[] mx ex]. Qed.

Lemma ltb_nan_l x y : ltb x y = true → is_nan x = false.
Proof. by destruct x as [[]|[]| |[] mx ex]. Qed.

Lemma ltb_nan_r x y : ltb x y = true → is_nan y = false.
Proof. by destruct x as [[]|[]| |[] mx ex], y as [[]|[]| |[] my ey]. Qed.

End FloatOrder.

(** ** [min] and [argmin] agree on lists without NaN *)

Section Minimum.

Lemma argmin_go_spec l : ∀ pre best cur,
  is_nan cur = false →
  Forall (λ y, is_nan y = false) l →
  pre !! best = Some cur →
  Forall (λ y, leb cur y = true) pre →
  (pre ++ l) !! np_argmin_go best cur (length pre) l = Some (py_min_from cur l) ∧
  Forall (λ y, leb (py_min_from cur l) y = true) (pre ++ l) ∧
  is_nan (py_min_from cur l) = false.
Proof.
  induction l as [|y l IH]; intros pre best cur Hcur Hl Hbest Hpre.
  - simpl. rewrite app_nil_r. done.
  - inversion Hl as [|? ? Hy Hl']; subst.
    cbn [np_argmin_go py_min_from fold_left]. rewrite Hcur, Hy. simpl.
    replace (pre ++ y :: l) with ((pre ++ [y]) ++ l) by (by rewrite <- app_assoc).
    replace (S (length pre)) with (length (pre ++ [y]))
      by (rewrite length_app; simpl; lia).
    destruct (ltb y cur) eqn:Hlt.
    + apply IH; try done.
      * by apply list_lookup_middle.
      * apply Forall_app. split.
        -- eapply Forall_impl; [exact Hpre|]. simpl. intros z Hz.
           eapply leb_trans; [|exact Hz]. by apply ltb_leb.
        -- repeat constructor. by apply leb_refl.
    + apply IH; try done.
      * apply lookup_app_l_Some. done.
      * apply Forall_app. split; [done|].
        repeat constructor. by apply not_ltb_leb.
Qed.

(** On a list of floats without NaN, [min] is a lower bound of the
    list and [argmin] is a position where it occurs. *)
Lemma min_argmin_spec l m k :
  Forall (λ y, is_nan y = false) l →
  py_min l = Ok m → np_argmin l = Ok k →
  l !! k = Some m ∧ Forall (λ y, leb m y = true) l ∧ is_nan m = false.
Proof.
  destruct l as [|x l]; [done|]. intros Hl [= <-] [= <-].
  inversion Hl as [|? ? Hx Hl']; subst.
  apply (argmin_go_spec l [x] 0 x); try done.
  repeat constructor. by apply leb_refl.
Qed.

Lemma min_argmin_defined l :
  l ≠ [] → ∃ m k, py_min l = Ok m ∧ np_argmin l = Ok k.
Proof. destruct l; [done|]. intros _. simpl. eauto. Qed.

End Minimum.

(** ** The two loops of [evaluate_population] *)

Section EvaluationFacts.

Variable E : Externals.
Variable h : Harness.

Lemma run_code_eq individual response_id s :
  run_code h individual response_id s =
  (if started h individual response_id then emit (EvLaunch response_id) s else s,
   launch_result h individual response_id).
Proof.
  unfold run_code, launch_result, started.
  destruct (open_output h response_id); [done|].
  unfold bind, lift, rbind.
  destruct (getitem individual "code") as [code|]; [|done].
  destruct (py_add_str code nl); [|done].
  destruct (write_output h response_id); [done|].
  destruct (getitem individual "stdout_filepath"); [|done].
  destruct (spawn h response_id); [done|].
  unfold modify. by destruct (block_until_running h response_id).
Qed.

Lemma launch_result_process individual response_id process :
  launch_result h individual response_id = Ok process →
  process = response_id ∧ is_Some (individual !! "stdout_filepath").
Proof.
  unfold launch_result, rbind, getitem.
  destruct (open_output h response_id); [done|].
  destruct (individual !! "code") as [code|]; [|done].
  destruct (py_add_str code nl); [|done].
  destruct (write_output h response_id); [done|].
  destruct (individual !! "stdout_filepath"); [|done].
  destruct (spawn h response_id); [done|].
  destruct (block_until_running h response_id); [done|].
  intros [= <-]. eauto.
Qed.

(** [run_code] returns only after it has started the process. *)
Lemma launch_result_started individual response_id process :
  launch_result h individual response_id = Ok process →
  started h individual response_id = true.
Proof.
  unfold launch_result, started, rbind.
  destruct (open_output h response_id); [done|].
  destruct (getitem individual "code") as [code|]; [|done].
  destruct (py_add_str code nl); [|done].
  destruct (write_output h response_id); [done|].
  destruct (getitem individual "stdout_filepath"); [|done].
  by destruct (spawn h response_id).
Qed.

(** [run_code] raises after it has started the process exactly when
    [block_until_running] raises, and with that exception. *)
Lemma started_raise individual response_id e :
  started h individual response_id = true →
  launch_result h individual response_id = Raise e ↔
  block_until_running h response_id = Some e.
Proof.
  unfold launch_result, started, rbind.
  destruct (open_output h response_id); [done|].
  destruct (getitem individual "code") as [code|]; [|done].
  destruct (py_add_str code nl); [|done].
  destruct (write_output h response_id); [done|].
  destruct (getitem individual "stdout_filepath"); [|done].
  destruct (spawn h response_id); [done|].
  intros _. destruct (block_until_running h response_id); split; congruence.
Qed.

Lemma launch_one_eq done individual rest inner_runs s :
  has_code individual →
  launch_one h (length done) (done ++ individual :: rest, inner_runs) s =
  (launch_step h (length done) individual s,
   Ok (done ++ (after_launch h (length done) individual).1 :: rest,
       inner_runs ++ [(after_launch h (length done) individual).2])).
Proof.
  intros [code Hcode].
  unfold launch_one, bind, lift, list_getitem, getitem, after_launch, launch_step,
    submitted.
  rewrite list_lookup_middle by done. rewrite Hcode.
  assert (Hins : ∀ x, <[length done := x]> (done ++ individual :: rest)
                      = done ++ x :: rest).
  { intros x. rewrite insert_app_r_alt by lia. by rewrite Nat.sub_diag. }
  destruct code; simpl; rewrite ?Hins; try done;
    unfold try_except, bind, modify, ret; rewrite run_code_eq;
    destruct (launch_result h individual (length done)); simpl; by rewrite ?Hins.
Qed.

Lemma launch_loop_eq rest : ∀ done inner_runs s,
  Forall has_code rest →
  for_each (launch_one h) (seq (length done) (length rest)) (done ++ rest, inner_runs) s =
  (launch_state h (length done) rest s,
   Ok (done ++ (imap (λ i x, (after_launch h (length done + i) x).1) rest),
       inner_runs ++ (imap (λ i x, (after_launch h (length done + i) x).2) rest))).
Proof.
  induction rest as [|individual rest IH]; intros done inner_runs s Hall.
  - simpl. by rewrite !app_nil_r.
  - inversion Hall as [|? ? Hc Hrest]; subst.
    cbn [length seq for_each]. unfold bind at 1.
    rewrite launch_one_eq by done.
    replace (done ++ (after_launch h (length done) individual).1 :: rest)
      with ((done ++ [(after_launch h (length done) individual).1]) ++ rest)
      by (by rewrite <- app_assoc).
    replace (S (length done))
      with (length (done ++ [(after_launch h (length done) individual).1]))
      by (rewrite length_app; simpl; lia).
    rewrite IH by done.
    rewrite length_app. cbn [length launch_state imap].
    rewrite Nat.add_0_r, <- !app_assoc. cbn [app].
    replace (length done + 1) with (S (length done)) by lia.
    rewrite (imap_ext (λ i x, (after_launch h (S (length done) + i) x).1)
               ((λ i x, (after_launch h (length done + i) x).1) ∘ S) rest)
      by (intros i x _; simpl; do 2 f_equal; lia).
    rewrite (imap_ext (λ i x, (after_launch h (S (length done) + i) x).2)
               ((λ i x, (after_launch h (length done + i) x).2) ∘ S) rest)
      by (intros i x _; simpl; do 2 f_equal; lia).
    reflexivity.
Qed.

(** One round of the second loop: the read of the capture either
    raises, which ends the round with its exception, or the individual
    is classified. *)
Lemma collect_one_eq done entry rest s :
  launched_ok entry →
  collect_one E h (length done, entry.2) (done ++ entry.1 :: rest) s =
  (wait_step h entry s,
   match unreadable h entry with
   | Some e => Raise e
   | None => Ok (done ++ after_wait E h entry :: rest)
   end).
Proof.
  intros Hok. destruct entry as [individual run]. simpl in *.
  assert (Hins : ∀ x, <[length done := x]> (done ++ individual :: rest)
                      = done ++ x :: rest).
  { intros x. rewrite insert_app_r_alt by lia. by rewrite Nat.sub_diag. }
  unfold collect_one, after_wait, wait_step, wait_events, unreadable. simpl.
  destruct run as [process|]; [|done].
  destruct (Hok process eq_refl) as [path Hpath]. simpl in Hpath.
  unfold bind, modify, lift, list_getitem, getitem, ret, raise.
  rewrite list_lookup_middle by done.
  destruct (communicate h process) as [stdout_str|msg]; simpl.
  - rewrite Hpath. destruct (read_capture h process); [done|]. unfold classify.
    destruct (decide (filter_traceback E stdout_str = "")).
    + destruct (read_objective E individual stdout_str) as [ind' [[]|err]];
        by rewrite Hins.
    + by rewrite Hins.
  - by rewrite Hins.
Qed.

Lemma wait_loop_outcome rest : ∀ done s,
  Forall launched_ok rest →
  for_each (collect_one E h) (zip (seq (length done) (length rest)) (rest.*2))
           (done ++ rest.*1) s =
  ((wait_outcome h rest s).1,
   match (wait_outcome h rest s).2 with
   | Some e => Raise e
   | None => Ok (done ++ (after_wait E h <$> rest))
   end).
Proof.
  induction rest as [|entry rest IH]; intros done s Hall.
  - simpl. by rewrite !app_nil_r.
  - inversion Hall as [|? ? Hok Hrest]; subst.
    cbn [length seq fmap list_fmap zip zip_with for_each wait_outcome].
    unfold bind at 1. rewrite collect_one_eq by done.
    destruct (unreadable h entry) as [e|]; [done|].
    replace (done ++ after_wait E h entry :: rest.*1)
      with ((done ++ [after_wait E h entry]) ++ rest.*1)
      by (by rewrite <- app_assoc).
    replace (S (length done)) with (length (done ++ [after_wait E h entry]))
      by (rewrite length_app; simpl; lia).
    rewrite IH by done. by rewrite <- app_assoc.
Qed.

(** When every capture can be read, the second loop runs to its end. *)
Lemma wait_outcome_readable rest : ∀ s,
  Forall (λ entry, unreadable h entry = None) rest →
  wait_outcome h rest s = (wait_state h rest s, None).
Proof.
  induction rest as [|entry rest IH]; intros s Hall; [done|].
  inversion Hall as [|? ? Hr Hrest]; subst.
  cbn [wait_outcome]. rewrite Hr. by rewrite IH.
Qed.

(** The second loop stops at the first capture that cannot be read. *)
Lemma wait_outcome_unreadable before entry rest e s :
  Forall (λ entry, unreadable h entry = None) before →
  unreadable h entry = Some e →
  wait_outcome h (before ++ entry :: rest) s =
  (wait_step h entry (wait_state h before s), Some e).
Proof.
  revert s. induction before as [|x before IH]; intros s Hall He.
  - cbn [app wait_outcome]. by rewrite He.
  - inversion Hall as [|? ? Hr Hrest]; subst.
    cbn [app wait_outcome]. rewrite Hr. by rewrite IH.
Qed.

(** The second loop ends with an exception exactly when some capture
    cannot be read. *)
Lemma wait_outcome_cases l s :
  (Forall (λ entry, unreadable h entry = None) l ∧
   wait_outcome h l s = (wait_state h l s, None)) ∨
  (∃ before entry rest e,
     l = before ++ entry :: rest ∧
     Forall (λ entry, unreadable h entry = None) before ∧
     unreadable h entry = Some e ∧
     wait_outcome h l s = (wait_step h entry (wait_state h before s), Some e)).
Proof.
  revert s. induction l as [|x l IH]; intros s.
  - left. by split.
  - destruct (unreadable h x) as [e|] eqn:Hx.
    + right. exists [], x, l, e. split_and!; try done.
      cbn [wait_outcome]. by rewrite Hx.
    + destruct (IH (wait_step h x s))
        as [[Hall Hw]|(before & entry & rest & e & -> & Hall & He & Hw)].
      * left. split; [by constructor|]. cbn [wait_outcome]. by rewrite Hx.
      * right. exists (x :: before), entry, rest, e. split_and!; try done.
        -- by constructor.
        -- cbn [app wait_outcome]. by rewrite Hx.
Qed.

Lemma after_launch_ok response_id individual :
  launched_ok (after_launch h response_id individual).
Proof.
  unfold launched_ok, after_launch. intros process.
  destruct (individual !! "code") as [[]|];
    try (destruct (launch_result h individual response_id) eqn:Hl; simpl; [|done];
         intros [= <-]; by apply launch_result_process in Hl as [_ ?]).
Qed.

(** [evaluate_population] in closed form: the first loop runs to its
    end; the second loop either stops at a capture that cannot be read,
    or the method returns, slot by slot, the evaluated individual. *)
Lemma evaluate_population_outcome population s :
  Forall has_code population →
  evaluate_population E h population s =
  ((wait_outcome h (imap (after_launch h) population)
      (launch_state h 0 population s)).1,
   match (wait_outcome h (imap (after_launch h) population)
            (launch_state h 0 population s)).2 with
   | Some e => Raise e
   | None => Ok (imap (evaluated E h) population)
   end).
Proof.
  intros Hall. unfold evaluate_population, bind at 1.
  pose proof (launch_loop_eq population [] [] s Hall) as Hl.
  cbn [length app] in Hl. rewrite Hl. clear Hl.
  unfold enumerate. rewrite length_imap.
  set (entries := imap (after_launch h) population).
  replace (imap (λ i x, (after_launch h (0 + i) x).1) population) with (entries.*1)
    by (unfold entries; rewrite fmap_imap; by apply imap_ext).
  replace (imap (λ i x, (after_launch h (0 + i) x).2) population) with (entries.*2)
    by (unfold entries; rewrite fmap_imap; by apply imap_ext).
  pose proof (wait_loop_outcome entries [] (launch_state h 0 population s)) as Hw.
  cbn [length app] in Hw.
  assert (Hlen : length entries = length population) by apply length_imap.
  rewrite Hlen in Hw. rewrite Hw.
  - f_equal. destruct (wait_outcome h entries (launch_state h 0 population s)).2;
      [done|].
    f_equal. unfold entries. rewrite fmap_imap. by apply imap_ext.
  - apply Forall_lookup. intros i entry. unfold entries.
    rewrite list_lookup_imap. destruct (population !! i); [|done].
    intros [= <-]. apply after_launch_ok.
Qed.

(** When every capture can be read, [evaluate_population] returns, slot
    by slot, the evaluated individual. *)
Lemma evaluate_population_eq population s :
  Forall has_code population →
  readable h population →
  evaluate_population E h population s =
  (wait_state h (imap (after_launch h) population) (launch_state h 0 population s),
   Ok (imap (evaluated E h) population)).
Proof.
  intros Hall Hread. rewrite evaluate_population_outcome by done.
  by rewrite wait_outcome_readable.
Qed.

(** [evaluate_population] returns exactly when every capture can be
    read, and then the evaluated individuals. *)
Lemma evaluate_population_ok population s s' population' :
  Forall has_code population →
  evaluate_population E h population s = (s', Ok population') →
  readable h population ∧ population' = imap (evaluated E h) population ∧
  s' = wait_state h (imap (after_launch h) population)
         (launch_state h 0 population s).
Proof.
  intros Hall. rewrite evaluate_population_outcome by done.
  destruct (wait_outcome_cases (imap (after_launch h) population)
              (launch_state h 0 population s))
    as [[Hr ->]|(before & entry & rest & e & _ & _ & _ & ->)]; simpl.
  - by intros [= <- <-].
  - intros [=].
Qed.

(** [evaluate_population] raises at the first capture that cannot be
    read: the exception is that of the read. *)
Lemma evaluate_population_raises population s before entry rest e :
  Forall has_code population →
  imap (after_launch h) population = before ++ entry :: rest →
  Forall (λ entry, unreadable h entry = None) before →
  unreadable h entry = Some e →
  evaluate_population E h population s =
  (wait_step h entry (wait_state h before (launch_state h 0 population s)), Raise e).
Proof.
  intros Hall Heq Hb He. rewrite evaluate_population_outcome by done.
  rewrite Heq. by rewrite (wait_outcome_unreadable before entry rest e).
Qed.

End EvaluationFacts.

(** ** What the evaluation leaves in one individual *)

Section ScoringFacts.

Variable E : Externals.
Variable h : Harness.

Lemma mark_invalid_invalid individual msg :
  invalid_with msg (mark_invalid_individual individual msg).
Proof. unfold invalid_with, mark_invalid_individual. by simplify_map_eq. Qed.

Lemma mark_invalid_other individual msg k :
  k ∉ evaluation_keys →
  mark_invalid_individual individual msg !! k = individual !! k.
Proof.
  unfold evaluation_keys, mark_invalid_individual. intros Hk.
  rewrite !lookup_insert_ne; [done|set_solver..].
Qed.

Lemma attempt_other individual individual0 k :
  attempt_of individual individual0 → k ∉ evaluation_keys →
  individual0 !! k = individual !! k.
Proof.
  unfold evaluation_keys. intros [->|[obj ->]] Hk; [done|].
  rewrite lookup_insert_ne; [done|set_solver].
Qed.

Lemma success_other individual obj k :
  k ∉ evaluation_keys → success_with obj individual !! k = individual !! k.
Proof.
  unfold evaluation_keys, success_with. intros Hk.
  rewrite !lookup_insert_ne; [done|set_solver..].
Qed.

Lemma positive_not_zero obj : ltb zero obj = true → is_zero obj = false.
Proof. by destruct obj as [[]|[]| |[] m e]. Qed.

Lemma positive_not_nan obj : ltb zero obj = true → is_nan obj = false.
Proof. by destruct obj as [[]|[]| |[] m e]. Qed.

(** the inner [try] either stores a positive objective with its
    reciprocal, or raises having stored at most the objective *)
Lemma read_objective_cases individual stdout_str :
  (∃ obj, parse_objective E stdout_str = Some obj ∧ ltb zero obj = true ∧
          read_objective E individual stdout_str = (success_with obj individual, Ok tt))
  ∨ (∃ individual0 e,
       read_objective E individual stdout_str = (individual0, Raise e) ∧
       attempt_of individual individual0 ∧
       (parse_objective E stdout_str = None ∨
        ∃ obj, parse_objective E stdout_str = Some obj ∧ ltb zero obj = false)).
Proof.
  unfold read_objective, parse_objective, attempt_of.
  destruct (index_neg2 (split_newline stdout_str)) as [line|e]; [|right; eauto 10].
  destruct (py_float E line) as [obj|]; [|right; eauto 10].
  destruct (ltb zero obj) eqn:Hpos; [|right; eauto 10].
  left. exists obj. unfold py_truediv_one. by rewrite positive_not_zero.
Qed.

Lemma failure_evaluated response_id individual msg :
  failure E h response_id individual msg →
  ∃ individual0, attempt_of individual individual0 ∧
    evaluated E h response_id individual = mark_invalid_individual individual0 msg.
Proof.
  unfold evaluated, after_launch, after_wait, attempt_of.
  destruct 1 as [Hcode|e Hcode Hl|process msg Hcode Hl Hw
                 |process out Hcode Hl Hw Htb|process out Hcode Hl Hw Htb Hp
                 |process out obj Hcode Hl Hw Htb Hp Hneg].
  - rewrite Hcode. eauto.
  - destruct (individual !! "code") as [[]|]; try done; rewrite Hl; eauto.
  - destruct (individual !! "code") as [[]|]; try done; rewrite Hl; simpl;
      rewrite Hw; eauto.
  - destruct (individual !! "code") as [[]|]; try done; rewrite Hl; simpl;
      rewrite Hw; unfold classify; (destruct (decide _); [done|]); eauto.
  - destruct (read_objective_cases individual out)
      as [(obj & Hobj & _)|(ind0 & e & Hr & Hatt & _)]; [congruence|].
    destruct (individual !! "code") as [[]|]; try done; rewrite Hl; simpl;
      rewrite Hw; unfold classify; (destruct (decide _); [|done]);
      rewrite Hr; eauto.
  - destruct (read_objective_cases individual out)
      as [(obj' & Hobj & Hpos & _)|(ind0 & e & Hr & Hatt & _)]; [congruence|].
    destruct (individual !! "code") as [[]|]; try done; rewrite Hl; simpl;
      rewrite Hw; unfold classify; (destruct (decide _); [|done]);
      rewrite Hr; eauto.
Qed.

(** Every evaluation is a failure of one of the listed kinds or a
    success with a positive objective. *)
Lemma evaluated_cases response_id individual :
  has_code individual →
  (∃ msg, failure E h response_id individual msg)
  ∨ (∃ process stdout_str obj,
       individual !! "code" ≠ Some VNone ∧
       launch_result h individual response_id = Ok process ∧
       communicate h process = Exited stdout_str ∧
       filter_traceback E stdout_str = "" ∧
       parse_objective E stdout_str = Some obj ∧ ltb zero obj = true ∧
       evaluated E h response_id individual = success_with obj individual).
Proof.
  intros [code Hcode].
  destruct (decide (code = VNone)) as [->|Hnn].
  { left. eexists. by apply null_code. }
  assert (Hc : individual !! "code" ≠ Some VNone) by congruence.
  destruct (launch_result h individual response_id) as [process|e] eqn:Hl.
  2: { left. eexists. by eapply launch_exception. }
  destruct (communicate h process) as [out|msg] eqn:Hw.
  2: { left. eexists. by eapply timeout. }
  destruct (decide (filter_traceback E out = "")) as [Htb|Htb].
  2: { left. eexists. by eapply runtime_traceback. }
  destruct (read_objective_cases individual out)
    as [(obj & Hobj & Hpos & Hr)|(ind0 & e & Hr & Hatt & [Hp|(obj & Hp & Hneg)])].
  - right. exists process, out, obj. repeat split; try done.
    unfold evaluated, after_launch, after_wait. rewrite Hcode.
    destruct code; try done; rewrite Hl; simpl; rewrite Hw; unfold classify;
      (destruct (decide _); [|done]); by rewrite Hr.
  - left. eexists. by eapply malformed_output.
  - left. eexists. by eapply nonpositive_objective.
Qed.

Lemma invalid_scored msg individual : invalid_with msg individual → scored individual.
Proof. intros (? & ? & ? & ?). unfold scored. naive_solver. Qed.

Lemma success_scored obj individual :
  ltb zero obj = true → scored (success_with obj individual).
Proof.
  intros Hpos. unfold scored, success_with. simplify_map_eq.
  repeat split; eauto using positive_not_nan.
Qed.

Lemma evaluated_scored response_id individual :
  has_code individual → scored (evaluated E h response_id individual).
Proof.
  intros Hc. destruct (evaluated_cases response_id individual Hc)
    as [[msg Hf]|(p & out & obj & _ & _ & _ & _ & _ & Hpos & ->)].
  - apply failure_evaluated in Hf as (ind0 & _ & ->).
    eapply invalid_scored, mark_invalid_invalid.
  - by apply success_scored.
Qed.

(** the evaluation writes no field other than its four *)
Lemma evaluated_other response_id individual k :
  has_code individual → k ∉ evaluation_keys →
  evaluated E h response_id individual !! k = individual !! k.
Proof.
  intros Hc Hk. destruct (evaluated_cases response_id individual Hc)
    as [[msg Hf]|(p & out & obj & _ & _ & _ & _ & _ & Hpos & ->)].
  - apply failure_evaluated in Hf as (ind0 & Hatt & ->).
    rewrite mark_invalid_other by done. by apply attempt_other.
  - by apply success_other.
Qed.

End ScoringFacts.

(** ** The state after an evaluation *)

Section StateFacts.

Variable E : Externals.
Variable h : Harness.

Lemma same_bookkeeping_refl s : same_bookkeeping s s.
Proof. by repeat split. Qed.

Lemma same_bookkeeping_trans s1 s2 s3 :
  same_bookkeeping s1 s2 → same_bookkeeping s2 s3 → same_bookkeeping s1 s3.
Proof. unfold same_bookkeeping. intuition congruence. Qed.

Lemma emit_all_spec evs : ∀ s,
  same_bookkeeping s (fold_left (λ s e, emit e s) evs s) ∧
  function_evals (fold_left (λ s e, emit e s) evs s) = function_evals s ∧
  events (fold_left (λ s e, emit e s) evs s) = reverse evs ++ events s.
Proof.
  induction evs as [|e evs IH]; intros s; [by repeat split|].
  destruct (IH (emit e s)) as (Hb & Hf & He). cbn [fold_left].
  split; [|split].
  - eapply same_bookkeeping_trans; [|exact Hb]. by repeat split.
  - by rewrite Hf.
  - rewrite He, reverse_cons. by rewrite <- app_assoc.
Qed.

Lemma wait_state_spec l : ∀ s,
  same_bookkeeping s (wait_state h l s) ∧
  function_evals (wait_state h l s) = function_evals s ∧
  events (wait_state h l s) = reverse (mjoin (wait_events h <$> l)) ++ events s.
Proof.
  unfold wait_state.
  induction l as [|entry l IH]; intros s; [by repeat split|].
  cbn [fold_left fmap list_fmap mjoin list_join].
  destruct (IH (wait_step h entry s)) as (Hb & Hf & He).
  destruct (emit_all_spec (wait_events h entry) s) as (Hb1 & Hf1 & He1).
  fold (wait_step h entry s) in Hb1, Hf1, He1.
  split; [|split].
  - by eapply same_bookkeeping_trans.
  - by rewrite Hf.
  - rewrite He, He1, reverse_app. by rewrite <- app_assoc.
Qed.

Lemma launch_step_spec k individual s :
  same_bookkeeping s (launch_step h k individual s) ∧
  function_evals (launch_step h k individual s) =
    function_evals s + (if submitted individual then 1 else 0) ∧
  events (launch_step h k individual s) = reverse (launch_events h k individual) ++ events s.
Proof.
  unfold launch_step, launch_events, submitted.
  destruct (individual !! "code") as [[]|]; simpl;
    try destruct (started h individual k); repeat split; simpl; lia.
Qed.

Lemma launch_state_spec l : ∀ k s,
  same_bookkeeping s (launch_state h k l s) ∧
  function_evals (launch_state h k l s) =
    function_evals s + length (filter (λ x, submitted x = true) l) ∧
  events (launch_state h k l s) =
    reverse (mjoin (imap (λ i x, launch_events h (k + i) x) l)) ++ events s.
Proof.
  induction l as [|individual l IH]; intros k s.
  { repeat split. simpl. lia. }
  cbn [launch_state imap mjoin list_join].
  destruct (IH (S k) (launch_step h k individual s)) as (Hb & Hf & He).
  destruct (launch_step_spec k individual s) as (Hb1 & Hf1 & He1).
  split; [|split].
  - by eapply same_bookkeeping_trans.
  - rewrite Hf, Hf1, filter_cons.
    destruct (decide (submitted individual = true)) as [Hs|Hs].
    + rewrite Hs. simpl. lia.
    + apply not_true_is_false in Hs. rewrite Hs. lia.
  - rewrite He, He1, reverse_app, Nat.add_0_r, <- app_assoc.
    do 3 f_equal. apply imap_ext. intros i x _. simpl. f_equal. lia.
Qed.

Lemma take_imap {A B : Type} (l : list A) : ∀ (f : nat → A → B) n,
  take n (imap f l) = imap f (take n l).
Proof.
  induction l as [|x l IH]; intros f n; [by destruct n|].
  destruct n as [|n]; [done|]. cbn [imap take]. by rewrite IH.
Qed.

(** the state that the second loop ends in is that after the rounds it
    gets to *)
Lemma wait_outcome_reach l : ∀ s,
  (wait_outcome h l s).1 = wait_state h (take (reach h l) l) s.
Proof.
  induction l as [|entry l IH]; intros s; [done|].
  cbn [wait_outcome reach]. destruct (unreadable h entry); [done|].
  cbn [take]. by rewrite IH.
Qed.

Lemma reach_readable l :
  Forall (λ entry, unreadable h entry = None) l → reach h l = length l.
Proof.
  induction 1 as [|entry l Hr _ IH]; [done|].
  cbn [reach length]. by rewrite Hr, IH.
Qed.

Lemma reach_unreadable before entry rest e :
  Forall (λ entry, unreadable h entry = None) before →
  unreadable h entry = Some e →
  reach h (before ++ entry :: rest) = S (length before).
Proof.
  induction 1 as [|x before Hr _ IH]; intros He; cbn [app reach length].
  - by rewrite He.
  - by rewrite Hr, IH.
Qed.

(** the state after a call of [evaluate_population], however it ends *)
Lemma evaluate_population_run_state population s :
  let s' := (wait_outcome h (imap (after_launch h) population)
               (launch_state h 0 population s)).1 in
  same_bookkeeping s s' ∧
  function_evals s' =
    function_evals s + length (filter (λ x, submitted x = true) population) ∧
  events s' = reverse (run_events h population) ++ events s.
Proof.
  intros s'. unfold s'. rewrite wait_outcome_reach, take_imap.
  destruct (wait_state_spec
              (imap (after_launch h)
                 (take (reach h (imap (after_launch h) population)) population))
              (launch_state h 0 population s)) as (Hb & Hf & He).
  destruct (launch_state_spec population 0 s) as (Hb1 & Hf1 & He1).
  split; [|split].
  - by eapply same_bookkeeping_trans.
  - by rewrite Hf.
  - rewrite He, He1. unfold run_events. rewrite reverse_app, <- app_assoc. done.
Qed.

(** the events of the whole evaluation, oldest first *)
Lemma evaluate_population_state population s :
  let s' := wait_state h (imap (after_launch h) population)
              (launch_state h 0 population s) in
  same_bookkeeping s s' ∧
  function_evals s' =
    function_evals s + length (filter (λ x, submitted x = true) population) ∧
  events s' =
    reverse (mjoin (imap (launch_events h) population)
         ++ mjoin (wait_events h <$> imap (after_launch h) population))
    ++ events s.
Proof.
  intros s'. unfold s'.
  destruct (wait_state_spec (imap (after_launch h) population)
              (launch_state h 0 population s)) as (Hb & Hf & He).
  destruct (launch_state_spec population 0 s) as (Hb1 & Hf1 & He1).
  split; [|split].
  - by eapply same_bookkeeping_trans.
  - by rewrite Hf.
  - rewrite He, He1, reverse_app, <- app_assoc. done.
Qed.

End StateFacts.

(** ** Events of an evaluation *)

Section EventFacts.

Variable E : Externals.
Variable h : Harness.

Lemma elem_of_join_imap {A B : Type} (f : nat → A → list B) (l : list A) (y : B) :
  y ∈ mjoin (imap f l) ↔ ∃ i x, l !! i = Some x ∧ y ∈ f i x.
Proof.
  rewrite list_elem_of_join. split.
  - intros (ys & Hy & Hys). apply elem_of_lookup_imap in Hys as (i & x & -> & Hx).
    eauto.
  - intros (i & x & Hx & Hy). exists (f i x). split; [done|].
    by apply elem_of_lookup_imap_2.
Qed.

Lemma launch_events_elem response_id individual e :
  e ∈ launch_events h response_id individual →
  e = EvLaunch response_id ∧
  individual !! "code" ≠ Some VNone ∧
  started h individual response_id = true.
Proof.
  unfold launch_events, submitted.
  destruct (individual !! "code") as [[]|]; simpl;
    try (by intros ?%elem_of_nil);
    (destruct (started h individual response_id); [|by intros ?%elem_of_nil]);
    intros ->%list_elem_of_singleton; done.
Qed.

Lemma launch_events_launched response_id individual :
  individual !! "code" ≠ Some VNone → has_code individual →
  started h individual response_id = true →
  EvLaunch response_id ∈ launch_events h response_id individual.
Proof.
  intros Hn [code Hcode] Hs. unfold launch_events, submitted. rewrite Hcode, Hs.
  destruct code; try done; simpl; by apply list_elem_of_singleton.
Qed.

Lemma wait_events_elem response_id individual e :
  e ∈ wait_events h (after_launch h response_id individual) →
  individual !! "code" ≠ Some VNone ∧
  launch_result h individual response_id = Ok response_id ∧
  (e = EvCommunicate response_id wait_timeout ∨
   e = EvKill response_id ∧ ∃ msg, communicate h response_id = TimedOut msg).
Proof.
  unfold wait_events, after_launch.
  destruct (individual !! "code") as [code|] eqn:Hcode.
  - destruct code; try (by intros ?%elem_of_nil);
      destruct (launch_result h individual response_id) as [p|err] eqn:Hl; simpl;
      try (by intros ?%elem_of_nil);
      destruct (launch_result_process h _ _ _ Hl) as [-> _];
      destruct (communicate h response_id) as [out|msg];
      rewrite ?elem_of_cons; intros He; repeat split; try done;
      destruct He as [->|He]; eauto; try (by apply elem_of_nil in He);
      destruct He as [->|He]; eauto; by apply elem_of_nil in He.
  - destruct (launch_result h individual response_id) as [p|err] eqn:Hl; simpl;
      [|by intros ?%elem_of_nil].
    destruct (launch_result_process h _ _ _ Hl) as [-> _].
    destruct (communicate h response_id) as [out|msg];
      rewrite ?elem_of_cons; intros He; repeat split; try done;
      destruct He as [->|He]; eauto; try (by apply elem_of_nil in He);
      destruct He as [->|He]; eauto; by apply elem_of_nil in He.
Qed.

(** Every event of a call is a launch of a started process, or a wait
    or a kill in a round that the second loop gets to, on a process for
    which [run_code] returned. *)
Lemma run_events_elem population e :
  e ∈ run_events h population →
  ∃ response_id individual,
    population !! response_id = Some individual ∧
    individual !! "code" ≠ Some VNone ∧
    started h individual response_id = true ∧
    (e = EvLaunch response_id
     ∨ launch_result h individual response_id = Ok response_id ∧
       response_id < reach h (imap (after_launch h) population) ∧
       (e = EvCommunicate response_id wait_timeout ∨
        e = EvKill response_id ∧ ∃ msg, communicate h response_id = TimedOut msg)).
Proof.
  unfold run_events. rewrite elem_of_app, fmap_imap.
  rewrite !elem_of_join_imap. intros [(i & x & Hx & He)|(i & x & Hx & He)].
  - apply launch_events_elem in He as (-> & ? & ?). exists i, x. eauto.
  - apply lookup_take_Some in Hx as [Hx Hlt].
    apply wait_events_elem in He as (? & Hl & ?). exists i, x.
    split_and!; try done; [by eapply launch_result_started|]. right. eauto.
Qed.

(** When every capture can be read, the events of the call are those of
    an evaluation that runs to its end. *)
Lemma run_events_readable population :
  readable h population → run_events h population = evaluation_events h population.
Proof.
  intros Hr. unfold run_events, evaluation_events.
  rewrite reach_readable by done. rewrite length_imap.
  by rewrite firstn_all.
Qed.

End EventFacts.

(** ** The Population Evaluator *)

Section Evaluator.

Variable E : Externals.
Variable h : Harness.

Lemma unreadable_not_readable population k x e :
  population !! k = Some x →
  unreadable h (after_launch h k x) = Some e →
  ¬ readable h population.
Proof.
  intros Hk He Hr. unfold readable in Hr.
  eapply (Forall_lookup_1 _ _ k (after_launch h k x)) in Hr.
  - congruence.
  - by rewrite list_lookup_imap, Hk.
Qed.

(** the second loop does not get past a capture that cannot be read *)
Lemma reach_le l : ∀ k entry e,
  l !! k = Some entry → unreadable h entry = Some e → reach h l ≤ S k.
Proof.
  induction l as [|x l IH]; intros k entry e Hk He; [done|].
  cbn [reach]. destruct (unreadable h x) eqn:Hx; [lia|].
  destruct k as [|k]; [simpl in Hk; congruence|].
  apply le_n_S. by eapply IH.
Qed.

(** A call of [evaluate_population] on dicts with a [code] field: the
    state it ends in, and how it ends. *)
Lemma evaluate_population_run population s :
  Forall has_code population →
  ∃ s' r,
    evaluate_population E h population s = (s', r) ∧
    same_bookkeeping s s' ∧
    function_evals s' =
      function_evals s + length (filter (λ x, submitted x = true) population) ∧
    events s' = reverse (run_events h population) ++ events s ∧
    (readable h population ∧ r = Ok (imap (evaluated E h) population)
     ∨ ∃ k x e,
         population !! k = Some x ∧
         unreadable h (after_launch h k x) = Some e ∧
         reach h (imap (after_launch h) population) = S k ∧
         r = Raise e).
Proof.
  intros Hall. rewrite evaluate_population_outcome by done.
  do 2 eexists. split; [done|].
  destruct (evaluate_population_run_state h population s) as (Hb & Hf & He).
  split_and!; try done.
  destruct (wait_outcome_cases h (imap (after_launch h) population)
              (launch_state h 0 population s))
    as [[Hr ->]|(before & entry & rest & e & Heq & Hbefore & Hentry & ->)]; simpl.
  - by left.
  - right.
    assert (Hk : imap (after_launch h) population !! length before = Some entry)
      by (rewrite Heq; by apply list_lookup_middle).
    rewrite list_lookup_imap in Hk.
    destruct (population !! length before) as [x|] eqn:Hx; [|done].
    injection Hk as <-. exists (length before), x, e. split_and!; try done.
    rewrite Heq. by eapply reach_unreadable.
Qed.

Lemma evaluate_population_returns population s :
  Forall has_code population →
  readable h population →
  ∃ s', evaluate_population E h population s
          = (s', Ok (imap (evaluated E h) population)) ∧
        same_bookkeeping s s' ∧
        function_evals s' =
          function_evals s + length (filter (λ x, submitted x = true) population) ∧
        events s' = reverse (evaluation_events h population) ++ events s.
Proof.
  intros Hall Hr. eexists. split; [by apply evaluate_population_eq|].
  apply evaluate_population_state.
Qed.

Lemma submitted_code_not_null population :
  Forall has_code population →
  filter (λ x, submitted x = true) population = filter code_not_null population.
Proof.
  induction 1 as [|x l [code Hcode] Hl IH]; [done|].
  rewrite !filter_cons, IH.
  destruct (decide (submitted x = true)) as [Hs|Hs],
           (decide (code_not_null x)) as [Hn|Hn]; try done; exfalso;
    unfold submitted, code_not_null in *; rewrite Hcode in *;
    destruct code; try done; by apply Hn.
Qed.

Lemma evaluated_all_scored population :
  Forall has_code population → Forall scored (imap (evaluated E h) population).
Proof.
  intros Hall. apply Forall_lookup. intros j x. rewrite list_lookup_imap.
  destruct (population !! j) as [y|] eqn:Hj; [|done]. intros [= <-].
  apply evaluated_scored. by eapply Forall_lookup_1.
Qed.

(** C8. For a batch of individuals (dicts with a [code] field) whose
    captures can all be read, [evaluate_population] returns a
    population of the same length in which slot [i] holds the
    evaluation of the input's slot [i]: the same individual in every
    field other than the four evaluation fields, with objective,
    fitness and success flag set. When the capture of some finished run
    cannot be read, [evaluate_population] raises and returns no
    population at all. *)
Theorem evaluate_population_index_aligned population s :
  Forall has_code population →
  (readable h population →
   ∃ s' population',
     evaluate_population E h population s = (s', Ok population') ∧
     length population' = length population ∧
     ∀ i individual, population !! i = Some individual →
       ∃ individual',
         population' !! i = Some individual' ∧
         individual' = evaluated E h i individual ∧
         scored individual' ∧
         ∀ k, k ∉ evaluation_keys → individual' !! k = individual !! k) ∧
  (∀ k x e, population !! k = Some x →
     unreadable h (after_launch h k x) = Some e →
     ∃ s' e', evaluate_population E h population s = (s', Raise e')).
Proof.
  intros Hall. split.
  - intros Hr.
    destruct (evaluate_population_returns population s Hall Hr) as (s' & Heq & _).
    exists s', (imap (evaluated E h) population). split; [done|].
    split; [apply length_imap|].
    intros i individual Hi. exists (evaluated E h i individual).
    assert (Hc : has_code individual) by (by eapply Forall_lookup_1).
    rewrite list_lookup_imap, Hi. repeat split.
    + by apply evaluated_scored.
    + by apply evaluated_scored.
    + by apply evaluated_scored.
    + intros k Hk. by apply evaluated_other.
  - intros k x e Hk He.
    destruct (evaluate_population_run population s Hall)
      as (s' & r & Heq & _ & _ & _ & [[Hr _]|(k' & x' & e' & _ & _ & _ & ->)]).
    + by destruct (unreadable_not_readable population k x e).
    + eauto.
Qed.

(** C7. Each listed failure path of one individual (null code, launch
    exception, timeout, traceback in the capture, malformed or
    non-positive objective line) is recovered when every capture can be
    read: the individual is left with [exec_success = False],
    [obj = inf], [fitness = 0] and the message of the failure, and the
    evaluation returns the whole population, every slot scored. The one
    failure that is not recovered is a finished run whose capture
    cannot be read: then [evaluate_population] raises the exception of
    the read. *)
Theorem failure_marks_invalid population s i individual msg :
  Forall has_code population →
  population !! i = Some individual →
  failure E h i individual msg →
  (readable h population ∧
   ∃ s' population' individual',
     evaluate_population E h population s = (s', Ok population') ∧
     population' !! i = Some individual' ∧
     invalid_with msg individual' ∧
     length population' = length population ∧
     Forall scored population')
  ∨ (∃ s' k x e,
       population !! k = Some x ∧
       unreadable h (after_launch h k x) = Some e ∧
       evaluate_population E h population s = (s', Raise e)).
Proof.
  intros Hall Hi Hf.
  destruct (evaluate_population_run population s Hall)
    as (s' & r & Heq & _ & _ & _ & [[Hr ->]|(k & x & e & Hk & He & _ & ->)]).
  - left. split; [done|].
    exists s', (imap (evaluated E h) population), (evaluated E h i individual).
    split; [done|]. split; [by rewrite list_lookup_imap, Hi|].
    split; [|split; [apply length_imap|by apply evaluated_all_scored]].
    apply failure_evaluated in Hf as (ind0 & _ & ->). apply mark_invalid_invalid.
  - right. exists s', k, x, e. done.
Qed.

(** C2, as the code has it. For an individual whose code is null, no
    process is launched or waited on for its slot, and the evaluation
    counter is not incremented for it: the counter grows by the number
    of individuals of the batch whose code is not null. The evaluation
    returns when every capture can be read, and whenever it returns,
    the individual is marked invalid with "Invalid response!". *)
Theorem null_code_marked_not_counted population s i individual :
  Forall has_code population →
  population !! i = Some individual →
  individual !! "code" = Some VNone →
  ∃ s' r new,
    evaluate_population E h population s = (s', r) ∧
    events s' = new ++ events s ∧
    (EvLaunch i ∉ new) ∧ (EvCommunicate i wait_timeout ∉ new) ∧
    function_evals s' = function_evals s + length (filter code_not_null population) ∧
    (readable h population → ∃ population', r = Ok population') ∧
    (∀ population', r = Ok population' →
       population' !! i =
         Some (mark_invalid_individual individual "Invalid response!")).
Proof.
  intros Hall Hi Hnull.
  destruct (evaluate_population_run population s Hall)
    as (s' & r & Heq & _ & Hfe & Hev & Hr).
  exists s', r, (reverse (run_events h population)).
  split; [done|]. split; [done|].
  assert (Hno : ∀ e, e ∈ reverse (run_events h population) →
                     e ≠ EvLaunch i ∧ e ≠ EvCommunicate i wait_timeout).
  { intros e He. rewrite elem_of_reverse in He.
    apply run_events_elem in He
      as (j & x & Hj & Hcode & _ & [->|(_ & _ & [->|[-> _]])]);
      split; try done; intros [= ->]; congruence. }
  split_and!.
  - intros He. by destruct (Hno _ He).
  - intros He. by destruct (Hno _ He).
  - by rewrite Hfe, submitted_code_not_null.
  - intros Hread. destruct Hr as [[_ ->]|(k & x & e & Hk & He & _)]; [eauto|].
    by destruct (unreadable_not_readable population k x e).
  - intros population' ->.
    destruct Hr as [[_ [= ->]]|(k & x & e & _ & _ & _ & [=])].
    rewrite list_lookup_imap, Hi. simpl. f_equal.
    unfold evaluated, after_launch, after_wait. by rewrite Hnull.
Qed.

(** C3, as the code has it. The evaluation of fresh individuals (no
    failure message recorded beforehand) returns when every capture can
    be read, and whenever it returns, in every individual:
    [exec_success] is true exactly when no failure message is recorded;
    when it is true the objective is a float greater than 0, possibly
    infinite, and the fitness is [1 / obj]; and a finite positive
    objective implies [exec_success]. *)
Theorem exec_success_positive_objective population s :
  Forall has_code population →
  Forall (λ x, x !! "traceback_msg" = None) population →
  ∃ s' r,
    evaluate_population E h population s = (s', r) ∧
    (readable h population → ∃ population', r = Ok population') ∧
    ∀ population', r = Ok population' →
      ∀ i individual, population' !! i = Some individual →
        (individual !! "exec_success" = Some (VBool true) ↔
         individual !! "traceback_msg" = None) ∧
        (individual !! "exec_success" = Some (VBool true) →
         ∃ obj, individual !! "obj" = Some (VFloat obj) ∧ ltb zero obj = true ∧
                individual !! "fitness" = Some (VFloat (div one obj))) ∧
        ((∃ obj, individual !! "obj" = Some (VFloat obj) ∧
                 is_finite obj = true ∧ ltb zero obj = true) →
         individual !! "exec_success" = Some (VBool true)).
Proof.
  intros Hall Hfresh.
  destruct (evaluate_population_run population s Hall)
    as (s' & r & Heq & _ & _ & _ & Hr).
  exists s', r. split; [done|]. split.
  { intros Hread. destruct Hr as [[_ ->]|(k & x & e & Hk & He & _)]; [eauto|].
    by destruct (unreadable_not_readable population k x e). }
  intros population' ->.
  destruct Hr as [[_ [= ->]]|(k & x & e & _ & _ & _ & [=])].
  intros i individual. rewrite list_lookup_imap.
  destruct (population !! i) as [x|] eqn:Hi; [|done]. intros [= <-].
  assert (Hc : has_code x) by (by eapply Forall_lookup_1).
  assert (Hx : x !! "traceback_msg" = None)
    by (by eapply (Forall_lookup_1 (λ x, x !! "traceback_msg" = None))).
  destruct (evaluated_cases E h i x Hc)
    as [[msg Hf]|(p & out & obj & _ & _ & _ & _ & _ & Hpos & ->)].
  - apply failure_evaluated in Hf as (ind0 & _ & ->).
    destruct (mark_invalid_invalid ind0 msg) as (He & Ho & _ & Ht).
    rewrite He, Ho, Ht. repeat split; try done.
    intros (obj & [= <-] & Hfin & _). done.
  - unfold success_with. simplify_map_eq. repeat split; eauto.
Qed.

End Evaluator.

(** ** Waiting on the launched processes *)

Section Waiting.

Variable E : Externals.
Variable h : Harness.

Lemma filter_none {A : Type} (P : A → Prop) `{∀ x, Decision (P x)} (l : list A) :
  (∀ x, x ∈ l → ¬ P x) → filter P l = [].
Proof.
  induction l as [|x l IH]; intros Hl; [done|].
  rewrite filter_cons_False by (apply Hl; left).
  apply IH. intros y Hy. apply Hl. by right.
Qed.

Lemma filter_join_imap_none {A B : Type} (P : B → Prop) `{∀ x, Decision (P x)}
    (l : list A) : ∀ (f : nat → A → list B),
  (∀ j y, l !! j = Some y → filter P (f j y) = []) →
  filter P (mjoin (imap f l)) = [].
Proof.
  induction l as [|x l IH]; intros f Hf; [done|].
  cbn [imap mjoin list_join]. rewrite filter_app, (Hf 0 x) by done.
  apply IH. intros j y Hj. by apply (Hf (S j)).
Qed.

Lemma filter_join_imap_single {A B : Type} (P : B → Prop) `{∀ x, Decision (P x)}
    (l : list A) : ∀ (f : nat → A → list B) i x,
  l !! i = Some x →
  (∀ j y, l !! j = Some y → j ≠ i → filter P (f j y) = []) →
  filter P (mjoin (imap f l)) = filter P (f i x).
Proof.
  induction l as [|z l IH]; intros f i x Hi Hf; [done|].
  cbn [imap mjoin list_join]. rewrite filter_app. destruct i as [|i].
  - injection Hi as ->. rewrite filter_join_imap_none; [by rewrite app_nil_r|].
    intros j y Hj. by apply (Hf (S j)).
  - rewrite (Hf 0 z) by done. simpl.
    apply (IH (f ∘ S) i x); [done|].
    intros j y Hj Hne. apply (Hf (S j)); [done|lia].
Qed.

(** a launched process belongs to a slot whose code is not null and
    whose run got as far as starting the process *)
Lemma launched_slot population rid :
  EvLaunch rid ∈ run_events h population →
  ∃ individual, population !! rid = Some individual ∧
                individual !! "code" ≠ Some VNone ∧
                started h individual rid = true.
Proof.
  intros He. apply run_events_elem in He
    as (j & x & Hj & Hcode & Hs & [[= ->]|(_ & _ & [[=]|[[=] _]])]). eauto.
Qed.

Lemma launched_after_launch individual rid :
  individual !! "code" ≠ Some VNone →
  launch_result h individual rid = Ok rid →
  after_launch h rid individual = (individual, Some rid).
Proof.
  intros Hcode Hl. unfold after_launch. rewrite Hl.
  by destruct (individual !! "code") as [[]|].
Qed.

(** once the process is started, [run_code] returns unless
    [block_until_running] raises *)
Lemma started_running individual rid :
  started h individual rid = true →
  block_until_running h rid = None →
  launch_result h individual rid = Ok rid.
Proof.
  intros Hs Hb. destruct (launch_result h individual rid) as [p|e] eqn:Hl.
  - by apply launch_result_process in Hl as [-> _].
  - apply started_raise in Hl; [congruence|done].
Qed.

Lemma started_not_running individual rid :
  started h individual rid = true →
  block_until_running h rid ≠ None →
  ∃ e, launch_result h individual rid = Raise e.
Proof.
  intros Hs Hb. destruct (block_until_running h rid) as [e|] eqn:He; [|done].
  exists e. by apply started_raise.
Qed.

(** the waits of a call on the process of one slot: one, with the
    deadline 20, when [run_code] returned for the slot and the second
    loop gets to it; none otherwise *)
Lemma waits_on population rid :
  filter (λ e, is_wait_on rid e = true) (run_events h population) =
  match population !! rid with
  | Some x =>
      match (after_launch h rid x).2 with
      | Some _ =>
          if decide (rid < reach h (imap (after_launch h) population))
          then [EvCommunicate rid 20] else []
      | None => []
      end
  | None => []
  end.
Proof.
  unfold run_events. rewrite filter_app, fmap_imap.
  rewrite filter_join_imap_none.
  2: { intros j y Hj. apply filter_none. intros e He.
       apply launch_events_elem in He as (-> & _). done. }
  set (n := reach h (imap (after_launch h) population)).
  assert (Hother : ∀ j y, j ≠ rid →
            filter (λ e, is_wait_on rid e = true)
              (wait_events h (after_launch h j y)) = []).
  { intros j y Hne. apply filter_none. intros e He.
    apply wait_events_elem in He as (_ & _ & [->|[-> _]]); simpl; [|done].
    rewrite bool_decide_eq_true. done. }
  destruct (take n population !! rid) as [x|] eqn:Hx.
  - rewrite (filter_join_imap_single _ (take n population) _ rid x Hx)
      by (intros j y _ Hne; by apply Hother).
    apply lookup_take_Some in Hx as [Hx Hlt]. rewrite Hx. simpl.
    destruct (after_launch h rid x) as [x' [p|]] eqn:Hal; simpl.
    + rewrite decide_True by done. unfold wait_events. simpl.
      assert (p = rid) as ->.
      { pose proof (wait_events_elem h rid x (EvCommunicate p wait_timeout)) as Hp.
        rewrite Hal in Hp. unfold wait_events in Hp. simpl in Hp.
        destruct Hp as (_ & _ & [[= ->]|[[=] _]]); [|done].
        destruct (communicate h p); rewrite !elem_of_cons; auto. }
      destruct (communicate h rid); simpl;
        rewrite filter_cons_True by (simpl; by rewrite bool_decide_eq_true);
        [done|]. by rewrite filter_cons_False by done.
    + done.
  - rewrite filter_join_imap_none.
    2: { intros j y Hj. apply Hother. intros ->. congruence. }
    destruct (population !! rid) as [x|] eqn:Hp; [|done].
    destruct (after_launch h rid x).2; [|done].
    rewrite decide_False; [done|]. intros Hlt.
    assert (take n population !! rid = Some x) by (by apply lookup_take_Some).
    congruence.
Qed.

(** C9. What a call of [evaluate_population] does with the processes it
    starts. Every wait has the deadline 20 and is on a process that was
    started; no process is waited on twice; a process is killed only
    after the wait on it ran out. When every capture can be read the
    call returns, and whenever it returns, every slot is scored, every
    process for which [run_code] returned was waited on once, and one
    whose wait ran out was killed and its individual marked invalid
    with the text of the timeout. Two kinds of started processes are
    never waited on nor killed: one for which [block_until_running]
    raised, and, when the capture of a finished run cannot be read,
    those of the later slots; in that case the call raises. *)
Theorem timeout_kills_and_marks population s :
  Forall has_code population →
  ∃ s' r new,
    evaluate_population E h population s = (s', r) ∧
    events s' = new ++ events s ∧
    (∀ rid t, EvCommunicate rid t ∈ new → t = 20 ∧ EvLaunch rid ∈ new) ∧
    (∀ rid, length (filter (λ e, is_wait_on rid e = true) new) ≤ 1) ∧
    (∀ rid, EvKill rid ∈ new →
       EvCommunicate rid 20 ∈ new ∧ ∃ msg, communicate h rid = TimedOut msg) ∧
    (readable h population → ∃ population', r = Ok population') ∧
    (∀ population', r = Ok population' →
       length population' = length population ∧
       Forall scored population' ∧
       ∀ rid, EvLaunch rid ∈ new → block_until_running h rid = None →
         filter (λ e, is_wait_on rid e = true) new = [EvCommunicate rid 20] ∧
         ∀ msg, communicate h rid = TimedOut msg →
           EvKill rid ∈ new ∧
           ∃ individual', population' !! rid = Some individual' ∧
                          invalid_with msg individual') ∧
    (∀ rid, EvLaunch rid ∈ new → block_until_running h rid ≠ None →
       filter (λ e, is_wait_on rid e = true) new = [] ∧ EvKill rid ∉ new) ∧
    (∀ k x e, population !! k = Some x →
       unreadable h (after_launch h k x) = Some e →
       (∃ e', r = Raise e') ∧
       ∀ rid, k < rid →
         filter (λ e, is_wait_on rid e = true) new = [] ∧ EvKill rid ∉ new).
Proof.
  intros Hall.
  destruct (evaluate_population_run E h population s Hall)
    as (s' & r & Heq & _ & _ & Hev & Hr).
  exists s', r, (reverse (run_events h population)).
  split; [done|]. split; [done|].
  assert (Hwait : ∀ rid, EvLaunch rid ∈ run_events h population →
            block_until_running h rid = None →
            rid < reach h (imap (after_launch h) population) →
            ∃ x, population !! rid = Some x ∧
                 after_launch h rid x = (x, Some rid) ∧
                 filter (λ e, is_wait_on rid e = true) (run_events h population)
                 = [EvCommunicate rid 20]).
  { intros rid (x & Hx & Hcode & Hs)%launched_slot Hb Hlt.
    exists x. split; [done|].
    assert (Hal : after_launch h rid x = (x, Some rid))
      by (apply launched_after_launch; [done|by apply started_running]).
    split; [done|]. rewrite waits_on, Hx, Hal. simpl. by rewrite decide_True. }
  assert (Hkill : ∀ rid, EvKill rid ∈ run_events h population →
            ∃ x msg, population !! rid = Some x ∧
                     launch_result h x rid = Ok rid ∧
                     rid < reach h (imap (after_launch h) population) ∧
                     communicate h rid = TimedOut msg).
  { intros rid He. apply run_events_elem in He
      as (j & x & Hj & _ & _ & [[=]|(Hl & Hlt & [[=]|[[= <-] [msg Hmsg]]])]).
    eauto 10. }
  assert (Hin : ∀ rid x, population !! rid = Some x →
            after_launch h rid x = (x, Some rid) →
            rid < reach h (imap (after_launch h) population) →
            ∀ e, e ∈ wait_events h (x, Some rid) → e ∈ run_events h population).
  { intros rid x Hx Hal Hlt e He. unfold run_events. apply elem_of_app. right.
    rewrite fmap_imap. apply elem_of_join_imap. exists rid, x. split.
    - by apply lookup_take_Some.
    - simpl. by rewrite Hal. }
  split_and!.
  - intros rid t He. rewrite elem_of_reverse in He.
    apply run_events_elem in He
      as (j & x & Hj & Hcode & Hs & [[=]|(_ & _ & [[= <- ->]|[[=] _]])]).
    split; [done|]. rewrite elem_of_reverse. unfold run_events.
    apply elem_of_app. left. apply elem_of_join_imap. exists rid, x.
    split; [done|]. apply launch_events_launched; [done| |done].
    by eapply Forall_lookup_1.
  - intros rid. rewrite filter_reverse, length_reverse, waits_on.
    destruct (population !! rid) as [x|]; [|simpl; lia].
    destruct (after_launch h rid x).2; [|simpl; lia].
    destruct (decide _); simpl; lia.
  - intros rid He. rewrite elem_of_reverse in He.
    destruct (Hkill rid He) as (x & msg & Hx & Hl & Hlt & Hmsg).
    split; [|eauto]. rewrite elem_of_reverse.
    assert (Hc : x !! "code" ≠ Some VNone).
    { apply run_events_elem in He
        as (j & y & Hj & Hc & _ & [[=]|(_ & _ & [[=]|[[= <-] _]])]). congruence. }
    eapply (Hin rid x); [done|by apply launched_after_launch|done|].
    unfold wait_events. simpl. rewrite Hmsg. rewrite !elem_of_cons. auto.
  - intros Hread. destruct Hr as [[_ ->]|(k & x & e & Hk & He & _)]; [eauto|].
    by destruct (unreadable_not_readable h population k x e).
  - intros population' ->.
    destruct Hr as [[Hread [= ->]]|(k & x & e & _ & _ & _ & [=])].
    split; [apply length_imap|]. split; [by apply evaluated_all_scored|].
    intros rid Hrid Hb. rewrite elem_of_reverse in Hrid.
    assert (Hlt : rid < reach h (imap (after_launch h) population)).
    { rewrite reach_readable by done. rewrite length_imap.
      apply launched_slot in Hrid as (x & Hx & _). by eapply lookup_lt_Some. }
    destruct (Hwait rid Hrid Hb Hlt) as (x & Hx & Hal & Hfilter).
    split; [rewrite filter_reverse, Hfilter; apply reverse_singleton|].
    intros msg Hmsg. split.
    + rewrite elem_of_reverse. eapply (Hin rid x); try done.
      unfold wait_events. simpl. rewrite Hmsg. rewrite !elem_of_cons. auto.
    + exists (evaluated E h rid x). split; [by rewrite list_lookup_imap, Hx|].
      unfold evaluated. rewrite Hal. unfold after_wait. simpl. rewrite Hmsg.
      apply mark_invalid_invalid.
  - intros rid Hrid Hb. rewrite elem_of_reverse in Hrid.
    apply launched_slot in Hrid as (x & Hx & Hcode & Hs).
    destruct (started_not_running x rid Hs Hb) as [e Hl]. split.
    + rewrite filter_reverse, waits_on, Hx. unfold after_launch. rewrite Hl.
      by destruct (x !! "code") as [[]|].
    + rewrite elem_of_reverse. intros He.
      destruct (Hkill rid He) as (x' & msg & Hx' & Hl' & _). congruence.
  - intros k x e Hk He.
    destruct Hr as [[Hread _]|(k' & x' & e' & Hk' & He' & Hreach & ->)].
    { by destruct (unreadable_not_readable h population k x e). }
    split; [eauto|]. intros rid Hlt.
    assert (Hle : reach h (imap (after_launch h) population) ≤ S k).
    { eapply (reach_le h _ k (after_launch h k x) e); [|done].
      by rewrite list_lookup_imap, Hk. }
    split.
    + rewrite filter_reverse, waits_on.
      destruct (population !! rid) as [y|]; [|done].
      destruct (after_launch h rid y).2; [|done].
      rewrite decide_False by lia. done.
    + rewrite elem_of_reverse. intros Hkilled.
      destruct (Hkill rid Hkilled) as (y & msg & _ & _ & Hlt' & _). lia.
Qed.

End Waiting.

(** ** The evaluator on a concrete batch *)


Lemma sample_harness_readable outs population :
  readable (Sample.harness outs) population.
Proof.
  apply Forall_lookup. intros i entry _. unfold unreadable.
  destruct entry.2 as [p|]; [|done]. by destruct (communicate _ p).
Qed.

Lemma evaluate_population_index_aligned_witness :
  (∃ s' population',
     evaluate_population Sample.externals (Sample.harness Sample.outs) Sample.batch
       init_state = (s', Ok population') ∧
     length population' = length Sample.batch ∧
     ∀ i individual, Sample.batch !! i = Some individual →
       ∃ individual',
         population' !! i = Some individual' ∧
         individual' = evaluated Sample.externals (Sample.harness Sample.outs) i individual ∧
         scored individual' ∧
         ∀ k, k ∉ evaluation_keys → individual' !! k = individual !! k) ∧
  (∃ s' e',
     evaluate_population Sample.externals (Cases.garbled 0 Sample.pair_outs)
       Sample.pair init_state = (s', Raise e')).
Proof.
  split.
  - apply (evaluate_population_index_aligned Sample.externals
             (Sample.harness Sample.outs) Sample.batch init_state).
    + repeat constructor; eexists; vm_compute; reflexivity.
    + apply sample_harness_readable.
  - apply (evaluate_population_index_aligned Sample.externals
             (Cases.garbled 0 Sample.pair_outs) Sample.pair init_state)
      with (k := 0) (x := Sample.fresh 0 (VStr "a")) (e := Cases.decode_error).
    + repeat constructor; eexists; vm_compute; reflexivity.
    + reflexivity.
    + vm_compute. reflexivity.
Defined.

Lemma failure_marks_invalid_witness :
  (∃ s' population' individual',
     evaluate_population Sample.externals (Sample.harness Sample.outs) Sample.batch
       init_state = (s', Ok population') ∧
     population' !! 2 = Some individual' ∧
     invalid_with "timed out" individual' ∧
     length population' = length Sample.batch ∧
     Forall scored population') ∧
  (∃ s' k x e,
     Sample.batch !! k = Some x ∧
     unreadable (Cases.garbled 3 Sample.outs)
       (after_launch (Cases.garbled 3 Sample.outs) k x) = Some e ∧
     evaluate_population Sample.externals (Cases.garbled 3 Sample.outs) Sample.batch
       init_state = (s', Raise e)).
Proof.
  split.
  - destruct (failure_marks_invalid Sample.externals (Sample.harness Sample.outs)
                Sample.batch init_state 2 (Sample.fresh 2 (VStr "b")) "timed out")
      as [[_ Hok]|(s' & k & x & e & Hk & He & _)].
    + repeat constructor; eexists; vm_compute; reflexivity.
    + reflexivity.
    + apply (timeout _ _ _ _ 2 "timed out").
      * vm_compute. discriminate.
      * vm_compute. reflexivity.
      * reflexivity.
    + exact Hok.
    + destruct (unreadable_not_readable _ _ k x e Hk He).
      apply sample_harness_readable.
  - destruct (failure_marks_invalid Sample.externals (Cases.garbled 3 Sample.outs)
                Sample.batch init_state 2 (Sample.fresh 2 (VStr "b")) "timed out")
      as [[Hr _]|Hraise].
    + repeat constructor; eexists; vm_compute; reflexivity.
    + reflexivity.
    + apply (timeout _ _ _ _ 2 "timed out").
      * vm_compute. discriminate.
      * vm_compute. reflexivity.
      * reflexivity.
    + destruct (unreadable_not_readable (Cases.garbled 3 Sample.outs) Sample.batch
                  3 (Sample.fresh 3 (VStr "c")) Cases.decode_error);
        [reflexivity|vm_compute; reflexivity|exact Hr].
    + exact Hraise.
Defined.

Lemma null_code_marked_not_counted_witness :
  ∃ s' r new,
    evaluate_population Sample.externals (Sample.harness Sample.outs) Sample.batch
      init_state = (s', r) ∧
    events s' = new ++ events init_state ∧
    (EvLaunch 1 ∉ new) ∧ (EvCommunicate 1 wait_timeout ∉ new) ∧
    function_evals s' =
      function_evals init_state + length (filter code_not_null Sample.batch) ∧
    (readable (Sample.harness Sample.outs) Sample.batch →
     ∃ population', r = Ok population') ∧
    (∀ population', r = Ok population' →
       population' !! 1 =
         Some (mark_invalid_individual (Sample.fresh 1 VNone) "Invalid response!")).
Proof.
  apply (null_code_marked_not_counted Sample.externals (Sample.harness Sample.outs)
           Sample.batch init_state 1 (Sample.fresh 1 VNone)).
  - repeat constructor; eexists; vm_compute; reflexivity.
  - reflexivity.
  - vm_compute. reflexivity.
Defined.

(** C2 as stated does not hold: evaluating a batch made of one
    individual with null code leaves the evaluation counter where it
    was. *)
Lemma null_code_counted_counterexample :
  ¬ (∀ (E : Externals) (h : Harness) (individual : Individual) (s : G2A),
       individual !! "code" = Some VNone →
       ∃ s' population',
         evaluate_population E h [individual] s = (s', Ok population') ∧
         population' !! 0 =
           Some (mark_invalid_individual individual "Invalid response!") ∧
         function_evals s' = function_evals s + 1).
Proof.
  intros H.
  destruct (H Sample.externals (Sample.harness []) (Sample.fresh 0 VNone) init_state)
    as (s' & population' & Heq & _ & Hfe).
  - vm_compute. reflexivity.
  - apply (f_equal (λ r, function_evals r.1)) in Heq. simpl in Heq.
    rewrite <- Heq in Hfe. vm_compute in Hfe. discriminate.
Qed.

Lemma exec_success_positive_objective_witness :
  ∃ s' r,
    evaluate_population Sample.externals (Sample.harness Sample.outs) Sample.batch
      init_state = (s', r) ∧
    (readable (Sample.harness Sample.outs) Sample.batch →
     ∃ population', r = Ok population') ∧
    ∀ population', r = Ok population' →
      ∀ i individual, population' !! i = Some individual →
        (individual !! "exec_success" = Some (VBool true) ↔
         individual !! "traceback_msg" = None) ∧
        (individual !! "exec_success" = Some (VBool true) →
         ∃ obj, individual !! "obj" = Some (VFloat obj) ∧ ltb zero obj = true ∧
                individual !! "fitness" = Some (VFloat (div one obj))) ∧
        ((∃ obj, individual !! "obj" = Some (VFloat obj) ∧
                 is_finite obj = true ∧ ltb zero obj = true) →
         individual !! "exec_success" = Some (VBool true)).
Proof.
  apply (exec_success_positive_objective Sample.externals (Sample.harness Sample.outs)
           Sample.batch init_state).
  - repeat constructor; eexists; vm_compute; reflexivity.
  - repeat constructor; vm_compute; reflexivity.
Defined.

(** C3 as stated does not hold: a capture whose objective line is [inf]
    gives an individual with [exec_success = True] and an infinite
    objective. *)
Lemma exec_success_finite_counterexample :
  ¬ (∀ (E : Externals) (h : Harness) (population : list Individual) (s : G2A),
       Forall has_code population →
       Forall (λ x, x !! "traceback_msg" = None) population →
       ∃ s' population',
         evaluate_population E h population s = (s', Ok population') ∧
         ∀ i individual, population' !! i = Some individual →
           (individual !! "exec_success" = Some (VBool true) ↔
            (∃ obj, individual !! "obj" = Some (VFloat obj) ∧
                    is_finite obj = true ∧ ltb zero obj = true) ∧
            (individual !! "traceback_msg" = None ∨
             individual !! "traceback_msg" = Some (VStr ""))) ∧
           (individual !! "exec_success" = Some (VBool true) →
            ∃ obj, individual !! "obj" = Some (VFloat obj) ∧
                   individual !! "fitness" = Some (VFloat (div one obj)))).
Proof.
  intros H.
  destruct (H Sample.externals (Sample.harness [Exited Sample.capture_inf])
              [Sample.fresh 0 (VStr "c")] init_state)
    as (s' & population' & Heq & Hall).
  - repeat constructor; eexists; vm_compute; reflexivity.
  - repeat constructor; vm_compute; reflexivity.
  - assert (Hr : (evaluate_population Sample.externals
                   (Sample.harness [Exited Sample.capture_inf])
                   [Sample.fresh 0 (VStr "c")] init_state).2
                 = Ok [success_with inf (Sample.fresh 0 (VStr "c"))])
      by (vm_compute; reflexivity).
    rewrite Heq in Hr. simpl in Hr. injection Hr as ->.
    destruct (Hall 0 _ eq_refl) as [Hiff _].
    apply proj1 in Hiff.
    destruct Hiff as [(obj & Hobj & Hfin & _) _].
    + vm_compute. reflexivity.
    + unfold success_with in Hobj. by simplify_map_eq.
Qed.

Lemma timeout_kills_and_marks_witness :
  let h := Cases.stalled 0 Sample.outs in
  ∃ s' r new,
    evaluate_population Sample.externals h Sample.batch init_state = (s', r) ∧
    events s' = new ++ events init_state ∧
    (∀ rid t, EvCommunicate rid t ∈ new → t = 20 ∧ EvLaunch rid ∈ new) ∧
    (∀ rid, length (filter (λ e, is_wait_on rid e = true) new) ≤ 1) ∧
    (∀ rid, EvKill rid ∈ new →
       EvCommunicate rid 20 ∈ new ∧ ∃ msg, communicate h rid = TimedOut msg) ∧
    (readable h Sample.batch → ∃ population', r = Ok population') ∧
    (∀ population', r = Ok population' →
       length population' = length Sample.batch ∧
       Forall scored population' ∧
       ∀ rid, EvLaunch rid ∈ new → block_until_running h rid = None →
         filter (λ e, is_wait_on rid e = true) new = [EvCommunicate rid 20] ∧
         ∀ msg, communicate h rid = TimedOut msg →
           EvKill rid ∈ new ∧
           ∃ individual', population' !! rid = Some individual' ∧
                          invalid_with msg individual') ∧
    (∀ rid, EvLaunch rid ∈ new → block_until_running h rid ≠ None →
       filter (λ e, is_wait_on rid e = true) new = [] ∧ EvKill rid ∉ new) ∧
    (∀ k x e, Sample.batch !! k = Some x →
       unreadable h (after_launch h k x) = Some e →
       (∃ e', r = Raise e') ∧
       ∀ rid, k < rid →
         filter (λ e, is_wait_on rid e = true) new = [] ∧ EvKill rid ∉ new).
Proof.
  intros h.
  apply (timeout_kills_and_marks Sample.externals h Sample.batch init_state).
  repeat constructor; eexists; vm_compute; reflexivity.
Defined.

(** the run of the evaluator on the sample batch: slot 2 times out and is
    killed, slot 1 is never launched, four evaluations are counted *)
Example evaluate_population_sample :
  let r := evaluate_population Sample.externals (Sample.harness Sample.outs)
             Sample.batch init_state in
  function_evals r.1 = 4 ∧
  reverse (events r.1) =
    [EvLaunch 0; EvLaunch 2; EvLaunch 3; EvLaunch 4;
     EvCommunicate 0 20; EvCommunicate 2 20; EvKill 2;
     EvCommunicate 3 20; EvCommunicate 4 20].
Proof. vm_compute. done. Qed.

(** two runs that exit, the capture of the first of which cannot be
    read back: the call raises the exception of the read, no population
    is returned, and the process of the second slot, which was started,
    is never waited on *)
Example evaluate_population_unreadable :
  let r := evaluate_population Sample.externals (Cases.garbled 0 Sample.pair_outs)
             Sample.pair init_state in
  r.2 = Raise Cases.decode_error ∧
  function_evals r.1 = 2 ∧
  reverse (events r.1) = [EvLaunch 0; EvLaunch 1; EvCommunicate 0 20].
Proof. vm_compute. done. Qed.

(** two runs, the first of which is started but not seen running: the
    call returns with the first individual marked invalid, and the
    process of the first slot is neither waited on nor killed *)
Example evaluate_population_stalled :
  let r := evaluate_population Sample.externals (Cases.stalled 0 Sample.pair_outs)
             Sample.pair init_state in
  r.2 = Ok [mark_invalid_individual (Sample.fresh 0 (VStr "a"))
              (py_str_exn Cases.decode_error);
            success_with Sample.f10 (Sample.fresh 1 (VStr "b"))] ∧
  function_evals r.1 = 2 ∧
  reverse (events r.1) = [EvLaunch 0; EvLaunch 1; EvCommunicate 1 20].
Proof. vm_compute. done. Qed.

(** ** Bookkeeping at a generation boundary *)

Section Bookkeeping.

Local Ltac unfold_monad :=
  unfold bind, lift, get, modify, ret, getattr, raise, list_getitem, getitem.

Local Ltac best_cases :=
  let best' := fresh "best" in
  intros best' [= <-]; unfold recordable; intros; destruct_and?;
  repeat match goal with
         | H : is_Some (_ !! _), H' : _ !! _ = None |- _ =>
             rewrite H' in H; by destruct H
         end;
  try congruence; done.

Lemma list_comprehension_lookup {A B : Type} (f : A → result B) l ys :
  list_comprehension f l = Ok ys →
  length ys = length l ∧
  ∀ i x, l !! i = Some x → ∃ y, ys !! i = Some y ∧ f x = Ok y.
Proof.
  revert ys. induction l as [|x l IH]; intros ys.
  - intros [= <-]. split; [done|]. intros i x. by rewrite lookup_nil.
  - cbn [list_comprehension]. unfold rbind at 1.
    destruct (f x) as [y|] eqn:Hy; [|done]. unfold rbind.
    destruct (list_comprehension f l) as [ys'|]; [|done]. intros [= <-].
    destruct (IH ys' eq_refl) as [Hlen Hlook]. split; [simpl; lia|].
    intros [|i] z; simpl; [intros [= <-]; eauto|]. apply Hlook.
Qed.

Lemma list_comprehension_defined {A B : Type} (f : A → result B) l :
  Forall (λ x, ∃ y, f x = Ok y) l → ∃ ys, list_comprehension f l = Ok ys.
Proof.
  induction 1 as [|x l [y Hy] _ [ys IH]]; [by eexists|].
  exists (y :: ys). cbn [list_comprehension]. by rewrite Hy, IH.
Qed.

Lemma scored_obj individual :
  scored individual → ∃ obj, obj_of individual = Ok obj ∧ is_nan obj = false.
Proof.
  intros [(obj & Hobj & Hnan) _]. exists obj. split; [|done].
  unfold obj_of, getitem. by rewrite Hobj.
Qed.

Lemma scored_objs pop :
  Forall scored pop →
  ∃ objs, list_comprehension obj_of pop = Ok objs ∧
          Forall (λ y, is_nan y = false) objs.
Proof.
  intros Hall.
  destruct (list_comprehension_defined obj_of pop) as [objs Hobjs].
  { eapply Forall_impl; [exact Hall|]. intros x (obj & ? & _)%scored_obj. eauto. }
  exists objs. split; [done|].
  destruct (list_comprehension_lookup _ _ _ Hobjs) as [Hlen Hlook].
  apply Forall_lookup. intros i y Hy.
  destruct (pop !! i) as [x|] eqn:Hx.
  - destruct (Hlook i x Hx) as (y' & Hy' & Hobj). rewrite Hy in Hy'.
    injection Hy' as <-.
    destruct (scored_obj x) as (obj & Hobj' & Hnan); [by eapply Forall_lookup_1|].
    congruence.
  - apply lookup_ge_None in Hx. apply lookup_lt_Some in Hy. lia.
Qed.

Lemma np_argmin_go_bound l : ∀ best cur next,
  best < next → np_argmin_go best cur next l < next + length l.
Proof.
  induction l as [|y l IH]; intros best cur next Hlt; simpl; [lia|].
  destruct (is_nan cur); [lia|].
  destruct (is_nan y || ltb y cur).
  - specialize (IH next y (S next)). lia.
  - specialize (IH best cur (S next)). lia.
Qed.

Lemma np_argmin_bound l k : np_argmin l = Ok k → k < length l.
Proof.
  destruct l as [|x l]; [done|]. intros [= <-].
  pose proof (np_argmin_go_bound l 0 x 1). simpl. lia.
Qed.

(** the block [# update best overall], case by case *)
Lemma update_best_overall_keep pop m k s :
  ltb m (best_obj_overall s) = false →
  update_best_overall pop m k s = (s, Ok tt).
Proof. intros Hlt. unfold update_best_overall. unfold_monad. by rewrite Hlt. Qed.

Lemma update_best_overall_improve pop m k s :
  ltb m (best_obj_overall s) = true →
  ∃ s' r, update_best_overall pop m k s = (s', r) ∧
    best_obj_overall s' = m ∧
    iteration s' = iteration s ∧ function_evals s' = function_evals s ∧
    elitist s' = elitist s ∧ population s' = population s ∧ events s' = events s ∧
    (∀ best, pop !! k = Some best → is_Some (best !! "code") →
       best !! "description" = None →
       r = Raise (KeyError "description") ∧
       best_desc_overall s' = best_desc_overall s) ∧
    (∀ best, pop !! k = Some best → recordable best →
       r = Ok tt ∧ best_desc_overall s' = best !! "description").
Proof.
  intros Hlt. unfold update_best_overall. unfold_monad. rewrite Hlt. simpl.
  destruct (pop !! k) as [best|]; simpl;
    [|eexists _, _; split; [done|]; by split_and!].
  destruct (best !! "code") as [code|] eqn:Hcode; simpl;
    [|eexists _, _; split; [done|]; split_and!; try done;
      best_cases].
  destruct (best !! "description") as [description|] eqn:Hdesc; simpl;
    [|eexists _, _; split; [done|]; split_and!; try done;
      best_cases].
  destruct (best !! "code_path") as [code_path|] eqn:Hpath; simpl;
    eexists _, _; (split; [done|]); split_and!; try done;
      best_cases.
Qed.

(** the block [# update elitist], case by case *)
Lemma update_elitist_first pop m k best s :
  elitist s = None → pop !! k = Some best →
  update_elitist pop m k s = (set_elitist (Some best) s, Ok tt).
Proof.
  intros He Hk. unfold update_elitist. unfold_monad. rewrite He. simpl.
  by rewrite Hk.
Qed.

Lemma update_elitist_replace pop m k best e eobj s :
  elitist s = Some e → obj_of e = Ok eobj → ltb m eobj = true →
  pop !! k = Some best →
  update_elitist pop m k s = (set_elitist (Some best) s, Ok tt).
Proof.
  intros He Hobj Hlt Hk. unfold update_elitist. unfold_monad.
  rewrite He. simpl. rewrite Hobj. simpl.
  rewrite Hlt. by rewrite Hk.
Qed.

Lemma update_elitist_keep pop m k e eobj s :
  elitist s = Some e → obj_of e = Ok eobj → ltb m eobj = false →
  update_elitist pop m k s = (s, Ok tt).
Proof.
  intros He Hobj Hlt. unfold update_elitist. unfold_monad.
  rewrite He. simpl. rewrite Hobj. simpl.
  by rewrite Hlt.
Qed.

(** [update_iter] up to its two blocks *)
Lemma update_iter_unfold s pop objs m k :
  population s = Some pop →
  list_comprehension obj_of pop = Ok objs →
  py_min objs = Ok m → np_argmin objs = Ok k →
  update_iter s =
  match update_best_overall pop m k s with
  | (s1, Ok _) =>
      match update_elitist pop m k s1 with
      | (s2, Ok _) => (set_iteration (iteration s2 + 1) s2, Ok tt)
      | (s2, Raise e) => (s2, Raise e)
      end
  | (s1, Raise e) => (s1, Raise e)
  end.
Proof.
  intros Hpop Hobjs Hm Hk. unfold update_iter.
  unfold bind at 1. unfold getattr. rewrite Hpop.
  unfold bind at 1. unfold lift at 1. rewrite Hobjs.
  unfold bind at 1. unfold lift at 1. rewrite Hm.
  unfold bind at 1. unfold lift at 1. rewrite Hk.
  unfold bind at 1.
  destruct (update_best_overall pop m k s) as [s1 [[]|e]]; [|done].
  unfold bind at 1.
  destruct (update_elitist pop m k s1) as [s2 [[]|e]]; [|done].
  done.
Qed.

(** when the prelude of [update_iter] raises, the state is untouched *)
Lemma update_iter_prelude s s' r :
  update_iter s = (s', r) →
  (∃ pop objs m k, population s = Some pop ∧
     list_comprehension obj_of pop = Ok objs ∧
     py_min objs = Ok m ∧ np_argmin objs = Ok k)
  ∨ (s' = s ∧ ∃ e, r = Raise e).
Proof.
  unfold update_iter. unfold bind at 1. unfold getattr.
  destruct (population s) as [pop|] eqn:Hpop; [|intros [= <- <-]; eauto].
  unfold bind at 1. unfold lift at 1.
  destruct (list_comprehension obj_of pop) as [objs|] eqn:Hobjs;
    [|intros [= <- <-]; eauto].
  unfold bind at 1. unfold lift at 1.
  destruct (py_min objs) as [m|] eqn:Hm; [|intros [= <- <-]; eauto].
  unfold bind at 1. unfold lift at 1.
  destruct (np_argmin objs) as [k|] eqn:Hk; [|intros [= <- <-]; eauto].
  intros _. left. eauto 10.
Qed.

End Bookkeeping.

(** ** Computations that only read the state *)

Section ReadsOnly.

Lemma reads_only_ret {A : Type} (a : A) : reads_only (ret a).
Proof. done. Qed.

Lemma reads_only_raise {A : Type} e : reads_only (@raise A e).
Proof. done. Qed.

Lemma reads_only_lift {A : Type} (r : result A) : reads_only (lift r).
Proof. done. Qed.

Lemma reads_only_get : reads_only get.
Proof. done. Qed.

Lemma reads_only_getattr {A : Type} name (field : G2A → option A) :
  reads_only (getattr name field).
Proof. intros s. unfold getattr. by destruct (field s). Qed.

Lemma reads_only_assert cond msg : reads_only (py_assert cond msg).
Proof. by destruct cond. Qed.

Lemma reads_only_bind {A B : Type} (m : M A) (k : A → M B) :
  reads_only m → (∀ a, reads_only (k a)) → reads_only (bind m k).
Proof.
  intros Hm Hk s. unfold bind. specialize (Hm s).
  destruct (m s) as [s1 [a|e]]; simpl in *; subst; [apply Hk|done].
Qed.

Lemma reads_only_for_each {A B : Type} (body : A → B → M B) l :
  (∀ x acc, reads_only (body x acc)) → ∀ acc, reads_only (for_each body l acc).
Proof.
  intros Hbody. induction l as [|x l IH]; intros acc; simpl.
  - apply reads_only_ret.
  - apply reads_only_bind; [apply Hbody|apply IH].
Qed.

Lemma returns_ret {A : Type} (a : A) (P : A → Prop) : P a → returns (ret a) P.
Proof. intros Ha s s' a' [= _ <-]. done. Qed.

Lemma returns_raise {A : Type} e (P : A → Prop) : returns (raise e) P.
Proof. intros s s' a' [=]. Qed.

Lemma returns_bind {A B : Type} (m : M A) (k : A → M B) (P : A → Prop) (Q : B → Prop) :
  returns m P → (∀ a, P a → returns (k a) Q) → returns (bind m k) Q.
Proof.
  intros Hm Hk s s' b. unfold bind.
  destruct (m s) as [s1 [a|e]] eqn:Hms; [|done].
  intros Hka. eapply Hk; [|exact Hka]. by eapply Hm.
Qed.

Lemma returns_weaken {A : Type} (m : M A) (P Q : A → Prop) :
  returns m P → (∀ a, P a → Q a) → returns m Q.
Proof. intros Hm HPQ s s' a Hms. apply HPQ. by eapply Hm. Qed.

(** an invariant of the accumulator of a loop *)
Lemma returns_for_each {A B : Type} (body : A → B → M B) (I : B → Prop) l :
  (∀ x acc, x ∈ l → I acc → returns (body x acc) I) →
  ∀ acc, I acc → returns (for_each body l acc) I.
Proof.
  induction l as [|x l IH]; intros Hbody acc Hacc; simpl.
  - by apply returns_ret.
  - eapply returns_bind.
    + apply Hbody; [left|done].
    + intros acc' Hacc'. apply IH; [|done].
      intros y acc'' Hy. apply Hbody. by right.
Qed.

End ReadsOnly.

Ltac reads_only_tac :=
  repeat first
    [ match goal with |- ∀ _, _ => intro end
    | progress cbv beta
    | apply reads_only_ret | apply reads_only_raise | apply reads_only_lift
    | apply reads_only_get | apply reads_only_getattr | apply reads_only_assert
    | apply reads_only_for_each | apply reads_only_bind
    | match goal with
      | |- reads_only (match ?x with _ => _ end) => destruct x
      | |- reads_only ((match ?x with _ => _ end) _) => destruct x
      end ].

Section ReadsOnlyMethods.

Variable E : Externals.
Variable cfg : Config.
Variable W : World.

Lemma response_to_individual_reads response response_id file_name :
  reads_only (response_to_individual E response response_id file_name).
Proof. unfold response_to_individual. reads_only_tac. Qed.

Lemma responses_to_population_reads responses :
  reads_only (responses_to_population E responses).
Proof.
  unfold responses_to_population. reads_only_tac.
Qed.

Lemma random_select_reads pool : reads_only (random_select cfg W pool).
Proof. unfold random_select. reads_only_tac. Qed.

Lemma crossover_reads pool : reads_only (crossover E cfg W pool).
Proof.
  unfold crossover, system_and_user. reads_only_tac.
Qed.

Lemma mutate_reads pool : reads_only (mutate E cfg W pool).
Proof.
  unfold mutate, system_and_user. reads_only_tac.
Qed.

End ReadsOnlyMethods.

(** ** Stepping through a method *)

Section Steps.

Lemma bind_ok {A B : Type} (m : M A) (k : A → M B) s s1 a :
  m s = (s1, Ok a) → bind m k s = k a s1.
Proof. intros H. unfold bind. by rewrite H. Qed.

Lemma bind_raise {A B : Type} (m : M A) (k : A → M B) s s1 e :
  m s = (s1, Raise e) → bind m k s = (s1, Raise e).
Proof. intros H. unfold bind. by rewrite H. Qed.

Lemma reads_only_run {A : Type} (m : M A) s :
  reads_only m → m s = (s, (m s).2).
Proof. intros H. specialize (H s). destruct (m s). simpl in *. by subst. Qed.

End Steps.

(** ** Individuals as [response_to_individual] builds them *)

Section Constructed.

Variable E : Externals.

Lemma response_to_individual_fields response response_id file_name s s' individual :
  response_to_individual E response response_id file_name s = (s', Ok individual) →
  s' = s ∧ dom individual = constructor_keys ∧
  (∃ code, process_code E response = Some code ∧
           individual !! "code" = Some (VStr code)) ∧
  (∃ path, individual !! "stdout_filepath" = Some (VStr path)) ∧
  (∃ path, individual !! "code_path" = Some (VStr path)).
Proof.
  unfold response_to_individual, bind, get, lift, ret, constructor_keys.
  destruct (process_code E response) as [code|]; simpl; [|done].
  intros [= <- <-]. split; [done|]. split.
  - rewrite !dom_insert_L, dom_empty_L. set_solver.
  - split; [exists code; split; [done|]|split]; simplify_map_eq; eauto.
Qed.

(** [response_to_individual] returns exactly when the completion
    carries code *)
Lemma response_to_individual_returns response response_id file_name s :
  is_Some (process_code E response) ↔
  ∃ individual,
    response_to_individual E response response_id file_name s = (s, Ok individual).
Proof.
  unfold response_to_individual, bind, get, lift, ret. split.
  - intros [code ->]. simpl. eauto.
  - intros [individual H]. destruct (process_code E response); [eauto|done].
Qed.

Lemma constructed_facts individual :
  constructed E individual →
  dom individual = constructor_keys ∧
  has_code individual ∧ code_not_null individual ∧
  individual !! "description" = None ∧
  individual !! "traceback_msg" = None ∧
  is_Some (individual !! "code_path").
Proof.
  intros (response & rid & fn & s & s' & H).
  apply response_to_individual_fields
    in H as (_ & Hdom & (code & _ & Hcode) & _ & (path & Hpath)).
  split; [done|]. unfold has_code, code_not_null. rewrite Hcode, Hpath.
  split; [eauto|]. split; [done|].
  split; [|split; [|eauto]]; apply not_elem_of_dom; rewrite Hdom;
    unfold constructor_keys; set_unfold; intuition discriminate.
Qed.

Lemma response_to_individual_constructed response response_id file_name :
  returns (response_to_individual E response response_id file_name) (constructed E).
Proof. intros s s' individual H. unfold constructed. eauto 10. Qed.

Lemma responses_to_population_constructed responses :
  returns (responses_to_population E responses) (Forall (constructed E)).
Proof.
  unfold responses_to_population. apply returns_for_each; [|done].
  intros [rid response] acc _ Hacc.
  eapply returns_bind; [apply response_to_individual_constructed|].
  intros individual Hind. apply returns_ret.
  apply Forall_app. split; [done|]. by repeat constructor.
Qed.

(** the evaluation of a constructed individual still has its code and
    path and still has no description *)
Lemma evaluated_constructed h response_id individual :
  constructed E individual →
  let individual' := evaluated E h response_id individual in
  has_code individual' ∧ individual' !! "description" = None ∧
  is_Some (individual' !! "code_path") ∧ scored individual'.
Proof.
  intros (_ & Hc & _ & Hd & _ & Hp)%constructed_facts. simpl.
  rewrite !evaluated_other by (done || unfold evaluation_keys; set_solver).
  unfold has_code. rewrite evaluated_other by (done || unfold evaluation_keys; set_solver).
  split_and!; try done. by apply evaluated_scored.
Qed.

End Constructed.

(** ** The evaluation leaves the bookkeeping alone *)

Section KeepsBookkeeping.

Lemma reads_only_keeps {A : Type} (m : M A) : reads_only m → keeps_bookkeeping m.
Proof. intros H s. rewrite H. apply same_bookkeeping_refl. Qed.

Lemma keeps_bind {A B : Type} (m : M A) (k : A → M B) :
  keeps_bookkeeping m → (∀ a, keeps_bookkeeping (k a)) → keeps_bookkeeping (bind m k).
Proof.
  intros Hm Hk s. unfold bind. specialize (Hm s).
  destruct (m s) as [s1 [a|e]]; simpl in *; [|done].
  eapply same_bookkeeping_trans; [exact Hm|apply Hk].
Qed.

Lemma keeps_try_except {A : Type} (m : M A) (handler : exn → M A) :
  keeps_bookkeeping m → (∀ e, keeps_bookkeeping (handler e)) →
  keeps_bookkeeping (try_except m handler).
Proof.
  intros Hm Hh s. unfold try_except. specialize (Hm s).
  destruct (m s) as [s1 [a|e]]; simpl in *; [done|].
  eapply same_bookkeeping_trans; [exact Hm|apply Hh].
Qed.

Lemma keeps_for_each {A B : Type} (body : A → B → M B) l :
  (∀ x acc, keeps_bookkeeping (body x acc)) →
  ∀ acc, keeps_bookkeeping (for_each body l acc).
Proof.
  intros Hbody. induction l as [|x l IH]; intros acc; simpl.
  - apply reads_only_keeps, reads_only_ret.
  - apply keeps_bind; [apply Hbody|apply IH].
Qed.

Lemma keeps_emit e : keeps_bookkeeping (modify (emit e)).
Proof. intros s. by repeat split. Qed.

Lemma keeps_count : keeps_bookkeeping
                      (modify (λ s, set_function_evals (function_evals s + 1) s)).
Proof. intros s. by repeat split. Qed.

Local Ltac keeps_tac :=
  repeat first
    [ match goal with |- ∀ _, _ => intro end
    | progress cbv beta
    | apply keeps_emit | apply keeps_count
    | apply keeps_for_each | apply keeps_bind | apply keeps_try_except
    | apply reads_only_keeps; reads_only_tac; done
    | match goal with
      | |- keeps_bookkeeping (match ?x with _ => _ end) => destruct x
      | |- keeps_bookkeeping ((match ?x with _ => _ end) _) => destruct x
      end ].

Lemma run_code_keeps h individual response_id :
  keeps_bookkeeping (run_code h individual response_id).
Proof. unfold run_code. keeps_tac. Qed.

Lemma evaluate_population_keeps E h population :
  keeps_bookkeeping (evaluate_population E h population).
Proof.
  unfold evaluate_population. apply keeps_bind.
  - apply keeps_for_each. intros rid [pop runs]. unfold launch_one.
    keeps_tac; apply run_code_keeps.
  - intros [pop runs]. apply keeps_for_each. intros [rid run] acc.
    unfold collect_one. keeps_tac.
Qed.

End KeepsBookkeeping.

(** ** The best objective overall and the elitist *)

Section BestAndElitist.

Lemma update_elitist_cases pop m k s :
  (update_elitist pop m k s = (s, Ok tt) ∧
   ∃ e eobj, elitist s = Some e ∧ obj_of e = Ok eobj ∧ ltb m eobj = false)
  ∨ (∃ best, pop !! k = Some best ∧
       update_elitist pop m k s = (set_elitist (Some best) s, Ok tt) ∧
       (elitist s = None ∨
        ∃ e eobj, elitist s = Some e ∧ obj_of e = Ok eobj ∧ ltb m eobj = true))
  ∨ (∃ err, update_elitist pop m k s = (s, Raise err)).
Proof.
  destruct (elitist s) as [e|] eqn:He.
  - destruct (obj_of e) as [eobj|err] eqn:Hobj.
    + destruct (ltb m eobj) eqn:Hlt.
      * destruct (pop !! k) as [best|] eqn:Hk.
        -- right; left. exists best. split; [done|].
           split; [by eapply update_elitist_replace|]. eauto 10.
        -- right; right. unfold update_elitist, bind, get, lift, ret, list_getitem.
           rewrite He. simpl. rewrite Hobj. simpl. rewrite Hlt, Hk. eauto.
      * left. split; [by eapply update_elitist_keep|]. eauto.
    + right; right. unfold update_elitist, bind, get, lift, ret.
      rewrite He. simpl. rewrite Hobj. eauto.
  - destruct (pop !! k) as [best|] eqn:Hk.
    + right; left. exists best. split; [done|].
      split; [by eapply update_elitist_first|]. eauto.
    + right; right. unfold update_elitist, bind, get, lift, ret, list_getitem.
      rewrite He. simpl. rewrite Hk. eauto.
Qed.

Lemma update_elitist_best_obj pop m k s :
  best_obj_overall (update_elitist pop m k s).1 = best_obj_overall s ∧
  best_desc_overall (update_elitist pop m k s).1 = best_desc_overall s ∧
  population (update_elitist pop m k s).1 = population s.
Proof.
  destruct (update_elitist_cases pop m k s)
    as [[-> _]|[(best & _ & -> & _)|[err ->]]]; done.
Qed.

(** the best objective overall across one call of [update_iter] *)
Lemma update_iter_best_obj s s' r :
  update_iter s = (s', r) →
  best_obj_overall s' = best_obj_overall s
  ∨ ∃ pop m, population s = Some pop ∧ best_of_generation pop = Ok m ∧
             ltb m (best_obj_overall s) = true ∧ best_obj_overall s' = m.
Proof.
  intros Hrun.
  destruct (update_iter_prelude s s' r Hrun)
    as [(pop & objs & m & k & Hpop & Hobjs & Hm & Hk)|[-> _]]; [|by left].
  rewrite (update_iter_unfold s pop objs m k) in Hrun by done.
  destruct (ltb m (best_obj_overall s)) eqn:Hlt.
  - right. exists pop, m. split; [done|].
    split; [unfold best_of_generation; by rewrite Hobjs|]. split; [done|].
    destruct (update_best_overall_improve pop m k s Hlt)
      as (s1 & r1 & Heq & Hbest & _).
    rewrite Heq in Hrun. destruct r1 as [[]|e].
    + pose proof (update_elitist_best_obj pop m k s1) as (Hb & _).
      destruct (update_elitist pop m k s1) as [s2 [[]|e]];
        injection Hrun as <- <-; simpl in *; congruence.
    + injection Hrun as <- <-. done.
  - left. rewrite update_best_overall_keep in Hrun by done.
    pose proof (update_elitist_best_obj pop m k s) as (Hb & _).
    destruct (update_elitist pop m k s) as [s2 [[]|e]];
      injection Hrun as <- <-; simpl in *; congruence.
Qed.

Lemma update_iter_non_increasing s s' r :
  is_nan (best_obj_overall s) = false →
  update_iter s = (s', r) →
  leb (best_obj_overall s') (best_obj_overall s) = true ∧
  is_nan (best_obj_overall s') = false.
Proof.
  intros Hnan Hrun.
  destruct (update_iter_best_obj s s' r Hrun)
    as [->|(pop & m & _ & _ & Hlt & ->)].
  - split; [by apply leb_refl|done].
  - split; [by apply ltb_leb|by eapply ltb_nan_l].
Qed.

End BestAndElitist.

(** ** The best objective overall along a run *)

Section Monotone.

Variable E : Externals.
Variable cfg : Config.
Variable W : World.

Lemma keeps_non_increasing {A : Type} (m : M A) :
  keeps_bookkeeping m → non_increasing m.
Proof.
  intros Hm s s' r Hnan Hrun. destruct (Hm s) as (_ & _ & Hb & _).
  rewrite Hrun in Hb. simpl in Hb. rewrite Hb. split; [by apply leb_refl|done].
Qed.

Lemma non_increasing_bind {A B : Type} (m : M A) (k : A → M B) :
  non_increasing m → (∀ a, non_increasing (k a)) → non_increasing (bind m k).
Proof.
  intros Hm Hk s s' r Hnan. unfold bind.
  destruct (m s) as [s1 [a|e]] eqn:Hms.
  - intros Hka. destruct (Hm s s1 (Ok a) Hnan Hms) as [Hle1 Hnan1].
    destruct (Hk a s1 s' r Hnan1 Hka) as [Hle2 Hnan2].
    split; [by eapply leb_trans|done].
  - intros [= <- <-]. by eapply Hm.
Qed.

Lemma set_population_non_increasing pop : non_increasing (modify (set_population pop)).
Proof. intros s s' r Hnan [= <- <-]. simpl. split; [by apply leb_refl|done]. Qed.

Lemma update_iter_is_non_increasing : non_increasing update_iter.
Proof. intros s s' r. apply update_iter_non_increasing. Qed.

Lemma generation_non_increasing : non_increasing (generation E cfg W).
Proof.
  unfold generation.
  repeat first
    [ match goal with |- ∀ _, _ => intro end
    | apply update_iter_is_non_increasing
    | apply set_population_non_increasing
    | apply keeps_non_increasing, evaluate_population_keeps
    | apply keeps_non_increasing, reads_only_keeps, random_select_reads
    | apply keeps_non_increasing, reads_only_keeps, crossover_reads
    | apply keeps_non_increasing, reads_only_keeps, mutate_reads
    | apply keeps_non_increasing, reads_only_keeps; reads_only_tac; done
    | apply non_increasing_bind
    | match goal with
      | |- non_increasing (match ?x with _ => _ end) => destruct x
      end ].
Qed.

Lemma evolve_non_increasing fuel : ∀ s s' r,
  is_nan (best_obj_overall s) = false →
  evolve E cfg W fuel s = Some (s', r) →
  leb (best_obj_overall s') (best_obj_overall s) = true ∧
  is_nan (best_obj_overall s') = false.
Proof.
  assert (Hret : ∀ s s' r, is_nan (best_obj_overall s) = false →
                   evolve_return s = (s', r) →
                   leb (best_obj_overall s') (best_obj_overall s) = true ∧
                   is_nan (best_obj_overall s') = false).
  { apply keeps_non_increasing, reads_only_keeps.
    unfold evolve_return. reads_only_tac. }
  induction fuel as [|fuel IH]; intros s s' r Hnan; cbn [evolve];
    case_bool_decide; try done; try (intros [= Heq]; by eapply Hret).
  destruct (generation E cfg W s) as [s1 [[]|e]] eqn:Hgen.
  - intros Hrun.
    destruct (generation_non_increasing s s1 _ Hnan Hgen) as [Hle1 Hnan1].
    destruct (IH s1 s' r Hnan1 Hrun) as [Hle2 Hnan2].
    split; [by eapply leb_trans|done].
  - intros [= <- <-]. by eapply generation_non_increasing.
Qed.

End Monotone.

(** ** Generation 0 *)

Section Initialisation.

Variable E : Externals.
Variable cfg : Config.
Variable W : World.

(** the state in which [init_population] calls [update_iter] *)
Lemma init_population_cases s s' r :
  init_population E cfg W s = (s', r) →
  (same_bookkeeping s s' ∧ ∃ e, r = Raise e)
  ∨ (∃ batch s1 objs m k best code code_path,
       let pop := imap (evaluated E (harness_at W (iteration s))) batch in
       Forall (constructed E) batch ∧
       evaluate_population E (harness_at W (iteration s)) batch s = (s1, Ok pop) ∧
       same_bookkeeping s s1 ∧
       list_comprehension obj_of pop = Ok objs ∧
       Forall (λ y, is_nan y = false) objs ∧
       py_min objs = Ok m ∧ np_argmin objs = Ok k ∧
       pop !! k = Some best ∧
       best !! "code" = Some code ∧ best !! "code_path" = Some code_path ∧
       update_iter
         (set_population pop
            (set_best_code_path_overall code_path
               (set_best_code_overall code (set_best_obj_overall m s1))))
       = (s', r)).
Proof.
  unfold init_population. cbv zeta.
  set (responses := chat_completion W (pop_size cfg) _).
  pose proof (reads_only_run (responses_to_population E responses) s
                (responses_to_population_reads E responses)) as Hr.
  destruct ((responses_to_population E responses s).2) as [batch|e] eqn:Hbatch.
  2: { erewrite bind_raise by exact Hr. intros [= <- <-]. left.
       split; [apply same_bookkeeping_refl|eauto]. }
  assert (Hcons : Forall (constructed E) batch)
    by (by eapply (responses_to_population_constructed E responses s s)).
  assert (Hcode : Forall has_code batch).
  { eapply Forall_impl; [exact Hcons|]. by intros x (_ & ? & _)%constructed_facts. }
  erewrite bind_ok by exact Hr. erewrite bind_ok by done.
  destruct (evaluate_population_run E (harness_at W (iteration s)) batch s Hcode)
    as (s1 & r1 & Heval & Hsame & _ & _ & [[_ ->]|(k0 & x0 & e0 & _ & _ & _ & ->)]).
  2: { erewrite bind_raise by exact Heval. intros [= <- <-]. left. eauto. }
  erewrite bind_ok by exact Heval.
  set (pop := imap (evaluated E (harness_at W (iteration s))) batch) in *.
  assert (Hscored : Forall scored pop).
  { apply Forall_lookup. intros i x. unfold pop. rewrite list_lookup_imap.
    destruct (batch !! i) as [y|] eqn:Hy; [|done]. intros [= <-].
    apply evaluated_scored. by eapply Forall_lookup_1. }
  destruct (scored_objs pop Hscored) as (objs & Hobjs & Hnan).
  erewrite bind_ok by (unfold lift; by rewrite Hobjs).
  destruct (py_min objs) as [m|e] eqn:Hm.
  2: { erewrite bind_raise by done.
       intros [= <- <-]. left. eauto. }
  erewrite bind_ok by done.
  destruct (np_argmin objs) as [k|e] eqn:Hk.
  2: { erewrite bind_raise by done.
       intros [= <- <-]. left. eauto. }
  erewrite bind_ok by done.
  erewrite bind_ok by done.
  assert (∃ best, pop !! k = Some best) as [best Hbest].
  { apply lookup_lt_is_Some.
    destruct (list_comprehension_lookup _ _ _ Hobjs) as [<- _].
    by apply np_argmin_bound. }
  assert (∃ y, batch !! k = Some y ∧ best = evaluated E (harness_at W (iteration s)) k y)
    as (y & Hy & ->).
  { unfold pop in Hbest. rewrite list_lookup_imap in Hbest.
    destruct (batch !! k) as [y|]; [|done]. injection Hbest as <-. eauto. }
  destruct (evaluated_constructed E (harness_at W (iteration s)) k y)
    as ([code Hcodeb] & _ & [code_path Hpath] & _);
    [by eapply Forall_lookup_1|].
  erewrite bind_ok by (unfold lift, list_getitem; by rewrite Hbest).
  erewrite bind_ok by (unfold lift, getitem; by rewrite Hcodeb).
  erewrite bind_ok by done.
  erewrite bind_ok by (unfold lift, getitem; by rewrite Hpath).
  erewrite bind_ok by done. erewrite bind_ok by done.
  intros Hrun. right.
  exists batch, s1, objs, m, k, (evaluated E (harness_at W (iteration s)) k y),
    code, code_path.
  by split_and!.
Qed.

(** in the state reached there, the best of the generation is the best
    overall, so [update_iter] takes the elitist and changes nothing else *)
Lemma update_iter_after_init pop objs m k best s :
  population s = Some pop → elitist s = None →
  list_comprehension obj_of pop = Ok objs →
  py_min objs = Ok m → np_argmin objs = Ok k → pop !! k = Some best →
  best_obj_overall s = m →
  update_iter s = (set_iteration (iteration s + 1) (set_elitist (Some best) s), Ok tt).
Proof.
  intros Hpop He Hobjs Hm Hk Hbest Hb.
  rewrite (update_iter_unfold s pop objs m k) by done.
  rewrite update_best_overall_keep by (rewrite Hb; apply ltb_irrefl).
  by rewrite (update_elitist_first pop m k best).
Qed.

Lemma init_population_non_increasing s s' r :
  best_obj_overall s = inf →
  init_population E cfg W s = (s', r) →
  leb (best_obj_overall s') (best_obj_overall s) = true ∧
  is_nan (best_obj_overall s') = false.
Proof.
  intros Hinf Hrun. rewrite Hinf.
  destruct (init_population_cases s s' r Hrun)
    as [[(_ & _ & Hb & _) _]
       |(batch & s1 & objs & m & k & best & code & path & _ & _ & _ & Hobjs & Hnan
         & Hm & Hk & _ & _ & _ & Hupd)].
  - by rewrite Hb, Hinf.
  - destruct (min_argmin_spec objs m k Hnan Hm Hk) as (_ & _ & Hmn).
    apply update_iter_non_increasing in Hupd as [Hle Hnan']; [|done].
    split; [by apply leb_inf|done].
Qed.

End Initialisation.

(** ** The two bookkeeping invariants *)

Section Invariants.

Variable E : Externals.
Variable cfg : Config.
Variable W : World.

(** C6. The best objective overall never grows: [update_iter] changes
    it only to the best objective of the current generation and only
    when that one is strictly smaller, whether or not the rest of the
    update completes; it does not grow along [generation], along
    [evolve], or in [init_population] started with the initial value
    [inf]. *)
Theorem best_obj_overall_non_increasing fuel s s' (r : result unit) :
  is_nan (best_obj_overall s) = false →
  (update_iter s = (s', r) →
     leb (best_obj_overall s') (best_obj_overall s) = true ∧
     (best_obj_overall s' ≠ best_obj_overall s →
        ∃ pop m, population s = Some pop ∧ best_of_generation pop = Ok m ∧
                 ltb m (best_obj_overall s) = true ∧ best_obj_overall s' = m)) ∧
  (generation E cfg W s = (s', r) →
     leb (best_obj_overall s') (best_obj_overall s) = true) ∧
  (∀ r', evolve E cfg W fuel s = Some (s', r') →
     leb (best_obj_overall s') (best_obj_overall s) = true) ∧
  (best_obj_overall s = inf → init_population E cfg W s = (s', r) →
     leb (best_obj_overall s') (best_obj_overall s) = true).
Proof.
  intros Hnan. split_and!.
  - intros Hrun. split; [by eapply update_iter_non_increasing|].
    intros Hne. by destruct (update_iter_best_obj s s' r Hrun).
  - intros Hrun. by eapply generation_non_increasing.
  - intros r' Hrun. by eapply evolve_non_increasing.
  - intros Hinf Hrun. by eapply init_population_non_increasing.
Qed.

Lemma objs_lower_bound pop objs m :
  list_comprehension obj_of pop = Ok objs →
  Forall (λ y, leb m y = true) objs →
  Forall (λ individual, ∃ obj, obj_of individual = Ok obj ∧ leb m obj = true) pop.
Proof.
  intros Hobjs Hall. destruct (list_comprehension_lookup _ _ _ Hobjs) as [_ Hlook].
  apply Forall_lookup. intros i x Hx. destruct (Hlook i x Hx) as (y & Hy & Hobj).
  exists y. split; [done|].
  by apply (Forall_lookup_1 (λ y, leb m y = true) objs i y).
Qed.

(** C5. After a completed [update_iter] on a scored population, there
    is an elitist and its objective is at most the objective of every
    individual of the population; the elitist is replaced only by an
    individual of the population whose objective is strictly lower
    than the old elitist's. The update completes whenever the
    population is not empty and, in case it improves strictly on the
    best overall, its individuals carry code, description and path. *)
Theorem elitist_minimal s pop :
  population s = Some pop →
  Forall scored pop →
  (∀ e, elitist s = Some e → scored e) →
  (∀ s', update_iter s = (s', Ok tt) →
     ∃ e eobj,
       elitist s' = Some e ∧ obj_of e = Ok eobj ∧ population s' = Some pop ∧
       Forall (λ individual, ∃ obj, obj_of individual = Ok obj ∧ leb eobj obj = true)
              pop ∧
       (elitist s' ≠ elitist s →
          e ∈ pop ∧
          ∀ old oobj, elitist s = Some old → obj_of old = Ok oobj →
                      ltb eobj oobj = true)) ∧
  (pop ≠ [] →
   (∀ m, best_of_generation pop = Ok m → ltb m (best_obj_overall s) = true →
         Forall recordable pop) →
   ∃ s', update_iter s = (s', Ok tt)).
Proof.
  intros Hpop Hscored Helit.
  destruct (scored_objs pop Hscored) as (objs & Hobjs & Hnan).
  destruct (list_comprehension_lookup _ _ _ Hobjs) as [Hlen Hlook].
  split.
  - intros s' Hrun.
    destruct (update_iter_prelude s s' _ Hrun)
      as [(pop' & objs' & m & k & Hpop' & Hobjs' & Hm & Hk)|[_ [e [=]]]].
    rewrite Hpop in Hpop'. injection Hpop' as <-.
    rewrite Hobjs in Hobjs'. injection Hobjs' as <-.
    destruct (min_argmin_spec objs m k Hnan Hm Hk) as (Hkm & Hlow & Hmn).
    rewrite (update_iter_unfold s pop objs m k) in Hrun by done.
    assert (∃ s1, update_best_overall pop m k s = (s1, Ok tt) ∧
                  elitist s1 = elitist s ∧ population s1 = population s)
      as (s1 & Hs1 & He1 & Hp1).
    { destruct (ltb m (best_obj_overall s)) eqn:Hlt.
      - destruct (update_best_overall_improve pop m k s Hlt)
          as (s1 & r1 & Heq & _ & _ & _ & He & Hp & _).
        rewrite Heq in Hrun. destruct r1 as [[]|]; [|done]. eauto.
      - rewrite update_best_overall_keep by done. eauto. }
    rewrite Hs1 in Hrun.
    destruct (update_elitist_cases pop m k s1)
      as [[Heq (e & eobj & He & Heobj & Hlt)]
         |[(best & Hbest & Heq & Hwhy)|[err Heq]]];
      rewrite Heq in Hrun; [| |done]; injection Hrun as <-; simpl.
    + exists e, eobj. split; [done|]. split; [done|].
      split; [congruence|]. split; [|congruence].
      assert (Hen : is_nan eobj = false).
      { destruct (scored_obj e) as (o & Ho & Hn); [apply Helit; congruence|].
        congruence. }
      eapply Forall_impl; [by apply (objs_lower_bound pop objs m)|].
      intros x (o & Ho & Hle). exists o. split; [done|].
      eapply leb_trans; [|exact Hle]. by apply not_ltb_leb.
    + destruct (Hlook k best Hbest) as (y & Hy & Hobj).
      rewrite Hkm in Hy. injection Hy as <-.
      exists best, m. split; [done|]. split; [done|].
      split; [congruence|]. split; [by apply (objs_lower_bound pop objs m)|].
      intros _. split; [by eapply list_elem_of_lookup_2|].
      intros old oobj Hold Hoobj.
      destruct Hwhy as [Hnone|(e & eobj & He & Heobj & Hlt)]; congruence.
  - intros Hne Hrec.
    assert (objs ≠ []) as Hobjne.
    { intros ->. destruct pop; [done|]. simpl in Hlen. lia. }
    destruct (min_argmin_defined objs Hobjne) as (m & k & Hm & Hk).
    assert (∃ best, pop !! k = Some best) as [best Hbest].
    { apply lookup_lt_is_Some. rewrite <- Hlen. by apply np_argmin_bound. }
    rewrite (update_iter_unfold s pop objs m k) by done.
    assert (∃ s1, update_best_overall pop m k s = (s1, Ok tt) ∧
                  elitist s1 = elitist s) as (s1 & -> & He1).
    { destruct (ltb m (best_obj_overall s)) eqn:Hlt.
      - destruct (update_best_overall_improve pop m k s Hlt)
          as (s1 & r1 & Heq & _ & _ & _ & He & _ & _ & _ & Hok).
        destruct (Hok best Hbest) as [-> _]; [|eauto].
        eapply (Forall_lookup_1 recordable); [|exact Hbest].
        apply (Hrec m); [|done]. unfold best_of_generation. by rewrite Hobjs.
      - rewrite update_best_overall_keep by done. eauto. }
    destruct (update_elitist_cases pop m k s1)
      as [[-> _]|[(best' & _ & -> & _)|[err Heq]]]; [eauto..|].
    exfalso. revert Heq. unfold update_elitist, bind, get, lift, ret, list_getitem.
    rewrite Hbest. destruct (elitist s1) as [e|] eqn:He; simpl; [|done].
    destruct (scored_obj e) as (o & -> & _); [apply Helit; congruence|]. simpl.
    by destruct (ltb m o).
Qed.

End Invariants.

(** ** Random pairing selection *)

Section Selection.

Variable cfg : Config.
Variable W : World.

Lemma success_flags pool :
  Forall (λ individual, is_Some (individual !! "exec_success")) pool →
  ∃ flags,
    list_comprehension
      (λ individual, rbind (getitem individual "exec_success")
                           (λ v, Ok (individual, py_truthy v))) pool = Ok flags ∧
    fst <$> filter (λ p, snd p = true) flags = filter successful pool.
Proof.
  induction 1 as [|x l [v Hv] _ (flags & Hflags & Hgood)]; [by eexists|].
  exists ((x, py_truthy v) :: flags). cbn [list_comprehension].
  unfold getitem at 1. rewrite Hv. cbn [rbind]. rewrite Hflags. split; [done|].
  rewrite !filter_cons. simpl.
  destruct (decide (py_truthy v = true)) as [Ht|Ht],
           (decide (successful x)) as [Hs|Hs]; rewrite <- ?Hgood; try done.
  - exfalso. apply Hs. unfold successful. eauto.
  - exfalso. destruct Hs as (v' & Hv' & Ht'). congruence.
Qed.

Lemma np_random_choice2_pair {A : Type} raw (a : list A) :
  2 ≤ length a →
  ∃ i j x y, i ≠ j ∧ a !! i = Some x ∧ a !! j = Some y ∧
             np_random_choice2 raw a = Ok (x, y).
Proof.
  intros Hlen. unfold np_random_choice2.
  rewrite decide_False by lia. rewrite decide_False by lia.
  set (n := length a). set (i := raw.1 mod n).
  set (d := 1 + raw.2 mod (n - 1)).
  assert (Hi : i < n) by (apply Nat.mod_upper_bound; lia).
  assert (Hd : 0 < d < n).
  { unfold d. pose proof (Nat.mod_upper_bound raw.2 (n - 1)). lia. }
  replace (i + 1 + raw.2 mod (n - 1)) with (i + d) by (unfold d; lia).
  set (j := (i + d) mod n).
  assert (Hj : j < n) by (apply Nat.mod_upper_bound; lia).
  assert (Hij : i ≠ j).
  { unfold j. destruct (decide (i + d < n)) as [Hlt|Hge].
    - rewrite Nat.mod_small by done. lia.
    - replace (i + d) with ((i + d - n) + 1 * n) by lia.
      rewrite Nat.Div0.mod_add, Nat.mod_small by lia. lia. }
  destruct (lookup_lt_is_Some_2 a i Hi) as [x Hx].
  destruct (lookup_lt_is_Some_2 a j Hj) as [y Hy].
  exists i, j, x, y. unfold list_getitem. rewrite Hx, Hy. done.
Qed.

Lemma np_random_choice2_short {A : Type} raw (a : list A) :
  length a < 2 → ∃ msg, np_random_choice2 raw a = Raise (ValueError msg).
Proof.
  intros Hlen. unfold np_random_choice2.
  destruct (decide (length a = 0)); [eauto|].
  rewrite decide_True by done. eauto.
Qed.

(** the loop of [random_select] on a pool with at least two entries *)
Lemma select_loop good (it n : nat) : 2 ≤ length good → ∀ a acc s,
  length acc = 2 * a → (∀ k, k < a → pair_from good acc k) →
  ∃ selected,
    for_each (λ draw selected_population,
                parents <- lift (np_random_choice2 (random_pair W it draw) good) ;;
                ret (selected_population ++ [parents.1; parents.2]))
             (seq a n) acc s = (s, Ok selected) ∧
    length selected = 2 * (a + n) ∧
    ∀ k, k < a + n → pair_from good selected k.
Proof.
  intros Hgood. induction n as [|n IH]; intros a acc s Hlen Hpairs.
  - exists acc. simpl. rewrite Nat.add_0_r. done.
  - cbn [seq for_each].
    destruct (np_random_choice2_pair (random_pair W it a) good Hgood)
      as (i & j & x & y & Hij & Hx & Hy & Hch).
    erewrite bind_ok by (unfold bind, lift, ret; rewrite Hch; done).
    destruct (IH (S a) (acc ++ [x; y]) s) as (selected & Hrun & Hl & Hp).
    + rewrite length_app. simpl. lia.
    + intros k Hk. destruct (decide (k < a)) as [Hlt|Hge].
      * destruct (Hpairs k Hlt) as (i' & j' & x' & y' & ? & ? & ? & H1 & H2).
        exists i', j', x', y'. split_and!; try done; by apply lookup_app_l_Some.
      * assert (k = a) as -> by lia.
        exists i, j, x, y. split_and!; try done.
        -- rewrite lookup_app_r by lia.
           by replace (2 * a - length acc) with 0 by lia.
        -- rewrite lookup_app_r by lia.
           by replace (2 * a + 1 - length acc) with 1 by lia.
    + exists selected. split; [done|]. split; [lia|].
      intros k Hk. apply Hp. lia.
Qed.

(** C4, as the code has it. With at least two execution-successful
    entries in the pool, [random_select] returns [2 * pop_size]
    parents, each pair taken from two different positions of the
    successful part of the pool. With fewer than two, and a population
    size that is not zero, the first draw raises [ValueError]. *)
Theorem random_select_needs_two pool s :
  Forall (λ individual, is_Some (individual !! "exec_success")) pool →
  (2 ≤ length (filter successful pool) →
   ∃ selected,
     random_select cfg W pool s = (s, Ok selected) ∧
     length selected = 2 * pop_size cfg ∧
     ∀ k, k < pop_size cfg → pair_from (filter successful pool) selected k) ∧
  (length (filter successful pool) < 2 → 0 < pop_size cfg →
   ∃ msg, random_select cfg W pool s = (s, Raise (ValueError msg))).
Proof.
  intros Hflags. destruct (success_flags pool Hflags) as (flags & Hcomp & Hgood).
  unfold random_select.
  erewrite bind_ok by done.
  erewrite bind_ok by (unfold lift; rewrite Hcomp; done).
  cbv zeta. rewrite Hgood. split.
  - intros Hlen.
    destruct (select_loop (filter successful pool) (iteration s) (pop_size cfg)
                Hlen 0 [] s) as (selected & Hrun & Hl & Hp); [done|lia|].
    simpl in Hl, Hp. exists selected.
    erewrite bind_ok by exact Hrun.
    rewrite bool_decide_true by done. done.
  - intros Hlen Hpos.
    destruct (pop_size cfg) as [|n]; [lia|]. cbn [seq for_each].
    destruct (np_random_choice2_short (random_pair W (iteration s) 0)
                (filter successful pool) Hlen) as [msg Hch].
    exists msg.
    erewrite bind_raise; [done|].
    erewrite bind_raise; [done|]. unfold lift. by rewrite Hch.
Qed.

End Selection.

(** ** The missing description field *)

Section Description.

Variable E : Externals.
Variable cfg : Config.
Variable W : World.

Lemma range_step2_even n : 0 < n → ∃ l, range_step2 (2 * n) = 0 :: l.
Proof.
  intros Hn. unfold range_step2.
  replace ((2 * n + 1) / 2) with n.
  - destruct n as [|n]; [lia|]. simpl. eauto.
  - apply (Nat.div_unique _ 2 n 1); lia.
Qed.

(** the first round of the loop of [crossover] stops at the first
    parent's description *)
Lemma crossover_no_description pool s :
  0 < pop_size cfg → length pool = 2 * pop_size cfg →
  Forall (λ individual, has_code individual ∧ individual !! "description" = None) pool →
  crossover E cfg W pool s = (s, Raise (KeyError "description")).
Proof.
  intros Hpos Hlen Hall. unfold crossover.
  erewrite bind_ok by done.
  erewrite bind_ok
    by (rewrite bool_decide_true by lia; reflexivity).
  rewrite Hlen. destruct (range_step2_even (pop_size cfg) Hpos) as [l ->].
  destruct pool as [|parent_1 [|parent_2 pool]]; simpl in Hlen; [lia..|].
  inversion Hall as [|? ? [[code1 Hc1] Hd1] Hall']; subst.
  inversion Hall' as [|? ? [[code2 Hc2] Hd2] _]; subst.
  erewrite bind_raise; [done|]. cbn [for_each].
  erewrite bind_raise; [done|].
  unfold bind, lift, list_getitem, getitem. simpl.
  by rewrite Hc1, Hc2, Hd1.
Qed.

(** C10. An individual built by [response_to_individual] has exactly
    the fields [stdout_filepath], [code_path], [code] and
    [response_id]. For a batch of such individuals and its evaluation:
    [crossover] on any pool of the right size drawn from them raises
    [KeyError: 'description'], and so does [update_iter] when the
    evaluated batch strictly improves on the best objective overall,
    after it has stored the new best objective and before it stores a
    description. *)
Theorem description_field_missing h batch s0 s1 evaluated_batch :
  Forall (constructed E) batch →
  evaluate_population E h batch s0 = (s1, Ok evaluated_batch) →
  Forall (λ individual, dom individual = constructor_keys) batch ∧
  (∀ pool s,
     0 < pop_size cfg → length pool = 2 * pop_size cfg →
     (∀ individual, individual ∈ pool →
                    individual ∈ batch ∨ individual ∈ evaluated_batch) →
     crossover E cfg W pool s = (s, Raise (KeyError "description"))) ∧
  (∀ s m,
     population s = Some evaluated_batch →
     best_of_generation evaluated_batch = Ok m →
     ltb m (best_obj_overall s) = true →
     ∃ s', update_iter s = (s', Raise (KeyError "description")) ∧
           best_obj_overall s' = m ∧
           best_desc_overall s' = best_desc_overall s).
Proof.
  intros Hcons Heval.
  assert (Hcode : Forall has_code batch).
  { eapply Forall_impl; [exact Hcons|]. by intros x (_ & ? & _)%constructed_facts. }
  destruct (evaluate_population_ok E h batch s0 s1 evaluated_batch Hcode Heval)
    as (_ & -> & _).
  assert (Hev : ∀ x, x ∈ imap (evaluated E h) batch →
                     has_code x ∧ x !! "description" = None).
  { intros x (i & y & -> & Hy)%elem_of_lookup_imap.
    destruct (evaluated_constructed E h i y) as (? & ? & _); [|done].
    by eapply Forall_lookup_1. }
  split_and!.
  - eapply Forall_impl; [exact Hcons|]. by intros x (? & _)%constructed_facts.
  - intros pool s Hpos Hlen Hfrom. apply crossover_no_description; try done.
    apply Forall_forall. intros x Hx. destruct (Hfrom x Hx) as [Hb|He].
    + rewrite Forall_forall in Hcons.
      by destruct (constructed_facts E x (Hcons x Hb)) as (_ & ? & _ & ? & _).
    + by apply Hev.
  - intros s m Hpop Hbest Hlt. unfold best_of_generation in Hbest.
    destruct (list_comprehension obj_of (imap (evaluated E h) batch))
      as [objs|] eqn:Hobjs; [|done]. simpl in Hbest.
    assert (objs ≠ []) as Hne by (by intros ->).
    destruct (min_argmin_defined objs Hne) as (m' & k & Hm & Hk).
    rewrite Hbest in Hm. injection Hm as <-.
    assert (∃ best, imap (evaluated E h) batch !! k = Some best) as [best Hk'].
    { apply lookup_lt_is_Some.
      destruct (list_comprehension_lookup _ _ _ Hobjs) as [<- _].
      by apply np_argmin_bound. }
    destruct (Hev best) as [Hc Hd]; [by eapply list_elem_of_lookup_2|].
    rewrite (update_iter_unfold s _ objs m k) by done.
    destruct (update_best_overall_improve (imap (evaluated E h) batch) m k s Hlt)
      as (s' & r & -> & Hb & _ & _ & _ & _ & _ & Hraise & _).
    destruct (Hraise best Hk' Hc Hd) as [-> Hdesc]. eauto.
Qed.

End Description.

(** ** No run returns *)

Section NeverReturns.

Variable E : Externals.
Variable cfg : Config.
Variable W : World.

Lemma returns_true {A : Type} (m : M A) : returns m (λ _, True).
Proof. done. Qed.

Lemma returns_assert_ret {A : Type} (Q : Prop) `{Decision Q} msg (a : A) :
  returns (py_assert (bool_decide Q) msg ;;; ret a) (λ r, Q ∧ r = a).
Proof.
  intros s s' r. unfold bind, py_assert. case_bool_decide; [|done].
  simpl. by intros [= _ <-].
Qed.

Lemma list_comprehension_elem {A B : Type} (f : A → result B) l ys y :
  list_comprehension f l = Ok ys → y ∈ ys → ∃ x, x ∈ l ∧ f x = Ok y.
Proof.
  intros Hcomp (i & Hi)%list_elem_of_lookup_1.
  destruct (list_comprehension_lookup f l ys Hcomp) as [Hlen Hlook].
  destruct (lookup_lt_is_Some_2 l i) as [x Hx].
  { rewrite <- Hlen. by eapply lookup_lt_Some. }
  destruct (Hlook i x Hx) as (y' & Hy' & Hf). exists x.
  split; [by eapply list_elem_of_lookup_2|congruence].
Qed.

Lemma np_random_choice2_elem {A : Type} raw (a : list A) x y :
  np_random_choice2 raw a = Ok (x, y) → x ∈ a ∧ y ∈ a.
Proof.
  unfold np_random_choice2. repeat case_decide; try done. cbv zeta.
  set (i := raw.1 mod length a).
  set (j := (i + 1 + raw.2 mod (length a - 1)) mod length a).
  unfold list_getitem, rbind.
  destruct (a !! i) as [x'|] eqn:Hx; [|done].
  destruct (a !! j) as [y'|] eqn:Hy; [|done].
  intros [= <- <-]. split; by eapply list_elem_of_lookup_2.
Qed.

(** what [random_select] returns is of the asserted length and is made
    of entries of the pool *)
Lemma random_select_returns (P : Individual → Prop) pool :
  Forall P pool →
  returns (random_select cfg W pool)
          (λ selected, length selected = 2 * pop_size cfg ∧ Forall P selected).
Proof.
  intros Hpool. unfold random_select.
  eapply returns_bind; [apply returns_true|]. intros s _.
  intros s0 s' selected. unfold bind at 1, lift at 1.
  destruct (list_comprehension _ pool) as [flags|] eqn:Hflags; [|done].
  revert s0 s' selected. cbv zeta.
  set (good := fst <$> filter (λ p, p.2 = true) flags).
  assert (Hgood : Forall P good).
  { apply Forall_forall. intros x ([x' b] & -> & Hin)%list_elem_of_fmap_1.
    apply list_elem_of_filter in Hin as [_ Hin].
    destruct (list_comprehension_elem _ _ _ _ Hflags Hin) as (y & Hy & Hf).
    unfold rbind in Hf. destruct (getitem y "exec_success"); [|done].
    injection Hf as <- _. rewrite Forall_forall in Hpool. by apply Hpool. }
  eapply (returns_bind _ _ (Forall P)).
  - apply returns_for_each; [|done]. intros draw acc _ Hacc.
    intros s0 s' r. unfold bind, lift, ret.
    destruct (np_random_choice2 _ good) as [[x y]|] eqn:Hch; [|done].
    intros [= _ <-]. apply np_random_choice2_elem in Hch as [Hx Hy].
    rewrite Forall_forall in Hgood.
    apply Forall_app. split; [done|]. repeat constructor; by apply Hgood.
  - intros selected Hsel. eapply returns_weaken; [apply returns_assert_ret|].
    simpl. by intros r [? ->].
Qed.

Lemma crossover_returns pool :
  returns (crossover E cfg W pool) (λ crossed, length crossed = pop_size cfg).
Proof.
  unfold crossover.
  do 3 (eapply returns_bind; [apply returns_true|]; intros ? _). cbv zeta.
  eapply returns_bind; [apply returns_true|]. intros crossed _.
  eapply returns_weaken; [apply returns_assert_ret|]. simpl. by intros r [? ->].
Qed.

Lemma mutate_returns pool :
  returns (mutate E cfg W pool) (λ mutated, length mutated = pop_size cfg).
Proof.
  unfold mutate.
  do 2 (eapply returns_bind; [apply returns_true|]; intros ? _).
  match goal with |- returns (let '(_, _) := ?x in _) _ => destruct x end.
  cbv zeta.
  eapply returns_bind; [apply returns_true|]. intros mutated _.
  eapply returns_weaken; [apply returns_assert_ret|]. simpl. by intros r [? ->].
Qed.

Lemma update_iter_empty s :
  population s = Some [] → ∃ e, update_iter s = (s, Raise e).
Proof.
  intros Hpop. unfold update_iter, bind, getattr, lift. rewrite Hpop. simpl. eauto.
Qed.

(** a generation over individuals without description always raises *)
Lemma generation_raises s pop :
  population s = Some pop → Forall undescribed pop →
  (∀ e, elitist s = Some e → undescribed e) →
  ∃ s' e, generation E cfg W s = (s', Raise e).
Proof.
  intros Hpop Hall Helit. unfold generation.
  destruct (diversify cfg).
  { erewrite bind_raise by done. eauto. }
  erewrite bind_ok by done. erewrite bind_ok by done.
  erewrite bind_ok by (unfold getattr; by rewrite Hpop). cbv zeta.
  set (pool := match elitist s with Some e => [e] ++ pop | None => pop end).
  assert (Hpool : Forall undescribed pool).
  { unfold pool. destruct (elitist s) as [e|]; [|done].
    simpl. apply Forall_cons. split; [by apply Helit|done]. }
  pose proof (reads_only_run _ s (random_select_reads cfg W pool)) as Hsel.
  destruct ((random_select cfg W pool s).2) as [selected|e] eqn:Hr;
    [|erewrite bind_raise by exact Hsel; eauto].
  erewrite bind_ok by exact Hsel.
  destruct (random_select_returns undescribed pool Hpool s s selected Hsel)
    as [Hlen Hund].
  destruct (decide (0 < pop_size cfg)) as [Hpos|Hzero].
  { erewrite bind_raise by (by apply crossover_no_description). eauto. }
  pose proof (reads_only_run _ s (crossover_reads E cfg W selected)) as Hcr.
  destruct ((crossover E cfg W selected s).2) as [crossed|e] eqn:Hc;
    [|erewrite bind_raise by exact Hcr; eauto].
  erewrite bind_ok by exact Hcr.
  pose proof (crossover_returns selected s s crossed Hcr) as Hcl.
  destruct crossed; [|simpl in Hcl; lia].
  pose proof (reads_only_run _ s (mutate_reads E cfg W [])) as Hmu.
  destruct ((mutate E cfg W [] s).2) as [mutated|e] eqn:Hm;
    [|erewrite bind_raise by exact Hmu; eauto].
  erewrite bind_ok by exact Hmu.
  pose proof (mutate_returns [] s s mutated Hmu) as Hml.
  destruct mutated; [|simpl in Hml; lia].
  erewrite bind_ok by done.
  erewrite bind_ok by (apply evaluate_population_eq; constructor).
  erewrite bind_ok by done.
  match goal with
  | |- ∃ s' e, update_iter ?s0 = _ =>
      destruct (update_iter_empty s0) as [e He]; [done|]; rewrite He
  end.
  eauto.
Qed.

(** the state in which [init_population] leaves the object when it
    returns *)
Lemma init_population_ok s' :
  init_population E cfg W init_state = (s', Ok tt) →
  ∃ pop, population s' = Some pop ∧ Forall undescribed pop ∧
         (∀ e, elitist s' = Some e → undescribed e) ∧
         best_desc_overall s' = None ∧ is_Some (best_code_overall s').
Proof.
  intros Hrun.
  destruct (init_population_cases E cfg W init_state s' _ Hrun)
    as [[_ [e [=]]]
       |(batch & s1 & objs & m & k & best & code & path & Hcons & _ & Hsame & Hobjs
         & _ & Hm & Hk & Hbest & _ & _ & Hupd)].
  destruct Hsame as (_ & He1 & _ & _ & Hd1 & _).
  set (pop := imap (evaluated E (harness_at W (iteration init_state))) batch) in *.
  rewrite (update_iter_after_init pop objs m k best) in Hupd; try done.
  injection Hupd as <-. simpl.
  assert (Hund : Forall undescribed pop).
  { apply Forall_forall. intros x (i & y & -> & Hy)%elem_of_lookup_imap.
    destruct (evaluated_constructed E (harness_at W (iteration init_state)) i y)
      as (? & ? & _); [|done].
    by eapply Forall_lookup_1. }
  exists pop. split_and!; try done.
  intros e [= <-]. rewrite Forall_forall in Hund. apply Hund.
  by eapply list_elem_of_lookup_2.
Qed.

Lemma evolve_raises fuel s pop :
  population s = Some pop → Forall undescribed pop →
  (∀ e, elitist s = Some e → undescribed e) →
  best_desc_overall s = None → is_Some (best_code_overall s) →
  (∃ s' e, evolve E cfg W (S fuel) s = Some (s', Raise e)) ∧
  (max_fe cfg ≤ function_evals s →
   evolve E cfg W fuel s = Some (s, Raise (AttributeError "best_desc_overall"))).
Proof.
  intros Hpop Hall Helit Hdesc [code Hcode].
  assert (Hret : evolve_return s = (s, Raise (AttributeError "best_desc_overall"))).
  { unfold evolve_return, bind, getattr. by rewrite Hcode, Hdesc. }
  split.
  - cbn [evolve]. case_bool_decide; [|rewrite Hret; eauto].
    destruct (generation_raises s pop Hpop Hall Helit) as (s' & e & ->). eauto.
  - intros Hfe. destruct fuel; cbn [evolve];
      rewrite bool_decide_false by lia; by rewrite Hret.
Qed.

(** C1, against the code. No run returns the best code, description and
    path: [G2A(cfg, root_dir)] followed by [evolve()] always ends in an
    exception, and when generation 0 has used up the evaluation budget
    the exception is the [AttributeError] of the [return] statement,
    [best_desc_overall] never having been assigned. *)
Theorem run_never_returns fuel :
  (∃ s e, run E cfg W (S fuel) = Some (s, Raise e)) ∧
  (∀ s, init_population E cfg W init_state = (s, Ok tt) →
        max_fe cfg ≤ function_evals s →
        run E cfg W fuel = Some (s, Raise (AttributeError "best_desc_overall"))).
Proof.
  unfold run. split.
  - destruct (init_population E cfg W init_state) as [s [[]|e]] eqn:Hinit; [|eauto].
    destruct (init_population_ok s Hinit) as (pop & Hpop & Hall & Helit & Hd & Hc).
    by destruct (evolve_raises fuel s pop Hpop Hall Helit Hd Hc) as [? _].
  - intros s Hinit Hfe. rewrite Hinit.
    destruct (init_population_ok s Hinit) as (pop & Hpop & Hall & Helit & Hd & Hc).
    by destruct (evolve_raises fuel s pop Hpop Hall Helit Hd Hc) as [_ ->].
Qed.

End NeverReturns.

(** ** The bookkeeping, the selection and the run on concrete data *)

(** [tac] proves the property of each entry of a list given in full *)
Ltac each_entry tac :=
  repeat (apply List.Forall_cons; [tac|]); apply List.Forall_nil.

Lemma elitist_minimal_witness :
  (∀ s', update_iter Sample.boundary_state = (s', Ok tt) →
     ∃ e eobj,
       elitist s' = Some e ∧ obj_of e = Ok eobj ∧
       population s' = Some Sample.described_pair ∧
       Forall (λ individual, ∃ obj, obj_of individual = Ok obj ∧ leb eobj obj = true)
              Sample.described_pair ∧
       (elitist s' ≠ elitist Sample.boundary_state →
          e ∈ Sample.described_pair ∧
          ∀ old oobj, elitist Sample.boundary_state = Some old →
                      obj_of old = Ok oobj → ltb eobj oobj = true)) ∧
  (Sample.described_pair ≠ [] →
   (∀ m, best_of_generation Sample.described_pair = Ok m →
         ltb m (best_obj_overall Sample.boundary_state) = true →
         Forall recordable Sample.described_pair) →
   ∃ s', update_iter Sample.boundary_state = (s', Ok tt)).
Proof.
  apply (elitist_minimal Sample.boundary_state Sample.described_pair).
  - reflexivity.
  - each_entry ltac:(split; [eexists; split; vm_compute; reflexivity|];
                     split; eexists; vm_compute; reflexivity).
  - intros e [= <-].
    split; [eexists; split; vm_compute; reflexivity|].
    split; eexists; vm_compute; reflexivity.
Defined.

(** the update on that state: the elitist and the best overall move to
    the individual with objective 10.0 *)
Example update_iter_sample :
  ∃ s', update_iter Sample.boundary_state = (s', Ok tt) ∧
        best_obj_overall s' = Sample.f10 ∧
        elitist s' = Sample.described_pair !! 1 ∧
        best_desc_overall s' = Some (VStr "second") ∧
        iteration s' = 2.
Proof. eexists. split; [vm_compute; reflexivity|]. by vm_compute. Qed.

Lemma best_obj_overall_non_increasing_witness :
  let s := Sample.boundary_state in
  let s' := (update_iter s).1 in
  let r := (update_iter s).2 in
  (update_iter s = (s', r) →
     leb (best_obj_overall s') (best_obj_overall s) = true ∧
     (best_obj_overall s' ≠ best_obj_overall s →
        ∃ pop m, population s = Some pop ∧ best_of_generation pop = Ok m ∧
                 ltb m (best_obj_overall s) = true ∧ best_obj_overall s' = m)) ∧
  (generation Sample.externals (Sample.config 2 10) (Sample.world [] []) s = (s', r) →
     leb (best_obj_overall s') (best_obj_overall s) = true) ∧
  (∀ r', evolve Sample.externals (Sample.config 2 10) (Sample.world [] []) 1 s
         = Some (s', r') →
     leb (best_obj_overall s') (best_obj_overall s) = true) ∧
  (best_obj_overall s = inf →
   init_population Sample.externals (Sample.config 2 10) (Sample.world [] []) s = (s', r) →
     leb (best_obj_overall s') (best_obj_overall s) = true).
Proof.
  intros s s' r.
  apply (best_obj_overall_non_increasing Sample.externals (Sample.config 2 10)
           (Sample.world [] []) 1 s s' r).
  reflexivity.
Defined.

Lemma random_select_needs_two_witness :
  (2 ≤ length (filter successful Sample.evaluated_pair) →
   ∃ selected,
     random_select (Sample.config 2 10) (Sample.world [] []) Sample.evaluated_pair
       init_state = (init_state, Ok selected) ∧
     length selected = 2 * pop_size (Sample.config 2 10) ∧
     ∀ k, k < pop_size (Sample.config 2 10) →
          pair_from (filter successful Sample.evaluated_pair) selected k) ∧
  (length (filter successful Sample.evaluated_pair) < 2 →
   0 < pop_size (Sample.config 2 10) →
   ∃ msg, random_select (Sample.config 2 10) (Sample.world [] []) Sample.evaluated_pair
            init_state = (init_state, Raise (ValueError msg))).
Proof.
  apply (random_select_needs_two (Sample.config 2 10) (Sample.world [] [])
           Sample.evaluated_pair init_state).
  each_entry ltac:(eexists; vm_compute; reflexivity).
Defined.

(** the selection on that pool: two pairs, each of two different entries *)
Example random_select_sample :
  (random_select (Sample.config 2 10) (Sample.world [] []) Sample.evaluated_pair
     init_state).2
  = Ok [success_with Sample.f42_5 (Sample.fresh 0 (VStr "a"));
        success_with Sample.f10 (Sample.fresh 1 (VStr "b"));
        success_with Sample.f10 (Sample.fresh 1 (VStr "b"));
        success_with Sample.f42_5 (Sample.fresh 0 (VStr "a"))].
Proof. vm_compute. reflexivity. Qed.

(** C4 as stated does not hold: a pool with exactly one
    execution-successful individual makes [random_select] raise. *)
Lemma random_select_one_successful_counterexample :
  ¬ (∀ (cfg : Config) (W : World) (pool : list Individual) (s : G2A),
       Forall (λ individual, is_Some (individual !! "exec_success")) pool →
       (∃ individual, individual ∈ pool ∧ successful individual) →
       ∃ selected,
         random_select cfg W pool s = (s, Ok selected) ∧
         length selected = 2 * pop_size cfg).
Proof.
  intros H.
  destruct (H (Sample.config 1 10) (Sample.world [] [])
              [success_with Sample.f42_5 (Sample.fresh 0 (VStr "a"));
               mark_invalid_individual (Sample.fresh 1 (VStr "b")) "timed out"]
              init_state) as (selected & Heq & _).
  - each_entry ltac:(eexists; vm_compute; reflexivity).
  - eexists. split; [left|]. eexists. split; vm_compute; reflexivity.
  - apply (f_equal snd) in Heq. vm_compute in Heq. discriminate.
Qed.

Lemma description_field_missing_witness :
  let h := Sample.harness Sample.pair_outs in
  let s1 := (evaluate_population Sample.externals h Sample.pair init_state).1 in
  Forall (λ individual, dom individual = constructor_keys) Sample.pair ∧
  (∀ pool s,
     0 < pop_size (Sample.config 2 10) → length pool = 2 * pop_size (Sample.config 2 10) →
     (∀ individual, individual ∈ pool →
                    individual ∈ Sample.pair ∨ individual ∈ Sample.evaluated_pair) →
     crossover Sample.externals (Sample.config 2 10) (Sample.world [] []) pool s
     = (s, Raise (KeyError "description"))) ∧
  (∀ s m,
     population s = Some Sample.evaluated_pair →
     best_of_generation Sample.evaluated_pair = Ok m →
     ltb m (best_obj_overall s) = true →
     ∃ s', update_iter s = (s', Raise (KeyError "description")) ∧
           best_obj_overall s' = m ∧
           best_desc_overall s' = best_desc_overall s).
Proof.
  intros h s1.
  apply (description_field_missing Sample.externals (Sample.config 2 10)
           (Sample.world [] []) h Sample.pair init_state s1 Sample.evaluated_pair).
  - apply List.Forall_cons; [|apply List.Forall_cons; [|apply List.Forall_nil]].
    + exists "a", 0, None, init_state, init_state. vm_compute. reflexivity.
    + exists "b", 1, None, init_state, init_state. vm_compute. reflexivity.
  - vm_compute. reflexivity.
Defined.

(** a run whose generation 0 uses up the budget of two evaluations:
    [evolve] skips its loop and its [return] raises *)
Example run_budget_exhausted :
  ∃ s, run Sample.externals (Sample.config 2 2)
         (Sample.world ["a"; "b"] Sample.pair_outs) 5
       = Some (s, Raise (AttributeError "best_desc_overall")) ∧
       function_evals s = 2 ∧ best_obj_overall s = Sample.f10 ∧
       best_code_overall s = Some (VStr "b") ∧ best_desc_overall s = None.
Proof. eexists. split; [vm_compute; reflexivity|]. by vm_compute. Qed.

(** a run with budget left: the first [crossover] raises *)
Example run_with_budget :
  ∃ s, run Sample.externals (Sample.config 2 10)
         (Sample.world ["a"; "b"] Sample.pair_outs) 5
       = Some (s, Raise (KeyError "description")).
Proof. eexists. vm_compute. reflexivity. Qed.

(** ** The scenarios of the evaluation harness *)

(** a capture whose second-to-last line is [42.5]: objective 42.5,
    fitness 1/42.5, success *)
Example scenario_objective_line :
  evaluated Sample.externals (Sample.harness [Exited Sample.capture_42_5]) 0
    (Sample.fresh 0 (VStr "a"))
  = success_with Sample.f42_5 (Sample.fresh 0 (VStr "a")).
Proof. vm_compute. reflexivity. Qed.

(** a capture that is a traceback: failure with the traceback as message *)
Example scenario_traceback :
  let capture := "Traceback (most recent call last):" +:+ nl +:+ "ZeroDivisionError" in
  invalid_with capture
    (evaluated Sample.externals (Sample.harness [Exited capture]) 0
       (Sample.fresh 0 (VStr "a"))).
Proof. by vm_compute. Qed.

(** a capture of fewer than two lines is malformed *)
Example scenario_one_line :
  invalid_with "Invalid std out / objective value!"
    (evaluated Sample.externals (Sample.harness [Exited "42.5"]) 0
       (Sample.fresh 0 (VStr "a"))).
Proof. by vm_compute. Qed.

(** a negative objective is refused by the assertion, after it was stored *)
Example scenario_negative :
  read_objective Sample.externals (Sample.fresh 0 (VStr "a")) Sample.capture_neg
  = (<["obj" := VFloat Sample.fm1]> (Sample.fresh 0 (VStr "a")),
     Raise (AssertionError "Objective value <= 0 is not supported.")) ∧
  invalid_with "Invalid std out / objective value!"
    (evaluated Sample.externals (Sample.harness [Exited Sample.capture_neg]) 0
       (Sample.fresh 0 (VStr "a"))).
Proof. split; [vm_compute; reflexivity|by vm_compute]. Qed.

(** the individual of response slot 3 in generation 0; the capture path
    is built from the reassigned [file_name] *)
Example response_to_individual_sample :
  response_to_individual Sample.externals "abc" 3 None init_state
  = (init_state, Ok (Sample.fresh 3 (VStr "abc"))) ∧
  Sample.fresh 3 (VStr "abc") !! "stdout_filepath"
  = Some (VStr "problem_iter0_response3.txt_stdout.txt").
Proof. split; vm_compute; reflexivity. Qed.

(** a completion without code makes [response_to_individual] raise *)
Example response_without_code :
  response_to_individual Sample.externals "" 0 None init_state
  = (init_state,
     Raise (TypeError "unsupported operand type(s) for +: 'NoneType' and 'str'")).
Proof. reflexivity. Qed.

(** * Further properties of the code *)

(** ** Further facts on the order of floats and on [argmin] *)

Section FirstMinimum.

Lemma ltb_leb_trans x y z : ltb x y = true → leb y z = true → ltb x z = true.
Proof.
  unfold ltb, leb, SFltb, SFleb, SFcompare.
  destruct x as [[]|[]| |[] mx ex], y as [[]|[]| |[] my ey], z as [[]|[]| |[] mz ez];
    simpl; try done; intros H1 H2;
    repeat match goal with
    | |- context [Z.compare ?a ?b] => destruct (Z.compare_spec a b)
    | |- context [Pos.compare_cont Eq ?a ?b] =>
        change (Pos.compare_cont Eq a b) with (Pos.compare a b);
        destruct (Pos.compare_spec a b)
    | H : context [Z.compare ?a ?b] |- _ => destruct (Z.compare_spec a b)
    | H : context [Pos.compare_cont Eq ?a ?b] |- _ =>
        change (Pos.compare_cont Eq a b) with (Pos.compare a b) in H;
        destruct (Pos.compare_spec a b)
    end; simpl in *; try done; try lia.
Qed.

(** [argmin] is the first position of the minimum: every earlier entry
    is strictly larger *)
Lemma argmin_go_first l : ∀ pre best cur,
  is_nan cur = false →
  Forall (λ y, is_nan y = false) l →
  pre !! best = Some cur →
  Forall (λ y, leb cur y = true) pre →
  (∀ j y, j < best → pre !! j = Some y → ltb cur y = true) →
  ∀ j y, j < np_argmin_go best cur (length pre) l → (pre ++ l) !! j = Some y →
         ltb (py_min_from cur l) y = true.
Proof.
  induction l as [|y0 l IH]; intros pre best cur Hcur Hl Hbest Hpre Hfirst.
  - simpl. rewrite app_nil_r. done.
  - inversion Hl as [|? ? Hy Hl']; subst.
    cbn [np_argmin_go py_min_from fold_left]. rewrite Hcur, Hy. simpl.
    replace (pre ++ y0 :: l) with ((pre ++ [y0]) ++ l) by (by rewrite <- app_assoc).
    replace (S (length pre)) with (length (pre ++ [y0]))
      by (rewrite length_app; simpl; lia).
    destruct (ltb y0 cur) eqn:Hlt.
    + apply IH; try done.
      * by apply list_lookup_middle.
      * apply Forall_app. split.
        -- eapply Forall_impl; [exact Hpre|]. simpl. intros z Hz.
           eapply leb_trans; [|exact Hz]. by apply ltb_leb.
        -- repeat constructor. by apply leb_refl.
      * intros j y Hj Hjy. rewrite lookup_app_l in Hjy by done.
        eapply ltb_leb_trans; [exact Hlt|].
        by apply (Forall_lookup_1 (λ y, leb cur y = true) pre j y).
    + apply IH; try done.
      * apply lookup_app_l_Some. done.
      * apply Forall_app. split; [done|].
        repeat constructor. by apply not_ltb_leb.
      * intros j y Hj Hjy. apply (Hfirst j y Hj).
        rewrite lookup_app_l in Hjy; [done|]. apply lookup_lt_Some in Hbest. lia.
Qed.

Lemma argmin_first l m k :
  Forall (λ y, is_nan y = false) l →
  py_min l = Ok m → np_argmin l = Ok k →
  ∀ j y, j < k → l !! j = Some y → ltb m y = true.
Proof.
  destruct l as [|x l]; [done|]. intros Hl [= <-] [= <-].
  inversion Hl as [|? ? Hx Hl']; subst.
  apply (argmin_go_first l [x] 0 x); try done.
  - repeat constructor. by apply leb_refl.
  - intros j y Hj. lia.
Qed.

End FirstMinimum.

(** ** [update_iter]: what it leaves alone and what it establishes *)

Section UpdateIterFacts.

Lemma update_iter_outcome s s' r :
  update_iter s = (s', r) →
  function_evals s' = function_evals s ∧ events s' = events s ∧
  population s' = population s ∧
  iteration s' = iteration s + (if r is Ok _ then 1 else 0).
Proof.
  intros Hrun.
  destruct (update_iter_prelude s s' r Hrun)
    as [(pop & objs & m & k & Hpop & Hobjs & Hm & Hk)|[-> [e ->]]];
    [|split_and!; try done; lia].
  rewrite (update_iter_unfold s pop objs m k) in Hrun by done.
  assert (∃ s1 r1, update_best_overall pop m k s = (s1, r1) ∧
            iteration s1 = iteration s ∧ function_evals s1 = function_evals s ∧
            population s1 = population s ∧ events s1 = events s)
    as (s1 & r1 & Hs1 & Hi1 & Hf1 & Hp1 & He1).
  { destruct (ltb m (best_obj_overall s)) eqn:Hlt.
    - destruct (update_best_overall_improve pop m k s Hlt)
        as (s1 & r1 & Heq & _ & ? & ? & _ & ? & ? & _). eauto 10.
    - rewrite update_best_overall_keep by done. eauto 10. }
  rewrite Hs1 in Hrun. destruct r1 as [[]|e1].
  - destruct (update_elitist_cases pop m k s1)
      as [[Heq _]|[(best & _ & Heq & _)|[err Heq]]];
      rewrite Heq in Hrun; injection Hrun as <- <-; simpl;
      split_and!; try done; lia.
  - injection Hrun as <- <-. split_and!; try done; lia.
Qed.

(** X1. [update_iter] never touches the evaluation counter, the process
    events or the stored population, and it advances the iteration
    counter by one exactly when it completes: an exception leaves the
    counter where it was. *)
Theorem update_iter_frame s :
  let out := update_iter s in
  function_evals out.1 = function_evals s ∧ events out.1 = events s ∧
  population out.1 = population s ∧
  iteration out.1 = iteration s + (if out.2 is Ok _ then 1 else 0).
Proof.
  intros out. apply update_iter_outcome. unfold out. by destruct (update_iter s).
Qed.

(** the best objective overall after [update_iter] is a lower bound of
    the generation, whether or not the update completes *)
Lemma update_iter_lower_bound s s' r pop :
  population s = Some pop → pop ≠ [] → Forall scored pop →
  is_nan (best_obj_overall s) = false →
  update_iter s = (s', r) →
  Forall (λ individual, ∃ obj, obj_of individual = Ok obj ∧
                        leb (best_obj_overall s') obj = true) pop.
Proof.
  intros Hpop Hne Hscored Hnan Hrun.
  destruct (scored_objs pop Hscored) as (objs & Hobjs & Hnans).
  destruct (list_comprehension_lookup _ _ _ Hobjs) as [Hlen Hlook].
  assert (objs ≠ []) as Hobjne.
  { intros ->. destruct pop; [done|]. simpl in Hlen. lia. }
  destruct (min_argmin_defined objs Hobjne) as (m & k & Hm & Hk).
  destruct (min_argmin_spec objs m k Hnans Hm Hk) as (Hkm & Hlow & Hmn).
  rewrite (update_iter_unfold s pop objs m k) in Hrun by done.
  assert (leb (best_obj_overall s') m = true) as Hle.
  { destruct (ltb m (best_obj_overall s)) eqn:Hlt.
    - destruct (update_best_overall_improve pop m k s Hlt)
        as (s1 & r1 & Heq & Hbest & _).
      rewrite Heq in Hrun. destruct r1 as [[]|e].
      + pose proof (update_elitist_best_obj pop m k s1) as (Hb & _).
        destruct (update_elitist pop m k s1) as [s2 [[]|e]];
          injection Hrun as <- <-; simpl in *; rewrite ?Hb, Hbest; by apply leb_refl.
      + injection Hrun as <- <-. rewrite Hbest. by apply leb_refl.
    - rewrite update_best_overall_keep in Hrun by done.
      pose proof (update_elitist_best_obj pop m k s) as (Hb & _).
      destruct (update_elitist pop m k s) as [s2 [[]|e]];
        injection Hrun as <- <-; simpl in *; rewrite ?Hb; by apply not_ltb_leb. }
  eapply Forall_impl; [by apply (objs_lower_bound pop objs m)|].
  intros x (o & Ho & Hmo). exists o. split; [done|]. by eapply leb_trans.
Qed.

(** X2. After [update_iter] on a scored, non-empty population the best
    objective overall is at most the objective of every individual of
    that population, also when the update ends in an exception. *)
Theorem best_obj_overall_bounds_generation s s' r pop :
  population s = Some pop → pop ≠ [] → Forall scored pop →
  is_nan (best_obj_overall s) = false →
  update_iter s = (s', r) →
  population s' = Some pop ∧
  Forall (λ individual, ∃ obj, obj_of individual = Ok obj ∧
                        leb (best_obj_overall s') obj = true) pop.
Proof.
  intros Hpop Hne Hscored Hnan Hrun. split.
  - destruct (update_iter_outcome s s' r Hrun) as (_ & _ & -> & _). done.
  - by eapply update_iter_lower_bound.
Qed.

(** X3. When the elitist's objective is the best objective overall, a
    completed [update_iter] on a scored population keeps it so: the two
    are replaced together, by the same individual, or not at all. *)
Theorem elitist_is_best_preserved s s' pop :
  population s = Some pop → Forall scored pop →
  elitist_is_best s →
  update_iter s = (s', Ok tt) →
  elitist_is_best s'.
Proof.
  intros Hpop Hscored (e & He & Heobj) Hrun.
  destruct (scored_objs pop Hscored) as (objs & Hobjs & Hnans).
  destruct (list_comprehension_lookup _ _ _ Hobjs) as [Hlen Hlook].
  destruct (update_iter_prelude s s' _ Hrun)
    as [(pop' & objs' & m & k & Hpop' & Hobjs' & Hm & Hk)|[_ [err [=]]]].
  rewrite Hpop in Hpop'. injection Hpop' as <-.
  rewrite Hobjs in Hobjs'. injection Hobjs' as <-.
  destruct (min_argmin_spec objs m k Hnans Hm Hk) as (Hkm & Hlow & Hmn).
  rewrite (update_iter_unfold s pop objs m k) in Hrun by done.
  destruct (ltb m (best_obj_overall s)) eqn:Hlt.
  - destruct (update_best_overall_improve pop m k s Hlt)
      as (s1 & r1 & Heq & Hbest & _ & _ & He1 & _).
    rewrite Heq in Hrun. destruct r1 as [[]|]; [|done].
    destruct (update_elitist_cases pop m k s1)
      as [[Hup (e1 & eobj & He' & Heobj' & Hlt')]
         |[(best & Hbest' & Hup & _)|[err Hup]]];
      rewrite Hup in Hrun; [| |done]; injection Hrun as <-.
    + congruence.
    + exists best. split; [done|]. simpl.
      destruct (Hlook k best Hbest') as (y & Hy & Hobj). congruence.
  - rewrite update_best_overall_keep in Hrun by done.
    destruct (update_elitist_cases pop m k s)
      as [[Hup _]|[(best & Hbest' & Hup & [Hnone|(e1 & eobj & He' & Heobj' & Hlt')])
                  |[err Hup]]];
      rewrite Hup in Hrun; [| | |done]; injection Hrun as <-.
    + exists e. done.
    + congruence.
    + congruence.
Qed.

End UpdateIterFacts.

(** ** What a completed [update_iter] records *)

Section Recorded.

Lemma update_best_overall_ok pop m k s s1 :
  ltb m (best_obj_overall s) = true →
  update_best_overall pop m k s = (s1, Ok tt) →
  ∃ best, pop !! k = Some best ∧ best_obj_overall s1 = m ∧
          best_code_overall s1 = best !! "code" ∧
          best_desc_overall s1 = best !! "description" ∧
          best_code_path_overall s1 = best !! "code_path" ∧
          elitist s1 = elitist s.
Proof.
  intros Hlt. unfold update_best_overall, bind, get, modify, lift, list_getitem, getitem, ret.
  rewrite Hlt. simpl.
  destruct (pop !! k) as [best|]; [|done]. simpl.
  destruct (best !! "code") as [code|] eqn:Hcode; [|done]. simpl.
  destruct (best !! "description") as [description|] eqn:Hdesc; [|done]. simpl.
  destruct (best !! "code_path") as [code_path|] eqn:Hpath; [|done]. simpl.
  intros [= <-]. exists best. by rewrite Hcode, Hdesc, Hpath.
Qed.

(** X4. A completed [update_iter] on a scored population works from the
    individual at the first position of the minimum objective: every
    individual before it has a strictly larger objective and none has a
    smaller one. When that objective improves strictly on the best
    overall, the best objective, code, description and code path
    overall all become those of that one individual; otherwise the four
    stay as they were. The elitist afterwards is that individual or the
    old elitist. *)
Theorem update_iter_records_first_minimum s s' pop :
  population s = Some pop → Forall scored pop →
  update_iter s = (s', Ok tt) →
  ∃ k best m,
    pop !! k = Some best ∧ obj_of best = Ok m ∧
    (∀ j x, j < k → pop !! j = Some x →
            ∃ obj, obj_of x = Ok obj ∧ ltb m obj = true) ∧
    Forall (λ x, ∃ obj, obj_of x = Ok obj ∧ leb m obj = true) pop ∧
    (if ltb m (best_obj_overall s)
     then best_obj_overall s' = m ∧ best_code_overall s' = best !! "code" ∧
          best_desc_overall s' = best !! "description" ∧
          best_code_path_overall s' = best !! "code_path"
     else best_obj_overall s' = best_obj_overall s ∧
          best_code_overall s' = best_code_overall s ∧
          best_desc_overall s' = best_desc_overall s ∧
          best_code_path_overall s' = best_code_path_overall s) ∧
    (elitist s' = Some best ∨ elitist s' = elitist s).
Proof.
  intros Hpop Hscored Hrun.
  destruct (scored_objs pop Hscored) as (objs & Hobjs & Hnans).
  destruct (list_comprehension_lookup _ _ _ Hobjs) as [Hlen Hlook].
  destruct (update_iter_prelude s s' _ Hrun)
    as [(pop' & objs' & m & k & Hpop' & Hobjs' & Hm & Hk)|[_ [err [=]]]].
  rewrite Hpop in Hpop'. injection Hpop' as <-.
  rewrite Hobjs in Hobjs'. injection Hobjs' as <-.
  destruct (min_argmin_spec objs m k Hnans Hm Hk) as (Hkm & Hlow & Hmn).
  assert (∃ best, pop !! k = Some best) as [best Hbest].
  { apply lookup_lt_is_Some. rewrite <- Hlen. by apply np_argmin_bound. }
  destruct (Hlook k best Hbest) as (y & Hy & Hobj).
  rewrite Hkm in Hy. injection Hy as <-.
  exists k, best, m. split; [done|]. split; [done|].
  split.
  { intros j x Hj Hx. destruct (Hlook j x Hx) as (y & Hy & Hox).
    exists y. split; [done|]. by apply (argmin_first objs m k Hnans Hm Hk j y). }
  split; [by apply (objs_lower_bound pop objs m)|].
  rewrite (update_iter_unfold s pop objs m k) in Hrun by done.
  destruct (ltb m (best_obj_overall s)) eqn:Hlt.
  - destruct (update_best_overall pop m k s) as [s1 [[]|e]] eqn:Hs1; [|done].
    destruct (update_best_overall_ok pop m k s s1 Hlt Hs1)
      as (best' & Hbest' & Hb & Hc & Hd & Hp & He).
    rewrite Hbest in Hbest'. injection Hbest' as <-.
    destruct (update_elitist_cases pop m k s1)
      as [[Hup _]|[(best' & Hbest' & Hup & _)|[err Hup]]];
      rewrite Hup in Hrun; [| |done]; injection Hrun as <-; simpl.
    + split; [done|]. right. done.
    + split; [done|]. left. congruence.
  - rewrite update_best_overall_keep in Hrun by done.
    destruct (update_elitist_cases pop m k s)
      as [[Hup _]|[(best' & Hbest' & Hup & _)|[err Hup]]];
      rewrite Hup in Hrun; [| |done]; injection Hrun as <-; simpl.
    + split; [done|]. by right.
    + split; [done|]. left. congruence.
Qed.

End Recorded.

(** ** [responses_to_population] in closed form *)

Section Responses.

Variable E : Externals.

Lemma response_to_individual_new response response_id code s :
  process_code E response = Some code →
  response_to_individual E response response_id None s
  = (s, Ok (new_individual (iteration s) response_id code)).
Proof.
  intros Hcode. unfold response_to_individual, bind, get, lift, ret. by rewrite Hcode.
Qed.

Lemma response_to_individual_none response response_id file_name s :
  process_code E response = None →
  response_to_individual E response response_id file_name s
  = (s, Raise (TypeError none_plus_str)).
Proof.
  intros Hcode. unfold response_to_individual, bind, get, lift, ret. by rewrite Hcode.
Qed.

Lemma responses_loop_ok responses codes : ∀ k acc s,
  process_code E <$> responses = Some <$> codes →
  for_each (λ '(response_id, response) population,
              individual <- response_to_individual E response response_id None ;;
              ret (population ++ [individual]))
           (zip (seq k (length responses)) responses) acc s
  = (s, Ok (acc ++ imap (λ i, new_individual (iteration s) (k + i)) codes)).
Proof.
  revert codes. induction responses as [|r responses IH]; intros codes k acc s Hcodes.
  - destruct codes; [|done]. simpl. by rewrite app_nil_r.
  - destruct codes as [|c codes]; [done|]. injection Hcodes as Hc Hcodes.
    cbn [length seq zip zip_with for_each].
    erewrite bind_ok; [|erewrite bind_ok by (by apply response_to_individual_new); done].
    rewrite (IH codes) by done. cbn [imap]. rewrite <- app_assoc. simpl.
    rewrite Nat.add_0_r. do 4 f_equal. apply imap_ext. intros i x _. simpl.
    f_equal. lia.
Qed.

Lemma responses_loop_none responses : ∀ k acc s r,
  r ∈ responses → process_code E r = None →
  for_each (λ '(response_id, response) population,
              individual <- response_to_individual E response response_id None ;;
              ret (population ++ [individual]))
           (zip (seq k (length responses)) responses) acc s
  = (s, Raise (TypeError none_plus_str)).
Proof.
  induction responses as [|r0 responses IH]; intros k acc s r Hin Hnone.
  - by apply elem_of_nil in Hin.
  - cbn [length seq zip zip_with for_each].
    destruct (process_code E r0) as [c|] eqn:Hc.
    + erewrite bind_ok; [|erewrite bind_ok by (by apply response_to_individual_new); done].
      apply elem_of_cons in Hin as [->|Hin]; [congruence|]. by eapply IH.
    + erewrite bind_raise; [done|].
      erewrite bind_raise; [done|]. by apply response_to_individual_none.
Qed.

Lemma responses_to_population_ok responses codes s :
  process_code E <$> responses = Some <$> codes →
  responses_to_population E responses s
  = (s, Ok (imap (new_individual (iteration s)) codes)).
Proof.
  intros Hcodes. unfold responses_to_population, enumerate.
  by rewrite (responses_loop_ok responses codes 0 [] s Hcodes).
Qed.

Lemma responses_to_population_none responses r s :
  r ∈ responses → process_code E r = None →
  responses_to_population E responses s = (s, Raise (TypeError none_plus_str)).
Proof.
  intros Hin Hnone. unfold responses_to_population, enumerate.
  by eapply responses_loop_none.
Qed.

(** every completion has code, or one of them has none *)
Lemma codes_or_none (responses : list string) :
  (∃ codes, process_code E <$> responses = Some <$> codes)
  ∨ (∃ r, r ∈ responses ∧ process_code E r = None).
Proof.
  induction responses as [|r responses [[codes IH]|(r' & Hin & Hnone)]].
  - left. by exists [].
  - destruct (process_code E r) as [c|] eqn:Hc.
    + left. exists (c :: codes). rewrite !fmap_cons. by rewrite Hc, IH.
    + right. exists r. split; [apply elem_of_cons; by left|done].
  - right. exists r'. split; [apply elem_of_cons; by right|done].
Qed.


End Responses.

(** ** [init_population] from the completions to the first elitist *)

Section InitialPopulation.

Variable E : Externals.
Variable cfg : Config.
Variable W : World.

Lemma new_individual_lookup it i code :
  new_individual it i code !! "code" = Some (VStr code) ∧
  new_individual it i code !! "code_path"
  = Some (VStr ("problem_iter" +:+ pretty it +:+ "_code" +:+ pretty i +:+ ".py")) ∧
  new_individual it i code !! "stdout_filepath"
  = Some (VStr (("problem_iter" +:+ pretty it +:+ "_response" +:+ pretty i +:+ ".txt")
                  +:+ "_stdout.txt")) ∧
  new_individual it i code !! "response_id" = Some (VInt (Z.of_nat i)) ∧
  new_individual it i code !! "description" = None ∧
  dom (new_individual it i code) = constructor_keys.
Proof.
  unfold new_individual. split_and!; by simplify_map_eq.
Qed.

Lemma constructor_keys_kept :
  ("code" ∉ evaluation_keys) ∧ ("code_path" ∉ evaluation_keys) ∧
  ("stdout_filepath" ∉ evaluation_keys) ∧ ("response_id" ∉ evaluation_keys) ∧
  ("description" ∉ evaluation_keys).
Proof. unfold evaluation_keys. split_and!; set_unfold; intuition discriminate. Qed.

Lemma filter_all {A : Type} (P : A → Prop) `{∀ x, Decision (P x)} (l : list A) :
  Forall P l → filter P l = l.
Proof.
  induction 1 as [|x l Hx _ IH]; [done|]. rewrite filter_cons_True by done. by f_equal.
Qed.

Lemma new_individuals_submitted it codes :
  filter (λ x, submitted x = true) (imap (new_individual it) codes)
  = imap (new_individual it) codes.
Proof.
  apply filter_all. apply Forall_lookup. intros i x. rewrite list_lookup_imap.
  destruct (codes !! i) as [c|]; [|done]. intros [= <-]. unfold submitted.
  by destruct (new_individual_lookup it i c) as (-> & _).
Qed.

Lemma new_individuals_have_code it codes :
  Forall has_code (imap (new_individual it) codes).
Proof.
  apply Forall_lookup. intros i x. rewrite list_lookup_imap.
  destruct (codes !! i) as [c|]; [|done]. intros [= <-].
  destruct (new_individual_lookup it i c) as (Hc & _).
  unfold has_code. by rewrite Hc.
Qed.

(** the evaluation of generation 0, however it ends: every completion
    counts as one function evaluation *)
Lemma init_population_evaluates s codes :
  process_code E <$> chat_completion W (pop_size cfg) (initial_messages cfg)
  = Some <$> codes →
  let h := harness_at W (iteration s) in
  let batch := imap (new_individual (iteration s)) codes in
  ∃ s1 r,
    evaluate_population E h batch s = (s1, r) ∧
    same_bookkeeping s s1 ∧
    function_evals s1 = function_evals s + length codes ∧
    events s1 = reverse (run_events h batch) ++ events s ∧
    (readable h batch ∧ r = Ok (imap (evaluated E h) batch)
     ∨ ∃ k x e, batch !! k = Some x ∧ unreadable h (after_launch h k x) = Some e ∧
                r = Raise e ∧
                init_population E cfg W s = (s1, Raise e)).
Proof.
  intros Hcodes h batch.
  destruct (evaluate_population_run E h batch s
              (new_individuals_have_code (iteration s) codes))
    as (s1 & r & Heval & Hsame & Hfe & Hev & Hr).
  exists s1, r. split_and!; try done.
  - rewrite Hfe. f_equal. unfold batch.
    rewrite (new_individuals_submitted (iteration s) codes). by rewrite length_imap.
  - destruct Hr as [?|(k & x & e & Hk & He & _ & ->)]; [by left|right].
    exists k, x, e. split_and!; try done.
    unfold init_population. cbv zeta.
    change [("system", generator_system_prompt cfg); ("user", initial_user cfg);
            ("assistant", seed_function cfg);
            ("user", "Improve over the above code. " +:+ nl +:+ "[code]:" +:+ nl)]
      with (initial_messages cfg).
    erewrite bind_ok by (by apply responses_to_population_ok).
    erewrite bind_ok by done.
    by erewrite bind_raise by exact Heval.
Qed.

Lemma init_population_run s codes :
  elitist s = None → codes ≠ [] →
  process_code E <$> chat_completion W (pop_size cfg) (initial_messages cfg)
  = Some <$> codes →
  readable (harness_at W (iteration s)) (imap (new_individual (iteration s)) codes) →
  let h := harness_at W (iteration s) in
  let batch := imap (new_individual (iteration s)) codes in
  let pop := imap (evaluated E h) batch in
  ∃ s1 objs m k best,
    evaluate_population E h batch s = (s1, Ok pop) ∧
    same_bookkeeping s s1 ∧
    function_evals s1 = function_evals s + length codes ∧
    events s1 = reverse (evaluation_events h batch) ++ events s ∧
    list_comprehension obj_of pop = Ok objs ∧
    Forall (λ y, is_nan y = false) objs ∧
    py_min objs = Ok m ∧ np_argmin objs = Ok k ∧ pop !! k = Some best ∧
    init_population E cfg W s
    = (set_iteration (iteration s + 1)
         (set_elitist (Some best)
            (set_population pop
               (set_best_code_path_overall
                  (VStr ("problem_iter" +:+ pretty (iteration s) +:+ "_code"
                           +:+ pretty k +:+ ".py"))
                  (set_best_code_overall (default VNone (best !! "code"))
                     (set_best_obj_overall m s1))))), Ok tt) ∧
    (∃ code, codes !! k = Some code ∧ best !! "code" = Some (VStr code)).
Proof.
  intros Helit Hne Hcodes Hread h batch pop.
  assert (Hcode : Forall has_code batch)
    by apply new_individuals_have_code.
  destruct (evaluate_population_returns E h batch s Hcode Hread)
    as (s1 & Heval & Hsame & Hfe & Hev).
  assert (Hscored : Forall scored pop).
  { apply Forall_lookup. intros i x. unfold pop. rewrite list_lookup_imap.
    destruct (batch !! i) as [y|] eqn:Hy; [|done]. intros [= <-].
    apply evaluated_scored. by eapply Forall_lookup_1. }
  destruct (scored_objs pop Hscored) as (objs & Hobjs & Hnan).
  destruct (list_comprehension_lookup _ _ _ Hobjs) as [Hlen Hlook].
  assert (length pop = length codes) as Hlenp
    by (unfold pop, batch; by rewrite !length_imap).
  assert (objs ≠ []) as Hobjne.
  { intros ->. destruct codes; [done|]. simpl in *. lia. }
  destruct (min_argmin_defined objs Hobjne) as (m & k & Hm & Hk).
  assert (k < length codes) as Hklt.
  { rewrite <- Hlenp, <- Hlen. by apply np_argmin_bound. }
  destruct (lookup_lt_is_Some_2 codes k Hklt) as [code Hck].
  assert (batch !! k = Some (new_individual (iteration s) k code)) as Hbk.
  { unfold batch. rewrite list_lookup_imap. by rewrite Hck. }
  set (best := evaluated E h k (new_individual (iteration s) k code)).
  assert (pop !! k = Some best) as Hbest.
  { unfold pop. rewrite list_lookup_imap. by rewrite Hbk. }
  destruct (new_individual_lookup (iteration s) k code) as (Hc & Hp & _).
  assert (best !! "code" = Some (VStr code)) as Hbc.
  { unfold best. rewrite evaluated_other; [done| |apply constructor_keys_kept].
    unfold has_code. by rewrite Hc. }
  assert (best !! "code_path"
          = Some (VStr ("problem_iter" +:+ pretty (iteration s) +:+ "_code"
                          +:+ pretty k +:+ ".py"))) as Hbp.
  { unfold best. rewrite evaluated_other; [done| |apply constructor_keys_kept].
    unfold has_code. by rewrite Hc. }
  exists s1, objs, m, k, best. split_and!; try done.
  - rewrite Hfe. f_equal. unfold batch.
    rewrite (new_individuals_submitted (iteration s) codes). by rewrite length_imap.
  - unfold init_population. cbv zeta. unfold best, pop, batch, h in *.
    change [("system", generator_system_prompt cfg); ("user", initial_user cfg);
            ("assistant", seed_function cfg);
            ("user", "Improve over the above code. " +:+ nl +:+ "[code]:" +:+ nl)]
      with (initial_messages cfg).
    erewrite bind_ok by (by apply responses_to_population_ok).
    erewrite bind_ok by done.
    erewrite bind_ok by exact Heval.
    erewrite bind_ok by (unfold lift; by rewrite Hobjs).
    erewrite bind_ok by (unfold lift; by rewrite Hm).
    erewrite bind_ok by (unfold lift; by rewrite Hk).
    erewrite bind_ok by done.
    erewrite bind_ok by (unfold lift, list_getitem; by rewrite Hbest).
    erewrite bind_ok by (unfold lift, getitem; by rewrite Hbc).
    erewrite bind_ok by done.
    erewrite bind_ok by (unfold lift, getitem; by rewrite Hbp).
    erewrite bind_ok by done. erewrite bind_ok by done.
    rewrite Hbc. simpl.
    erewrite (update_iter_after_init _ objs m k); try done.
    + simpl. destruct Hsame as (-> & _). done.
    + simpl. destruct Hsame as (_ & -> & _). done.
  - eauto.
Qed.


Lemma init_population_no_code s r :
  r ∈ chat_completion W (pop_size cfg) (initial_messages cfg) →
  process_code E r = None →
  init_population E cfg W s = (s, Raise (TypeError none_plus_str)).
Proof.
  intros Hin Hr. unfold init_population. cbv zeta.
  erewrite bind_raise; [done|]. by eapply responses_to_population_none.
Qed.

Lemma init_population_no_completion s :
  chat_completion W (pop_size cfg) (initial_messages cfg) = [] →
  init_population E cfg W s
  = (s, Raise (ValueError "min() arg is an empty sequence")).
Proof.
  intros Hr. unfold init_population. cbv zeta.
  change [("system", generator_system_prompt cfg); ("user", initial_user cfg);
          ("assistant", seed_function cfg);
          ("user", "Improve over the above code. " +:+ nl +:+ "[code]:" +:+ nl)]
    with (initial_messages cfg).
  by rewrite Hr.
Qed.


End InitialPopulation.

(** ** Selection and variation: what they return and where they stop *)

Section Loops.

Lemma for_each_unchanged {A B : Type} (body : A → B → M B) l acc s :
  (∀ x, x ∈ l → body x acc s = (s, Ok acc)) →
  for_each body l acc s = (s, Ok acc).
Proof.
  induction l as [|x l IH]; intros Hbody; [done|]. cbn [for_each].
  erewrite bind_ok by (apply Hbody, elem_of_cons; by left).
  apply IH. intros y Hy. apply Hbody, elem_of_cons. by right.
Qed.

Lemma for_each_stops {A B : Type} (body : A → B → M B) pre x post acc s e :
  (∀ y, y ∈ pre → body y acc s = (s, Ok acc)) →
  body x acc s = (s, Raise e) →
  for_each body (pre ++ x :: post) acc s = (s, Raise e).
Proof.
  induction pre as [|y pre IH]; intros Hpre Hx; simpl.
  - by erewrite bind_raise.
  - erewrite bind_ok by (apply Hpre, elem_of_cons; by left).
    apply IH; [|done]. intros z Hz. apply Hpre, elem_of_cons. by right.
Qed.

Lemma list_comprehension_raises {A B : Type} (f : A → result B) l e x :
  (∀ y, y ∈ l → f y = Raise e ∨ ∃ b, f y = Ok b) →
  x ∈ l → f x = Raise e →
  list_comprehension f l = Raise e.
Proof.
  induction l as [|y l IH]; intros Hall Hin Hx; [by apply elem_of_nil in Hin|].
  cbn [list_comprehension].
  destruct (Hall y) as [Hy|[b Hy]]; [apply elem_of_cons; by left|by rewrite Hy|].
  rewrite Hy. simpl. apply elem_of_cons in Hin as [->|Hin]; [congruence|].
  rewrite IH; [done| |done..]. intros z Hz. apply Hall, elem_of_cons. by right.
Qed.

End Loops.

Section Variation.

Variable E : Externals.
Variable cfg : Config.
Variable W : World.

(** *** [random_select] *)

Lemma random_select_selected pool :
  returns (random_select cfg W pool)
          (λ selected, length selected = 2 * pop_size cfg ∧
                       Forall (λ x, x ∈ pool ∧ successful x) selected).
Proof.
  unfold random_select.
  eapply returns_bind; [apply returns_true|]. intros s _.
  intros s0 s' selected. unfold bind at 1, lift at 1.
  destruct (list_comprehension _ pool) as [flags|] eqn:Hflags; [|done].
  revert s0 s' selected. cbv zeta.
  set (good := fst <$> filter (λ p, p.2 = true) flags).
  assert (Hgood : Forall (λ x, x ∈ pool ∧ successful x) good).
  { apply Forall_forall. intros x ([x' b] & -> & Hin)%list_elem_of_fmap_1.
    apply list_elem_of_filter in Hin as [Hb Hin]. simpl in Hb. subst b.
    destruct (list_comprehension_elem _ _ _ _ Hflags Hin) as (y & Hy & Hf).
    unfold rbind, getitem in Hf.
    destruct (y !! "exec_success") as [v|] eqn:Hv; [|done].
    injection Hf as <- Ht. simpl. split; [done|]. exists v. by split. }
  eapply (returns_bind _ _ (Forall (λ x, x ∈ pool ∧ successful x))).
  - apply returns_for_each; [|done]. intros draw acc _ Hacc.
    intros s0 s' r. unfold bind, lift, ret.
    destruct (np_random_choice2 _ good) as [[x y]|] eqn:Hch; [|done].
    intros [= _ <-]. apply np_random_choice2_elem in Hch as [Hx Hy].
    rewrite Forall_forall in Hgood.
    apply Forall_app. split; [done|]. repeat constructor; by apply Hgood.
  - intros selected Hsel. eapply returns_weaken; [apply returns_assert_ret|].
    simpl. by intros r [? ->].
Qed.

Lemma random_select_unevaluated pool s x :
  x ∈ pool → x !! "exec_success" = None →
  random_select cfg W pool s = (s, Raise (KeyError "exec_success")).
Proof.
  intros Hin Hx. unfold random_select. erewrite bind_ok by done.
  erewrite bind_raise; [done|]. unfold lift.
  erewrite (list_comprehension_raises _ pool (KeyError "exec_success") x); try done.
  - intros y _. unfold rbind, getitem. destruct (y !! "exec_success"); eauto.
  - unfold rbind, getitem. by rewrite Hx.
Qed.

Lemma random_select_nobody pool s :
  pop_size cfg = 0 → Forall (λ x, is_Some (x !! "exec_success")) pool →
  random_select cfg W pool s = (s, Ok []).
Proof.
  intros Hzero Hall. unfold random_select. erewrite bind_ok by done.
  destruct (success_flags pool Hall) as (flags & Hflags & _).
  erewrite bind_ok by (unfold lift; by rewrite Hflags).
  rewrite Hzero. simpl. done.
Qed.

(** X8. What [random_select] returns is made of individuals of the pool
    whose [exec_success] is true, twice [pop_size] of them, and the
    object state is not changed. One pool member without the field
    [exec_success] makes it raise [KeyError]. With [pop_size] zero it
    returns the empty list on every evaluated pool. *)
Theorem random_select_successful_only pool s :
  (∀ s' selected, random_select cfg W pool s = (s', Ok selected) →
     s' = s ∧ length selected = 2 * pop_size cfg ∧
     Forall (λ x, x ∈ pool ∧ successful x) selected) ∧
  (∀ x, x ∈ pool → x !! "exec_success" = None →
     random_select cfg W pool s = (s, Raise (KeyError "exec_success"))) ∧
  (pop_size cfg = 0 → Forall (λ x, is_Some (x !! "exec_success")) pool →
     random_select cfg W pool s = (s, Ok [])).
Proof.
  split_and!.
  - intros s' selected Hrun.
    pose proof (random_select_reads cfg W pool s) as Hs. rewrite Hrun in Hs.
    simpl in Hs. subst s'. split; [done|].
    by apply (random_select_selected pool s s selected).
  - intros x. apply random_select_unevaluated.
  - apply random_select_nobody.
Qed.

(** *** [crossover] *)

Lemma crossover_stops pool s :
  0 < pop_size cfg → length pool = 2 * pop_size cfg →
  ∃ parent_1 parent_2,
    pool !! 0 = Some parent_1 ∧ pool !! 1 = Some parent_2 ∧
    crossover E cfg W pool s = (s, Raise (crossover_error parent_1 parent_2)).
Proof.
  intros Hpos Hlen. unfold crossover.
  erewrite bind_ok by done.
  erewrite bind_ok by (rewrite bool_decide_true by lia; reflexivity).
  rewrite Hlen. destruct (range_step2_even (pop_size cfg) Hpos) as [l ->].
  destruct pool as [|parent_1 [|parent_2 pool]]; simpl in Hlen; [lia..|].
  exists parent_1, parent_2. split; [done|]. split; [done|].
  erewrite bind_raise; [done|]. cbn [for_each].
  erewrite bind_raise; [done|].
  unfold crossover_error, bind, lift, list_getitem, getitem, system_and_user, getattr.
  simpl.
  destruct (parent_1 !! "code"); [|done].
  destruct (parent_2 !! "code"); [|done].
  destruct (parent_1 !! "description"); [|done].
  destruct (parent_2 !! "description"); done.
Qed.

Lemma crossover_wrong_length pool s :
  length pool ≠ 2 * pop_size cfg →
  crossover E cfg W pool s = (s, Raise (AssertionError "")).
Proof.
  intros Hlen. unfold crossover. erewrite bind_ok by done.
  erewrite bind_raise; [done|]. unfold py_assert. by rewrite bool_decide_false by lia.
Qed.

Lemma crossover_raises pool s :
  0 < pop_size cfg → ∃ e, crossover E cfg W pool s = (s, Raise e).
Proof.
  intros Hpos. destruct (decide (length pool = 2 * pop_size cfg)) as [Hlen|Hlen].
  - destruct (crossover_stops pool s Hpos Hlen) as (? & ? & _ & _ & ->). eauto.
  - rewrite crossover_wrong_length by done. eauto.
Qed.

Lemma crossover_ok pool s s' crossed :
  crossover E cfg W pool s = (s', Ok crossed) →
  s' = s ∧ pop_size cfg = 0 ∧ pool = [] ∧ crossed = [].
Proof.
  intros Hrun.
  assert (pop_size cfg = 0) as Hzero.
  { destruct (decide (0 < pop_size cfg)) as [Hpos|]; [|lia].
    destruct (crossover_raises pool s Hpos) as [e He]. congruence. }
  pose proof (crossover_reads E cfg W pool s) as Hs. rewrite Hrun in Hs.
  simpl in Hs. subst s'. split; [done|]. split; [done|].
  split.
  - destruct (decide (length pool = 2 * pop_size cfg)) as [Hlen|Hlen].
    + rewrite Hzero in Hlen. by destruct pool.
    + rewrite crossover_wrong_length in Hrun by done. done.
  - pose proof (crossover_returns E cfg W pool s s crossed Hrun) as Hlen.
    simpl in Hlen. rewrite Hzero in Hlen. by destruct crossed.
Qed.

(** X9. [crossover] never produces offspring. With a positive
    [pop_size] it always raises, leaving the object state alone:
    [AssertionError] on a pool that does not have twice [pop_size]
    entries, and otherwise in its first round, on the first two
    parents, [KeyError] for the first missing [code] or [description]
    and, when both parents carry both, [AttributeError] for
    [self.system_prompt], which no method assigns. It returns only when
    [pop_size] is zero, and then the empty list on the empty pool. *)
Theorem crossover_never_returns pool s :
  (length pool ≠ 2 * pop_size cfg →
     crossover E cfg W pool s = (s, Raise (AssertionError ""))) ∧
  (0 < pop_size cfg → length pool = 2 * pop_size cfg →
     ∃ parent_1 parent_2,
       pool !! 0 = Some parent_1 ∧ pool !! 1 = Some parent_2 ∧
       crossover E cfg W pool s = (s, Raise (crossover_error parent_1 parent_2))) ∧
  (∀ s' crossed, crossover E cfg W pool s = (s', Ok crossed) →
     s' = s ∧ pop_size cfg = 0 ∧ pool = [] ∧ crossed = []).
Proof.
  split_and!.
  - apply crossover_wrong_length.
  - apply crossover_stops.
  - apply crossover_ok.
Qed.

End Variation.

Section Mutation.

Variable E : Externals.
Variable cfg : Config.
Variable W : World.

(** *** [mutate] *)

(** the first position below [n] at which [f] is true, if there is one *)
Lemma first_true (f : nat → bool) n :
  (∀ i, i < n → f i = false)
  ∨ (∃ i, i < n ∧ f i = true ∧ ∀ j, j < i → f j = false).
Proof.
  induction n as [|n [IH|(i & Hi & Hf & Hfirst)]].
  - left. intros i Hi. lia.
  - destruct (f n) eqn:Hn.
    + right. exists n. split; [lia|]. done.
    + left. intros i Hi. destruct (decide (i = n)) as [->|]; [done|]. apply IH. lia.
  - right. exists i. split; [lia|]. done.
Qed.

Lemma mutate_stops pool s i individual :
  pool !! i = Some individual →
  mutation_draw W (iteration s) i = true →
  (∀ j, j < i → mutation_draw W (iteration s) j = false) →
  mutate E cfg W pool s = (s, Raise (mutate_error individual)).
Proof.
  intros Hi Hdraw Hfirst. unfold mutate. erewrite bind_ok by done.
  erewrite bind_raise; [done|].
  assert (i < length pool) as Hlt by (by eapply lookup_lt_Some).
  replace (seq 0 (length pool))
    with (seq 0 i ++ i :: seq (S i) (length pool - S i)).
  2: { replace (length pool) with (i + S (length pool - S i)) at 2 by lia.
       by rewrite seq_app. }
  apply for_each_stops.
  - intros j Hj. apply elem_of_seq in Hj.
    destruct (lookup_lt_is_Some_2 pool j) as [x Hx]; [lia|].
    unfold bind, lift, list_getitem, ret. rewrite Hx.
    by rewrite Hfirst by lia.
  - unfold mutate_error, bind, lift, list_getitem, getitem, system_and_user, getattr, ret.
    rewrite Hi, Hdraw. simpl.
    destruct (individual !! "code"); [|done].
    destruct (individual !! "description"); done.
Qed.

Lemma mutate_no_draw pool s :
  (∀ i, i < length pool → mutation_draw W (iteration s) i = false) →
  mutate E cfg W pool s =
  match multi_chat_completion W (iteration s) [] with
  | [] => if bool_decide (length pool = pop_size cfg) then (s, Ok pool)
          else (s, Raise (AssertionError ""))
  | _ :: _ => (s, Raise (IndexError "list index out of range"))
  end.
Proof.
  intros Hnone. unfold mutate. erewrite bind_ok by done.
  erewrite bind_ok.
  2: { apply for_each_unchanged. intros j Hj. apply elem_of_seq in Hj.
       destruct (lookup_lt_is_Some_2 pool j) as [x Hx]; [lia|].
       unfold bind, lift, list_getitem, ret. rewrite Hx.
       by rewrite Hnone by lia. }
  cbv zeta beta iota.
  destruct (multi_chat_completion W (iteration s) []) as [|responses rest].
  - simpl. unfold bind, py_assert, ret. by case_bool_decide.
  - erewrite bind_raise; [done|]. unfold enumerate. cbn [length seq zip zip_with for_each].
    erewrite bind_raise; [done|]. by erewrite bind_raise.
Qed.

Lemma mutate_ok pool s s' mutated :
  mutate E cfg W pool s = (s', Ok mutated) →
  s' = s ∧ mutated = pool ∧ length pool = pop_size cfg ∧
  multi_chat_completion W (iteration s) [] = [] ∧
  ∀ i, i < length pool → mutation_draw W (iteration s) i = false.
Proof.
  intros Hrun.
  destruct (first_true (mutation_draw W (iteration s)) (length pool))
    as [Hnone|(i & Hi & Hdraw & Hfirst)].
  - rewrite (mutate_no_draw pool s Hnone) in Hrun.
    destruct (multi_chat_completion W (iteration s) []); [|done].
    case_bool_decide; [|done]. injection Hrun as <- <-. done.
  - destruct (lookup_lt_is_Some_2 pool i Hi) as [x Hx].
    rewrite (mutate_stops pool s i x Hx Hdraw Hfirst) in Hrun. done.
Qed.

(** X10. [mutate] never changes the population. On the first individual
    drawn for mutation it raises, leaving the object state alone:
    [KeyError] when the individual has no [code] or no [description],
    and [AttributeError] for [self.system_prompt] when it has both.
    It returns only when no individual is drawn, the population has
    [pop_size] entries and the model answers the empty request with the
    empty list; what it returns is then the population it was given. *)
Theorem mutate_never_mutates pool s :
  (∀ i individual,
     pool !! i = Some individual →
     mutation_draw W (iteration s) i = true →
     (∀ j, j < i → mutation_draw W (iteration s) j = false) →
     mutate E cfg W pool s = (s, Raise (mutate_error individual))) ∧
  (∀ s' mutated, mutate E cfg W pool s = (s', Ok mutated) →
     s' = s ∧ mutated = pool ∧ length pool = pop_size cfg ∧
     multi_chat_completion W (iteration s) [] = [] ∧
     ∀ i, i < length pool → mutation_draw W (iteration s) i = false) ∧
  ((∀ i, i < length pool → mutation_draw W (iteration s) i = false) →
   multi_chat_completion W (iteration s) [] = [] →
   length pool = pop_size cfg →
   mutate E cfg W pool s = (s, Ok pool)).
Proof.
  split_and!.
  - apply mutate_stops.
  - apply mutate_ok.
  - intros Hnone Hmodel Hlen. rewrite mutate_no_draw by done.
    rewrite Hmodel. by rewrite bool_decide_true.
Qed.

(** *** [generation] and [evolve] *)

Lemma generation_stops s :
  ∃ s' e, generation E cfg W s = (s', Raise e) ∧
          (s' = s ∨ pop_size cfg = 0 ∧ s' = set_population [] s).
Proof.
  unfold generation.
  destruct (diversify cfg).
  { erewrite bind_raise by done. eauto. }
  erewrite bind_ok by done. erewrite bind_ok by done.
  destruct (population s) as [pop|] eqn:Hpop.
  2: { erewrite bind_raise by (unfold getattr; by rewrite Hpop). eauto. }
  erewrite bind_ok by (unfold getattr; by rewrite Hpop). cbv zeta.
  set (pool := match elitist s with Some e => [e] ++ pop | None => pop end).
  pose proof (reads_only_run _ s (random_select_reads cfg W pool)) as Hsel.
  destruct ((random_select cfg W pool s).2) as [selected|e] eqn:Hr;
    [|erewrite bind_raise by exact Hsel; eauto].
  erewrite bind_ok by exact Hsel.
  pose proof (reads_only_run _ s (crossover_reads E cfg W selected)) as Hcr.
  destruct ((crossover E cfg W selected s).2) as [crossed|e] eqn:Hc;
    [|erewrite bind_raise by exact Hcr; eauto].
  erewrite bind_ok by exact Hcr.
  destruct (crossover_ok E cfg W selected s s crossed Hcr) as (_ & Hzero & _ & ->).
  pose proof (reads_only_run _ s (mutate_reads E cfg W [])) as Hmu.
  destruct ((mutate E cfg W [] s).2) as [mutated|e] eqn:Hm;
    [|erewrite bind_raise by exact Hmu; eauto].
  erewrite bind_ok by exact Hmu.
  destruct (mutate_ok [] s s mutated Hmu) as (_ & -> & _).
  erewrite bind_ok by done.
  erewrite bind_ok by (apply evaluate_population_eq; constructor).
  erewrite bind_ok by done.
  match goal with
  | |- ∃ s' e, update_iter ?s0 = _ ∧ _ =>
      destruct (update_iter_empty s0) as [e He]; [done|]; rewrite He
  end.
  eexists _, _. split; [done|]. right. split; [done|]. done.
Qed.

Lemma evolve_return_ok s s' r :
  evolve_return s = (s', Ok r) →
  s' = s ∧ best_code_overall s = Some r.1.1 ∧ best_desc_overall s = Some r.1.2 ∧
  best_code_path_overall s = Some r.2.
Proof.
  unfold evolve_return, bind, getattr, ret.
  destruct (best_code_overall s); [|done].
  destruct (best_desc_overall s); [|done].
  destruct (best_code_path_overall s); [|done].
  by intros [= <- <-].
Qed.

(** X11. No round of the loop of [evolve] completes, whatever the state
    of the object: with budget left, [evolve] ends in an exception
    within its first round, before any individual is evaluated (the
    evaluation counter and the process events are as they were). So
    [evolve] returns only when the budget is already used up at the
    call, without changing the state, and what it returns is the three
    stored attributes. *)
Theorem evolve_stops_in_first_round fuel s :
  (function_evals s < max_fe cfg →
   ∃ s' e, evolve E cfg W (S fuel) s = Some (s', Raise e) ∧
           function_evals s' = function_evals s ∧ events s' = events s ∧
           iteration s' = iteration s ∧ elitist s' = elitist s ∧
           best_obj_overall s' = best_obj_overall s) ∧
  (max_fe cfg ≤ function_evals s →
   evolve E cfg W fuel s = Some (evolve_return s)) ∧
  (∀ s' r, evolve E cfg W fuel s = Some (s', Ok r) →
     s' = s ∧ max_fe cfg ≤ function_evals s ∧
     best_code_overall s = Some r.1.1 ∧ best_desc_overall s = Some r.1.2 ∧
     best_code_path_overall s = Some r.2).
Proof.
  split_and!.
  - intros Hfe. cbn [evolve]. rewrite bool_decide_true by done.
    destruct (generation_stops s) as (s' & e & -> & [->|[_ ->]]);
      eexists _, _; by split_and!.
  - intros Hfe. destruct fuel; cbn [evolve]; by rewrite bool_decide_false by lia.
  - intros s' r. destruct fuel as [|fuel]; cbn [evolve]; case_bool_decide as Hfe;
      try done.
    + intros [= Hret]. apply evolve_return_ok in Hret. split_and!; try tauto. lia.
    + by destruct (generation_stops s) as (s1 & e & -> & _).
    + intros [= Hret]. apply evolve_return_ok in Hret. split_and!; try tauto. lia.
Qed.


(** X13. A run never gets past generation 0. [G2A(cfg, root_dir)]
    followed by [evolve()] ends in an exception within the first round
    of the loop: in the constructor, with nothing evaluated; or in the
    constructor, in the evaluation of generation 0, when the capture of
    a finished run cannot be read back, with one function evaluation
    counted per completion of the initial request, the iteration
    counter still at 0 and neither population nor elitist stored; or
    after the constructor, with the iteration counter at 1 and exactly
    one function evaluation per completion of the initial request: no
    offspring is ever evaluated. The best description overall is never
    assigned. *)
Theorem run_ends_in_generation_zero fuel :
  let responses := chat_completion W (pop_size cfg) (initial_messages cfg) in
  ∃ s e, run E cfg W (S fuel) = Some (s, Raise e) ∧
         best_desc_overall s = None ∧
         (s = init_state
          ∨ (∃ codes k x,
               process_code E <$> responses = Some <$> codes ∧
               imap (new_individual 0) codes !! k = Some x ∧
               unreadable (harness_at W 0) (after_launch (harness_at W 0) k x)
               = Some e ∧
               iteration s = 0 ∧ function_evals s = length responses ∧
               elitist s = None ∧ population s = None)
          ∨ iteration s = 1 ∧ function_evals s = length responses ∧
            is_Some (elitist s) ∧ is_Some (best_code_overall s)).
Proof.
  intros responses. unfold run.
  destruct (codes_or_none E responses) as [[codes Hc]|(r & Hin & Hr)].
  2: { rewrite (init_population_no_code E cfg W init_state r Hin Hr).
       eexists _, _. split; [done|]. split; [done|]. by left. }
  destruct codes as [|c codes].
  { rewrite init_population_no_completion
      by (by apply (fmap_nil_inv (process_code E))).
    eexists _, _. split; [done|]. split; [done|]. by left. }
  assert (length (c :: codes) = length responses) as Hlen.
  { apply (f_equal length) in Hc. by rewrite !length_fmap in Hc. }
  destruct (init_population_evaluates E cfg W init_state (c :: codes) Hc)
    as (s0 & r & _ & Hsame0 & Hfe0 & _
        & [[Hread _]|(k & x & e & Hk & He & _ & Hrun)]).
  2: { rewrite Hrun. exists s0, e. split; [done|].
       destruct Hsame0 as (Hi & Hel & _ & _ & Hd & _ & Hp).
       split; [by rewrite Hd|]. right. left. exists (c :: codes), k, x.
       split_and!; try done. by rewrite Hfe0, Hlen. }
  destruct (init_population_run E cfg W init_state (c :: codes) eq_refl) as
    (s1 & objs & m & k & best & _ & Hsame & Hfe & _ & _ & _ & _ & _ & _ & -> & code & _ & Hbc);
    [done..|].
  destruct Hsame as (_ & _ & _ & _ & Hd & _).
  set (s := set_iteration _ _).
  assert (best_desc_overall s = None ∧ iteration s = 1 ∧
          function_evals s = length responses ∧ is_Some (elitist s) ∧
          is_Some (best_code_overall s)) as (Hd' & Hi' & Hf' & He' & Hc').
  { unfold s. simpl. rewrite Hd, Hfe, Hlen. split_and!; try done; eauto. }
  cbn [evolve]. case_bool_decide.
  - destruct (generation_stops s) as (s' & e & -> & [->|[_ ->]]);
      eexists _, _; (split; [done|]); (split; [done|]); right; right; by split_and!.
  - destruct Hc' as [code' Hcode'].
    exists s, (AttributeError "best_desc_overall"). split.
    + unfold evolve_return, bind, getattr. by rewrite Hcode', Hd'.
    + split; [done|]. right. right. by split_and!.
Qed.

End Mutation.

(** ** The objective line of a capture *)

Section Lines.

Variable E : Externals.

Lemma split_newline_one_line s : one_line s = true → split_newline s = [s].
Proof.
  induction s as [|c s IH]; [done|]. simpl.
  destruct (Ascii.eqb c newline); [done|]. simpl. intros Hs. by rewrite IH.
Qed.

Lemma split_newline_line a b :
  one_line a = true → split_newline (a +:+ nl +:+ b) = a :: split_newline b.
Proof.
  induction a as [|c a IH]; simpl.
  - done.
  - destruct (Ascii.eqb c newline); [done|]. simpl. intros Ha. by rewrite IH.
Qed.

(** splitting what was joined gives the lines back *)
Lemma split_join_newline lines :
  lines ≠ [] → Forall (λ l, one_line l = true) lines →
  split_newline (join_newline lines) = lines.
Proof.
  induction lines as [|line lines IH]; [done|]. intros _ Hall.
  inversion Hall as [|? ? Hline Hrest]; subst.
  destruct lines as [|line' lines].
  - simpl. by apply split_newline_one_line.
  - change (join_newline (line :: line' :: lines))
      with (line +:+ nl +:+ join_newline (line' :: lines)).
    rewrite split_newline_line by done. f_equal. by apply IH.
Qed.

Lemma index_neg2_last_but_one {A : Type} (pre : list A) x y :
  index_neg2 (pre ++ [x; y]) = Ok x.
Proof.
  unfold index_neg2. rewrite length_app. simpl.
  replace (length pre + 2 - 2) with (length pre) by lia.
  rewrite list_lookup_middle by done. rewrite decide_True by lia. done.
Qed.

Lemma parse_objective_one_line capture :
  one_line capture = true → parse_objective E capture = None.
Proof.
  intros Hone. unfold parse_objective. by rewrite split_newline_one_line.
Qed.

Lemma classify_one_line individual capture :
  one_line capture = true →
  classify E individual capture =
  mark_invalid_individual individual
    (if decide (filter_traceback E capture = "")
     then "Invalid std out / objective value!" else filter_traceback E capture).
Proof.
  intros Hone. unfold classify. case_decide; [|done].
  unfold read_objective. by rewrite split_newline_one_line.
Qed.

(** X14. The objective of a run is read from the second-to-last line of
    its capture: for a capture made of at least two lines, the text
    handed to [float] is the line before the last one, whatever comes
    before it and whatever follows the last line feed. A capture
    without a line feed has no objective line: the individual is marked
    invalid whatever [float] would accept. *)
Theorem objective_is_second_to_last_line lines :
  lines ≠ [] → Forall (λ l, one_line l = true) lines →
  split_newline (join_newline lines) = lines ∧
  (∀ pre line last, lines = pre ++ [line; last] →
     parse_objective E (join_newline lines) = py_float E line) ∧
  (∀ line individual, lines = [line] →
     parse_objective E (join_newline lines) = None ∧
     classify E individual (join_newline lines) =
     mark_invalid_individual individual
       (if decide (filter_traceback E line = "")
        then "Invalid std out / objective value!" else filter_traceback E line)).
Proof.
  intros Hne Hall. pose proof (split_join_newline lines Hne Hall) as Hsplit.
  split_and!; [done|..].
  - intros pre line last ->. unfold parse_objective. rewrite Hsplit.
    by rewrite index_neg2_last_but_one.
  - intros line individual ->. inversion Hall; subst. simpl.
    split; [by apply parse_objective_one_line|by apply classify_one_line].
Qed.

End Lines.

(** ** The process trace of [evaluate_population] *)

Section ProcessTrace.

Variable E : Externals.
Variable h : Harness.

Lemma launch_events_slots (os : list (option nat)) :
  mjoin ((λ o : option nat, if o is Some p then [EvLaunch p] else []) <$> os)
  = EvLaunch <$> omap id os.
Proof.
  induction os as [|[p|] os IH]; [done|..]; cbn [fmap list_fmap mjoin list_join omap list_omap].
  - simpl. by f_equal.
  - done.
Qed.

Lemma wait_events_slots (entries : list (Individual * option nat)) :
  mjoin (wait_events h <$> entries) = mjoin (wait_trace h <$> omap id (entries.*2)).
Proof.
  induction entries as [|[x [p|]] entries IH]; [done|..];
    cbn [fmap list_fmap mjoin list_join omap list_omap].
  - simpl. by f_equal.
  - done.
Qed.

(** the events of the first loop are the launches of the started slots *)
Lemma launches_slots population :
  mjoin (imap (launch_events h) population) = EvLaunch <$> launched_slots h population.
Proof.
  unfold launched_slots. rewrite <- launch_events_slots. f_equal.
  rewrite fmap_imap. apply imap_ext. intros i x _. simpl. unfold launch_events.
  by destruct (submitted x && started h x i).
Qed.

Lemma waits_slots population :
  mjoin (wait_events h <$> imap (after_launch h) population)
  = mjoin (wait_trace h <$> waited_slots h population).
Proof.
  unfold waited_slots. rewrite wait_events_slots. do 3 f_equal.
  rewrite fmap_imap. by apply imap_ext.
Qed.

Lemma evaluation_events_slots population :
  evaluation_events h population
  = (EvLaunch <$> launched_slots h population)
    ++ mjoin (wait_trace h <$> waited_slots h population).
Proof.
  unfold evaluation_events. by rewrite launches_slots, waits_slots.
Qed.

Lemma run_events_slots population :
  run_events h population
  = (EvLaunch <$> launched_slots h population)
    ++ mjoin (wait_trace h <$>
                waited_slots h
                  (take (reach h (imap (after_launch h) population)) population)).
Proof.
  unfold run_events. by rewrite launches_slots, waits_slots.
Qed.

Lemma after_launch_slot i x p :
  (after_launch h i x).2 = Some p →
  p = i ∧ code_not_null x ∧ launch_result h x i = Ok i.
Proof.
  unfold after_launch, code_not_null.
  destruct (x !! "code") as [[]|];
    try (destruct (launch_result h x i) eqn:Hl; simpl; [|done];
         intros [= <-]; apply launch_result_process in Hl as Hp;
         destruct Hp as [-> _]; done).
Qed.

Lemma increasing_cons p l :
  Forall (λ q, p < q) l → increasing l → increasing (p :: l).
Proof.
  intros Hlow Hinc [|i] [|j] a b Hij; try lia; simpl.
  - intros [= <-] Hb. by apply (Forall_lookup_1 (λ q, p < q) l j b).
  - apply Hinc. lia.
Qed.

Lemma slots_sorted (os : list (option nat)) : ∀ k,
  (∀ i p, os !! i = Some (Some p) → p = k + i) →
  increasing (omap id os) ∧ Forall (λ p, k ≤ p) (omap id os) ∧
  ∀ p, p ∈ omap id os ↔ ∃ i, os !! i = Some (Some p).
Proof.
  induction os as [|o os IH]; intros k Hos.
  - split_and!; [by intros i j a b _ ?|constructor|]. intros p. split.
    + by intros ?%elem_of_nil.
    + by intros [i ?].
  - destruct (IH (S k)) as (Hsorted & Hlow & Hmem).
    { intros i p Hi. rewrite (Hos (S i) p Hi). lia. }
    destruct o as [p0|]; cbn [omap list_omap]; simpl.
    + pose proof (Hos 0 p0 eq_refl) as Hp0. rewrite Nat.add_0_r in Hp0. subst p0.
      split_and!.
      * apply increasing_cons; [|done]. eapply Forall_impl; [exact Hlow|]. simpl. lia.
      * constructor; [lia|]. eapply Forall_impl; [exact Hlow|]. simpl. lia.
      * intros p. rewrite elem_of_cons, Hmem. split.
        -- intros [->|[i Hi]]; [by exists 0|by exists (S i)].
        -- intros [[|i] Hi]; [left; by injection Hi|right; by exists i].
    + split_and!; [done|..].
      * eapply Forall_impl; [exact Hlow|]. simpl. lia.
      * intros p. rewrite Hmem. split.
        -- intros [i Hi]. by exists (S i).
        -- intros [[|i] Hi]; [done|by exists i].
Qed.

(** a slot counts as submitted and started exactly when its code is not
    null and [run_code] gets as far as starting the process *)
Lemma submitted_started x i :
  submitted x && started h x i = true ↔ code_not_null x ∧ started h x i = true.
Proof.
  unfold submitted, code_not_null, started, rbind, getitem.
  destruct (x !! "code") as [[]|]; simpl; try (split; [by intros [=]|]);
    try (by intros [? _]); try tauto;
    destruct (open_output h i); intros [_ [=]].
Qed.

Lemma launched_slots_spec population :
  increasing (launched_slots h population) ∧
  ∀ i, i ∈ launched_slots h population ↔
       ∃ x, population !! i = Some x ∧ code_not_null x ∧ started h x i = true.
Proof.
  unfold launched_slots.
  destruct (slots_sorted
              (imap (λ i x, if submitted x && started h x i then Some i else None)
                 population) 0)
    as (Hsorted & _ & Hmem).
  { intros i p. rewrite list_lookup_imap.
    destruct (population !! i) as [x|]; [|done]. simpl.
    by destruct (submitted x && started h x i); intros [= <-]. }
  split; [done|]. intros i. rewrite Hmem. split.
  - intros [j Hj]. rewrite list_lookup_imap in Hj.
    destruct (population !! j) as [x|] eqn:Hx; [|done]. simpl in Hj.
    destruct (submitted x && started h x j) eqn:Hs; [|done].
    injection Hj as <-. apply submitted_started in Hs. eauto.
  - intros (x & Hx & Hcode & Hs). exists i. rewrite list_lookup_imap, Hx. simpl.
    by rewrite (proj2 (submitted_started x i)).
Qed.

Lemma waited_slots_spec population :
  increasing (waited_slots h population) ∧
  ∀ i, i ∈ waited_slots h population ↔
       ∃ x, population !! i = Some x ∧ code_not_null x ∧ launch_result h x i = Ok i.
Proof.
  unfold waited_slots.
  destruct (slots_sorted (imap (λ i x, (after_launch h i x).2) population) 0)
    as (Hsorted & _ & Hmem).
  { intros i p. rewrite list_lookup_imap.
    destruct (population !! i) as [x|]; [|done]. simpl. intros [= Hp].
    by apply after_launch_slot in Hp as [-> _]. }
  split; [done|]. intros i. rewrite Hmem. split.
  - intros [j Hj]. rewrite list_lookup_imap in Hj.
    destruct (population !! j) as [x|] eqn:Hx; [|done]. simpl in Hj.
    injection Hj as Hj. apply after_launch_slot in Hj as (-> & ? & ?). eauto.
  - intros (x & Hx & Hcode & Hl). exists i. rewrite list_lookup_imap, Hx. simpl.
    by rewrite (launched_after_launch h x i).
Qed.

(** the second loop stops right after the first capture that cannot be
    read *)
Lemma reach_first population k x e :
  population !! k = Some x →
  unreadable h (after_launch h k x) = Some e →
  (∀ j y, j < k → population !! j = Some y →
          unreadable h (after_launch h j y) = None) →
  ∃ before rest,
    imap (after_launch h) population = before ++ after_launch h k x :: rest ∧
    length before = k ∧
    Forall (λ entry, unreadable h entry = None) before ∧
    reach h (imap (after_launch h) population) = S k.
Proof.
  intros Hk He Hfirst.
  set (l := imap (after_launch h) population).
  assert (Hl : l !! k = Some (after_launch h k x))
    by (unfold l; by rewrite list_lookup_imap, Hk).
  assert (Hlen : length (take k l) = k).
  { rewrite length_take. apply lookup_lt_Some in Hl. lia. }
  assert (Hb : Forall (λ entry, unreadable h entry = None) (take k l)).
  { apply Forall_lookup. intros j entry [Hj Hlt]%lookup_take_Some.
    unfold l in Hj. rewrite list_lookup_imap in Hj.
    destruct (population !! j) as [y|] eqn:Hy; [|done]. injection Hj as <-.
    by eapply Hfirst. }
  exists (take k l), (drop (S k) l). split_and!; try done.
  - by rewrite take_drop_middle.
  - rewrite <- (take_drop_middle l k _ Hl).
    rewrite (reach_unreadable h _ _ _ e Hb He). by rewrite Hlen.
Qed.

(** X15. The process trace of one call of [evaluate_population]: first
    all launches, in increasing slot order; then the waits, in the same
    order and each with the 20-second deadline, on the processes for
    which [run_code] returned, each kill right after the wait that
    timed out. A process is started exactly when the code of its slot
    is not null and [run_code] gets as far as starting it; it is waited
    on only if [run_code] also returns, which it does not when
    [block_until_running] raises. The waits go through all slots and
    the call returns when every capture can be read; they stop after
    the first finished run whose capture cannot be read, where the call
    raises the exception of the read. *)
Theorem evaluate_population_trace population s :
  Forall has_code population →
  let launched := launched_slots h population in
  let reached := take (reach h (imap (after_launch h) population)) population in
  ∃ s' r,
    evaluate_population E h population s = (s', r) ∧
    reverse (events s') =
      reverse (events s) ++ (EvLaunch <$> launched)
      ++ mjoin (wait_trace h <$> waited_slots h reached) ∧
    increasing launched ∧ increasing (waited_slots h reached) ∧
    (∀ i, i ∈ launched ↔
          ∃ x, population !! i = Some x ∧ code_not_null x ∧
               started h x i = true) ∧
    (∀ i, i ∈ waited_slots h population ↔
          ∃ x, population !! i = Some x ∧ code_not_null x ∧
               launch_result h x i = Ok i) ∧
    (readable h population →
     reached = population ∧ ∃ population', r = Ok population') ∧
    (∀ k x e,
       population !! k = Some x →
       unreadable h (after_launch h k x) = Some e →
       (∀ j y, j < k → population !! j = Some y →
               unreadable h (after_launch h j y) = None) →
       reached = take (S k) population ∧ r = Raise e).
Proof.
  intros Hall launched reached.
  destruct (evaluate_population_run E h population s Hall)
    as (s' & r & Heval & _ & _ & Hev & Hr).
  destruct (launched_slots_spec population) as [Hsorted Hmem].
  destruct (waited_slots_spec reached) as [Hwsorted _].
  destruct (waited_slots_spec population) as [_ Hwmem].
  exists s', r. split_and!; try done.
  - rewrite Hev, reverse_app, reverse_involutive. f_equal.
    apply run_events_slots.
  - intros Hread. unfold reached. rewrite reach_readable by done.
    rewrite length_imap, firstn_all. split; [done|].
    destruct Hr as [[_ ->]|(k & x & e & Hk & He & _)]; [eauto|].
    by destruct (unreadable_not_readable h population k x e).
  - intros k x e Hk He Hfirst.
    destruct (reach_first population k x e Hk He Hfirst)
      as (before & rest & Heq & Hlen & Hb & Hreach).
    unfold reached. rewrite Hreach. split; [done|].
    rewrite (evaluate_population_raises E h population s before _ rest e)
      in Heval by done.
    by injection Heval as _ <-.
Qed.

(** *** An individual without the field [code] *)

Lemma for_each_app {A B : Type} (body : A → B → M B) l1 l2 acc s :
  for_each body (l1 ++ l2) acc s =
  match for_each body l1 acc s with
  | (s1, Ok acc1) => for_each body l2 acc1 s1
  | (s1, Raise e) => (s1, Raise e)
  end.
Proof.
  revert acc s. induction l1 as [|x l1 IH]; intros acc s; [done|].
  simpl. unfold bind. destruct (body x acc s) as [s1 [acc1|e]]; [|done].
  apply IH.
Qed.

Lemma launch_prefix_eq mid : ∀ done tail inner_runs s,
  Forall has_code mid →
  for_each (launch_one h) (seq (length done) (length mid))
           (done ++ mid ++ tail, inner_runs) s =
  (launch_state h (length done) mid s,
   Ok (done ++ (imap (λ i x, (after_launch h (length done + i) x).1) mid) ++ tail,
       inner_runs ++ (imap (λ i x, (after_launch h (length done + i) x).2) mid))).
Proof.
  induction mid as [|individual mid IH]; intros done tail inner_runs s Hall.
  - simpl. by rewrite !app_nil_r.
  - inversion Hall as [|? ? Hc Hrest]; subst.
    cbn [length seq for_each app]. unfold bind at 1.
    rewrite launch_one_eq by done.
    replace (done ++ (after_launch h (length done) individual).1 :: mid ++ tail)
      with ((done ++ [(after_launch h (length done) individual).1]) ++ mid ++ tail)
      by (by rewrite <- app_assoc).
    replace (S (length done))
      with (length (done ++ [(after_launch h (length done) individual).1]))
      by (rewrite length_app; simpl; lia).
    rewrite IH by done.
    rewrite length_app. cbn [length launch_state imap].
    rewrite Nat.add_0_r, <- !app_assoc. cbn [app].
    replace (length done + 1) with (S (length done)) by lia.
    rewrite (imap_ext (λ i x, (after_launch h (S (length done) + i) x).1)
               ((λ i x, (after_launch h (length done + i) x).1) ∘ S) mid)
      by (intros i x _; simpl; do 2 f_equal; lia).
    rewrite (imap_ext (λ i x, (after_launch h (S (length done) + i) x).2)
               ((λ i x, (after_launch h (length done + i) x).2) ∘ S) mid)
      by (intros i x _; simpl; do 2 f_equal; lia).
    reflexivity.
Qed.

Lemma launch_one_no_code done individual rest inner_runs s :
  individual !! "code" = None →
  launch_one h (length done) (done ++ individual :: rest, inner_runs) s
  = (s, Raise (KeyError "code")).
Proof.
  intros Hcode. unfold launch_one, bind, lift, list_getitem, getitem.
  rewrite list_lookup_middle by done. by rewrite Hcode.
Qed.

Lemma evaluate_population_no_code done individual rest s :
  Forall has_code done → individual !! "code" = None →
  evaluate_population E h (done ++ individual :: rest) s
  = (launch_state h 0 done s, Raise (KeyError "code")).
Proof.
  intros Hall Hcode. unfold evaluate_population.
  erewrite bind_raise; [done|].
  rewrite length_app. cbn [length].
  replace (length done + S (length rest)) with (length done + (1 + length rest)) by lia.
  rewrite seq_app, for_each_app.
  pose proof (launch_prefix_eq done [] (individual :: rest) [] s Hall) as Hl.
  cbn [length app] in Hl. rewrite Hl. clear Hl.
  cbn [seq for_each Nat.add].
  erewrite bind_raise; [done|].
  set (done' := imap (λ i x, (after_launch h (0 + i) x).1) done).
  assert (length done' = length done) as <- by apply length_imap.
  by apply launch_one_no_code.
Qed.

(** X16. An individual that has no field [code] at all makes
    [evaluate_population] raise [KeyError], at the slot of that
    individual in the first loop: the earlier slots have been counted
    and launched, no later slot is looked at, and no launched process
    is waited for or killed. *)
Theorem evaluate_population_missing_code done individual rest s :
  Forall has_code done → individual !! "code" = None →
  ∃ s',
    evaluate_population E h (done ++ individual :: rest) s
    = (s', Raise (KeyError "code")) ∧
    same_bookkeeping s s' ∧
    function_evals s' = function_evals s + length (filter code_not_null done) ∧
    reverse (events s') = reverse (events s) ++ (EvLaunch <$> launched_slots h done).
Proof.
  intros Hall Hcode. exists (launch_state h 0 done s).
  split; [by apply evaluate_population_no_code|].
  destruct (launch_state_spec h done 0 s) as (Hsame & Hfe & Hev).
  split_and!; [done|..].
  - rewrite Hfe. by rewrite submitted_code_not_null.
  - rewrite Hev, reverse_app, reverse_involutive. f_equal.
    by rewrite <- launches_slots.
Qed.

End ProcessTrace.

(** ** [run_code] *)

Section RunCode.

Variable h : Harness.

(** X17. [run_code] returns only when the individual's code is a string,
    the individual has a capture path and no step of starting the
    harness raises, [block_until_running] included; what it returns is
    then the process of the slot, and the one launch is the only change
    of state. When it raises, either no process was started and the
    state is as it was, or the process was started, the launch is the
    only change of state and the exception is that of
    [block_until_running]. It never touches the evaluation counter. *)
Theorem run_code_outcome individual response_id s :
  let out := run_code h individual response_id s in
  function_evals out.1 = function_evals s ∧
  match out.2 with
  | Ok process =>
      process = response_id ∧ out.1 = emit (EvLaunch response_id) s ∧
      (∃ code, individual !! "code" = Some (VStr code)) ∧
      is_Some (individual !! "stdout_filepath") ∧
      open_output h response_id = None ∧ write_output h response_id = None ∧
      spawn h response_id = None ∧ block_until_running h response_id = None
  | Raise e =>
      (started h individual response_id = false ∧ out.1 = s
       ∨ started h individual response_id = true ∧
         out.1 = emit (EvLaunch response_id) s ∧
         block_until_running h response_id = Some e) ∧
      (open_output h response_id = None → individual !! "code" = None →
       e = KeyError "code") ∧
      (open_output h response_id = None → write_output h response_id = None →
       (∃ code, individual !! "code" = Some (VStr code)) →
       individual !! "stdout_filepath" = None → e = KeyError "stdout_filepath")
  end.
Proof.
  intros out. unfold out. rewrite run_code_eq.
  unfold launch_result, started, rbind, getitem.
  destruct (open_output h response_id) as [msg|],
           (individual !! "code") as [[]|],
           (write_output h response_id) as [msg1|],
           (individual !! "stdout_filepath") as [path|],
           (spawn h response_id) as [msg2|],
           (block_until_running h response_id) as [err|];
    simpl; split_and!;
    first [done | by intros; simplify_eq | by intros _ _ [? [=]] | by eauto
          | by left | by right].
Qed.

End RunCode.

(** ** Evaluating an individual a second time *)

Section Reevaluation.

Variable E : Externals.

Lemma launch_result_agree h x y i :
  x !! "code" = y !! "code" → x !! "stdout_filepath" = y !! "stdout_filepath" →
  launch_result h x i = launch_result h y i.
Proof.
  intros Hc Hp. unfold launch_result, getitem. by rewrite Hc, Hp.
Qed.

(** two dicts with the same code and capture path are evaluated alike *)
Lemma evaluated_agree h i x y :
  x !! "code" = y !! "code" → x !! "stdout_filepath" = y !! "stdout_filepath" →
  (∃ x0 y0 msg, attempt_of x x0 ∧ attempt_of y y0 ∧
                evaluated E h i x = mark_invalid_individual x0 msg ∧
                evaluated E h i y = mark_invalid_individual y0 msg)
  ∨ (∃ obj, ltb zero obj = true ∧
            evaluated E h i x = success_with obj x ∧
            evaluated E h i y = success_with obj y).
Proof.
  intros Hc Hp. unfold evaluated, after_launch.
  rewrite <- Hc, <- (launch_result_agree h x y i Hc Hp).
  assert (Hmark : ∀ msg,
            ∃ x0 y0 msg0, attempt_of x x0 ∧ attempt_of y y0 ∧
              mark_invalid_individual x msg = mark_invalid_individual x0 msg0 ∧
              mark_invalid_individual y msg = mark_invalid_individual y0 msg0).
  { intros msg. exists x, y, msg. split_and!; try done; by left. }
  assert (Hrun : ∀ process,
    (∃ x0 y0 msg, attempt_of x x0 ∧ attempt_of y y0 ∧
                  after_wait E h (x, Some process) = mark_invalid_individual x0 msg ∧
                  after_wait E h (y, Some process) = mark_invalid_individual y0 msg)
    ∨ (∃ obj, ltb zero obj = true ∧
              after_wait E h (x, Some process) = success_with obj x ∧
              after_wait E h (y, Some process) = success_with obj y)).
  { intros process. unfold after_wait. simpl.
    destruct (communicate h process) as [out|msg]; [|left; apply Hmark].
    unfold classify. case_decide; [|left; apply Hmark].
    destruct (read_objective_cases E x out)
      as [(obj & Hobj & Hpos & ->)|(x0 & e & -> & Hx0 & Hwhy)];
    destruct (read_objective_cases E y out)
      as [(obj' & Hobj' & Hpos' & ->)|(y0 & e' & -> & Hy0 & Hwhy')].
    - right. exists obj. replace obj' with obj by congruence. done.
    - exfalso. destruct Hwhy' as [?|(o & ? & ?)]; congruence.
    - exfalso. destruct Hwhy as [?|(o & ? & ?)]; congruence.
    - left. by exists x0, y0, "Invalid std out / objective value!". }
  destruct (x !! "code") as [[]|]; [left; apply Hmark|..];
    (destruct (launch_result h x i) as [process|e]; [apply Hrun|left; apply Hmark]).
Qed.

(** X18. Evaluating an individual again overwrites its scores and keeps a
    stale failure message. Whatever an earlier evaluation of the same
    slot left in the dict, the second evaluation stores the success
    flag, objective and fitness that it would store in the fresh dict
    and leaves the other fields alone; when it fails it also stores its
    own failure message, but when it succeeds the message of the
    earlier failure stays in the dict. *)
Theorem reevaluation_overwrites_scores h1 h2 i x :
  has_code x →
  let once := evaluated E h2 i x in
  let twice := evaluated E h2 i (evaluated E h1 i x) in
  twice !! "exec_success" = once !! "exec_success" ∧
  twice !! "obj" = once !! "obj" ∧
  twice !! "fitness" = once !! "fitness" ∧
  (∀ k, k ∉ evaluation_keys → twice !! k = x !! k) ∧
  (once !! "exec_success" = Some (VBool false) →
   twice !! "traceback_msg" = once !! "traceback_msg") ∧
  (once !! "exec_success" = Some (VBool true) →
   twice !! "traceback_msg" = evaluated E h1 i x !! "traceback_msg").
Proof.
  intros Hcode once twice.
  pose proof constructor_keys_kept as (Hk1 & _ & Hk2 & _).
  assert (Hc : x !! "code" = evaluated E h1 i x !! "code")
    by (by rewrite evaluated_other).
  assert (Hp : x !! "stdout_filepath" = evaluated E h1 i x !! "stdout_filepath")
    by (by rewrite evaluated_other).
  assert (Hcode' : has_code (evaluated E h1 i x)).
  { unfold has_code. by rewrite <- Hc. }
  assert (Hother : ∀ k, k ∉ evaluation_keys → twice !! k = x !! k).
  { intros k Hk. unfold twice. by rewrite !evaluated_other. }
  destruct (evaluated_agree h2 i x (evaluated E h1 i x) Hc Hp)
    as [(x0 & y0 & msg & _ & _ & Hx & Hy)|(obj & Hpos & Hx & Hy)];
    fold once in Hx; fold twice in Hy;
    (split_and!; [| | |exact Hother| |]); rewrite Hx, Hy;
    unfold mark_invalid_individual, success_with; by simplify_map_eq.
Qed.

End Reevaluation.

(** ** The paths stored in an individual *)

Section Paths.

Variable E : Externals.

Lemma append_String c (a b : string) : String c a +:+ b = String c (a +:+ b).
Proof. done. Qed.

Lemma append_empty (b : string) : "" +:+ b = b.
Proof. done. Qed.

Lemma append_assoc (a b c : string) : (a +:+ b) +:+ c = a +:+ (b +:+ c).
Proof. induction a as [|x a IH]; [done|]. rewrite !append_String. by f_equal. Qed.

Lemma pretty_N_char_digit x : is_digit (pretty_N_char x) = true.
Proof. unfold pretty_N_char. by repeat case_match. Qed.

Lemma pretty_N_go_digits x : ∀ s,
  all_digits s = true → all_digits (pretty_N_go x s) = true.
Proof.
  induction (N.lt_wf_0 x) as [x _ IH]; intros s Hs.
  assert (x = 0 ∨ 0 < x)%N as [->|Hpos] by lia.
  - by rewrite pretty_N_go_0.
  - rewrite pretty_N_go_step by done. apply IH.
    + by apply N.div_lt.
    + simpl. by rewrite pretty_N_char_digit.
Qed.

Lemma pretty_nat_digits (n : nat) : all_digits (pretty n) = true.
Proof.
  unfold pretty, pretty_nat, pretty, pretty_N.
  case_decide; [done|]. by apply pretty_N_go_digits.
Qed.

(** a run of digits ends at the first character that is not a digit *)
Lemma digits_prefix_inj d1 : ∀ d2 c1 c2 r1 r2,
  all_digits d1 = true → all_digits d2 = true →
  is_digit c1 = false → is_digit c2 = false →
  d1 +:+ String c1 r1 = d2 +:+ String c2 r2 →
  d1 = d2 ∧ String c1 r1 = String c2 r2.
Proof.
  induction d1 as [|x d1 IH]; intros [|y d2] c1 c2 r1 r2 H1 H2 Hc1 Hc2;
    rewrite ?append_String, ?append_empty; simpl in *.
  - done.
  - intros [= -> _]. apply andb_prop in H2 as [H2 _]. congruence.
  - intros [= -> _]. apply andb_prop in H1 as [H1 _]. congruence.
  - intros [= -> Heq]. apply andb_prop in H1 as [_ H1]. apply andb_prop in H2 as [_ H2].
    destruct (IH d2 c1 c2 r1 r2 H1 H2 Hc1 Hc2 Heq) as [-> ?]. done.
Qed.

Lemma numbered_inj (n m : nat) c1 c2 r1 r2 :
  is_digit c1 = false → is_digit c2 = false →
  pretty n +:+ String c1 r1 = pretty m +:+ String c2 r2 →
  n = m ∧ String c1 r1 = String c2 r2.
Proof.
  intros Hc1 Hc2 Heq.
  destruct (digits_prefix_inj (pretty n) (pretty m) c1 c2 r1 r2) as [Hp Hr];
    try done; try apply pretty_nat_digits.
  split; [|done]. by apply (inj pretty).
Qed.

Lemma numbered_pair_inj (n n' m m' : nat) (mid tail : string) c1 r1 c2 r2 :
  mid = String c1 r1 → tail = String c2 r2 →
  is_digit c1 = false → is_digit c2 = false →
  pretty n +:+ mid +:+ pretty m +:+ tail = pretty n' +:+ mid +:+ pretty m' +:+ tail →
  n = n' ∧ m = m'.
Proof.
  intros -> -> Hc1 Hc2 Heq. rewrite !append_String in Heq.
  apply numbered_inj in Heq as [-> Heq]; [|done..]. split; [done|].
  injection Heq as Heq. apply (inj (append r1)) in Heq.
  by apply numbered_inj in Heq as [-> _].
Qed.

Lemma response_to_individual_paths response response_id file_name s s' individual :
  response_to_individual E response response_id file_name s = (s', Ok individual) →
  individual !! "stdout_filepath"
  = Some (VStr (response_file (iteration s) response_id file_name +:+ "_stdout.txt")) ∧
  individual !! "code_path"
  = Some (VStr ("problem_iter" +:+ pretty (iteration s) +:+ "_code"
                  +:+ pretty response_id +:+ ".py")).
Proof.
  unfold response_to_individual, bind, get, lift, ret, response_file.
  destruct (process_code E response); [|done]. simpl.
  intros [= _ <-]. split; by simplify_map_eq.
Qed.

(** X19. The capture path stored by [response_to_individual] is the name
    of the response file followed by [_stdout.txt]; without a file name
    argument it is never of the form
    [problem_iter<n>_stdout<m>.txt] that the second conditional of the
    method spells out. Without a file name argument, two individuals
    have the same capture path, or the same code path, only when they
    were built in the same iteration for the same response id. *)
Theorem capture_path_follows_response_file response response_id file_name s s' individual :
  response_to_individual E response response_id file_name s = (s', Ok individual) →
  individual !! "stdout_filepath"
  = Some (VStr (response_file (iteration s) response_id file_name +:+ "_stdout.txt")) ∧
  (file_name = None →
   ∀ n m : nat, individual !! "stdout_filepath"
          ≠ Some (VStr ("problem_iter" +:+ pretty n +:+ "_stdout" +:+ pretty m +:+ ".txt"))) ∧
  (file_name = None →
   ∀ response' response_id' t t' individual',
     response_to_individual E response' response_id' None t = (t', Ok individual') →
     individual !! "stdout_filepath" = individual' !! "stdout_filepath"
     ∨ individual !! "code_path" = individual' !! "code_path" →
     iteration s = iteration t ∧ response_id = response_id').
Proof.
  intros Hrun. destruct (response_to_individual_paths _ _ _ _ _ _ Hrun) as [Hout Hpath].
  split_and!; [done|..].
  - intros -> n m. rewrite Hout. unfold response_file. intros [= Heq].
    rewrite !append_assoc, !append_String, !append_empty in Heq.
    apply numbered_inj in Heq as [_ Heq]; done.
  - intros -> response' response_id' t t' individual' Hrun'.
    destruct (response_to_individual_paths _ _ _ _ _ _ Hrun') as [Hout' Hpath'].
    rewrite Hout, Hout', Hpath, Hpath'. unfold response_file.
    intros [[= Heq]|[= Heq]]; rewrite ?append_assoc, ?append_empty in Heq.
    + by eapply (numbered_pair_inj _ _ _ _ "_response" (".txt" +:+ "_stdout.txt")).
    + by eapply (numbered_pair_inj _ _ _ _ "_code" ".py").
Qed.

End Paths.

(** ** [adjust_similarity_matrix] *)

Section Similarity.

Lemma same_shape_refl m : same_shape m m.
Proof. done. Qed.

Lemma same_shape_trans m1 m2 m3 :
  same_shape m1 m2 → same_shape m2 m3 → same_shape m1 m3.
Proof. unfold same_shape. congruence. Qed.

Lemma same_shape_rows m m' a row' :
  same_shape m m' → m' !! a = Some row' →
  ∃ row, m !! a = Some row ∧ length row = length row'.
Proof.
  unfold same_shape. intros Hs Ha.
  assert ((length <$> m) !! a = Some (length row')) as Hl
    by (by rewrite <- Hs, list_lookup_fmap, Ha).
  rewrite list_lookup_fmap in Hl. destruct (m !! a) as [row|]; [|done].
  injection Hl as Hl. eauto.
Qed.

Lemma same_shape_wide n m m' : same_shape m m' → wide n m → wide n m'.
Proof.
  intros Hs [Hrows Hcols]. split.
  - assert (length m' = length m) as ->; [|done].
    unfold same_shape in Hs. apply (f_equal length) in Hs.
    by rewrite !length_fmap in Hs.
  - intros a row' Ha Hrow'.
    destruct (same_shape_rows m m' a row' Hs Hrow') as (row & Hrow & <-).
    by eapply Hcols.
Qed.

(** two arrays of the same shape with the same entries are equal *)
Lemma matrix_ext m m' :
  same_shape m m' → (∀ a b, cell m' a b = cell m a b) → m' = m.
Proof.
  intros Hs Hcells. apply list_eq. intros a.
  destruct (m' !! a) as [row'|] eqn:Hrow'.
  - destruct (same_shape_rows m m' a row' Hs Hrow') as (row & Hrow & Hlen).
    rewrite Hrow. f_equal. apply list_eq. intros b.
    specialize (Hcells a b). unfold cell in Hcells. by rewrite Hrow, Hrow' in Hcells.
  - apply lookup_ge_None in Hrow'. symmetry. apply lookup_ge_None.
    unfold same_shape in Hs. apply (f_equal length) in Hs.
    rewrite !length_fmap in Hs. lia.
Qed.

Lemma np_setitem2_ok n m i j v :
  wide n m → i < n → j < n →
  ∃ m1, np_setitem2 m i j v = Ok m1 ∧ same_shape m m1 ∧
        ∀ a b, cell m1 a b
               = if (a =? i) && (b =? j) then Some v else cell m a b.
Proof.
  intros [Hrows Hcols] Hi Hj.
  destruct (lookup_lt_is_Some_2 m i) as [row Hrow]; [lia|].
  pose proof (Hcols i row Hi Hrow) as Hlen.
  unfold np_setitem2. rewrite Hrow. rewrite decide_True by lia.
  eexists. split; [done|]. split.
  - unfold same_shape. rewrite list_fmap_insert, length_insert.
    apply list_insert_id. by rewrite list_lookup_fmap, Hrow.
  - intros a b. unfold cell.
    destruct (Nat.eqb_spec a i) as [->|Hne]; simpl.
    + rewrite list_lookup_insert_eq by lia.
      destruct (Nat.eqb_spec b j) as [->|Hne'].
      * by rewrite list_lookup_insert_eq by lia.
      * rewrite list_lookup_insert_ne by done. by rewrite Hrow.
    + by rewrite list_lookup_insert_ne by done.
Qed.

Section Population.

Variable population : list Individual.

Hypothesis objectives : Forall (λ x, is_Some (x !! "obj")) population.

Lemma adjust_pair_unfold i j m :
  i < length population → j < length population →
  adjust_pair population i j m =
  if same_obj population i j then
    rbind (np_setitem2 m i j one) (λ m1, np_setitem2 m1 j i one)
  else Ok m.
Proof.
  intros Hi Hj.
  destruct (lookup_lt_is_Some_2 population i Hi) as [x Hx].
  destruct (lookup_lt_is_Some_2 population j Hj) as [y Hy].
  destruct (Forall_lookup_1 _ _ _ _ objectives Hx) as [u Hu].
  destruct (Forall_lookup_1 _ _ _ _ objectives Hy) as [v Hv].
  unfold adjust_pair, same_obj, list_getitem, getitem.
  rewrite Hx, Hy. simpl. rewrite Hu. simpl. rewrite Hv. done.
Qed.

Lemma adjust_pair_ok m i j :
  wide (length population) m → i < length population → j < length population →
  ∃ m1, adjust_pair population i j m = Ok m1 ∧ same_shape m m1 ∧
        ∀ a b, cell m1 a b
               = if same_obj population i j && hit i j a b then Some one
                 else cell m a b.
Proof.
  intros Hwide Hi Hj. rewrite adjust_pair_unfold by done.
  destruct (same_obj population i j); [|by exists m].
  destruct (np_setitem2_ok _ m i j one Hwide Hi Hj) as (m1 & -> & Hs1 & Hc1).
  pose proof (same_shape_wide _ m m1 Hs1 Hwide) as Hwide1.
  destruct (np_setitem2_ok _ m1 j i one Hwide1 Hj Hi) as (m2 & Hm2 & Hs2 & Hc2).
  simpl. exists m2. split; [done|]. split; [by eapply same_shape_trans|].
  intros a b. rewrite Hc2, Hc1. unfold hit.
  by destruct ((a =? i) && (b =? j)), ((a =? j) && (b =? i)).
Qed.

Lemma inner_loop_ok i js : ∀ m,
  wide (length population) m → i < length population →
  Forall (λ j, j < length population) js →
  ∃ m', rfor (adjust_pair population i) js m = Ok m' ∧ same_shape m m' ∧
        ∀ a b, cell m' a b
               = if written_in_row population js i a b then Some one
                 else cell m a b.
Proof.
  induction js as [|j js IH]; intros m Hwide Hi Hjs.
  - by exists m.
  - inversion Hjs as [|? ? Hj Hjs']; subst. cbn [rfor].
    destruct (adjust_pair_ok m i j Hwide Hi Hj) as (m1 & -> & Hs1 & Hc1).
    pose proof (same_shape_wide _ m m1 Hs1 Hwide) as Hwide1.
    destruct (IH m1 Hwide1 Hi Hjs') as (m' & Hm' & Hs' & Hc').
    simpl. exists m'. split; [done|]. split; [by eapply same_shape_trans|].
    intros a b. rewrite Hc', Hc1. unfold written_in_row. cbn [existsb].
    by destruct (same_obj population i j && hit i j a b), (existsb _ js).
Qed.

Lemma range_below a b : Forall (λ j, j < b) (range a b).
Proof.
  apply Forall_forall. intros j Hj. unfold range in Hj.
  apply elem_of_seq in Hj. lia.
Qed.

Lemma outer_loop_ok rows : ∀ m,
  wide (length population) m →
  Forall (λ i, i < length population) rows →
  ∃ m', rfor (λ i m, rfor (adjust_pair population i)
                          (range (i + 1) (length population)) m) rows m = Ok m' ∧
        same_shape m m' ∧
        ∀ a b, cell m' a b
               = if written population rows a b then Some one else cell m a b.
Proof.
  induction rows as [|i rows IH]; intros m Hwide Hrows.
  - by exists m.
  - inversion Hrows as [|? ? Hi Hrows']; subst. cbn [rfor].
    destruct (inner_loop_ok i (range (i + 1) (length population)) m Hwide Hi)
      as (m1 & -> & Hs1 & Hc1); [apply range_below|].
    pose proof (same_shape_wide _ m m1 Hs1 Hwide) as Hwide1.
    destruct (IH m1 Hwide1 Hrows') as (m' & Hm' & Hs' & Hc').
    simpl. exists m'. split; [done|]. split; [by eapply same_shape_trans|].
    intros a b. rewrite Hc', Hc1. unfold written. cbn [existsb].
    by destruct (written_in_row population _ i a b), (existsb _ rows).
Qed.

Lemma written_spec a b :
  written population (range 0 (length population)) a b = true ↔
  ∃ i j, i < j ∧ j < length population ∧ same_obj population i j = true ∧
         (a = i ∧ b = j ∨ a = j ∧ b = i).
Proof.
  unfold written, written_in_row, hit, range. rewrite existsb_exists. split.
  - intros (i & Hi & Hrow). apply existsb_exists in Hrow as (j & Hj & Hij).
    apply list_elem_of_In, elem_of_seq in Hi. apply list_elem_of_In, elem_of_seq in Hj.
    apply andb_prop in Hij as [Hsame Hhit]. exists i, j.
    split; [lia|]. split; [lia|]. split; [done|].
    apply orb_prop in Hhit as [[?%Nat.eqb_eq ?%Nat.eqb_eq]%andb_prop
                              |[?%Nat.eqb_eq ?%Nat.eqb_eq]%andb_prop]; auto.
  - intros (i & j & Hij & Hj & Hsame & Hab). exists i. split.
    + apply list_elem_of_In, elem_of_seq. lia.
    + apply existsb_exists. exists j. split.
      * apply list_elem_of_In, elem_of_seq. lia.
      * rewrite Hsame. simpl.
        destruct Hab as [[-> ->]|[-> ->]]; rewrite !Nat.eqb_refl; simpl;
          [done|by rewrite orb_true_r].
Qed.

(** [adjust_similarity_matrix] in closed form *)
Lemma adjust_similarity_matrix_ok m :
  wide (length population) m →
  ∃ m', adjust_similarity_matrix m population = Ok m' ∧ same_shape m m' ∧
        ∀ a b, cell m' a b
               = if written population (range 0 (length population)) a b
                 then Some one else cell m a b.
Proof.
  intros Hwide. unfold adjust_similarity_matrix.
  apply outer_loop_ok; [done|]. apply range_below.
Qed.

Lemma adjust_similarity_matrix_cells m m' :
  wide (length population) m →
  adjust_similarity_matrix m population = Ok m' →
  same_shape m m' ∧
  (∀ a b, a < b → b < length population →
     if same_obj population a b
     then cell m' a b = Some one ∧ cell m' b a = Some one
     else cell m' a b = cell m a b ∧ cell m' b a = cell m b a) ∧
  (∀ a b, a = b ∨ length population ≤ a ∨ length population ≤ b →
     cell m' a b = cell m a b).
Proof.
  intros Hwide Hrun.
  destruct (adjust_similarity_matrix_ok m Hwide) as (m'' & Hrun' & Hs & Hc).
  rewrite Hrun in Hrun'. injection Hrun' as <-.
  split; [done|]. split.
  - intros a b Hab Hb. rewrite !Hc.
    destruct (same_obj population a b) eqn:Hsame.
    + rewrite (proj2 (written_spec a b)) by (exists a, b; auto 10).
      rewrite (proj2 (written_spec b a)) by (exists a, b; auto 10). done.
    + assert (∀ x y, (x = a ∧ y = b ∨ x = b ∧ y = a) →
                written population (range 0 (length population)) x y = false) as Hno.
      { intros x y Hxy.
        destruct (written population (range 0 (length population)) x y) eqn:Hw; [|done].
        apply written_spec in Hw as (i & j & Hij & Hj & Hsame' & Hhit).
        assert (i = a ∧ j = b) as [-> ->] by lia. congruence. }
      rewrite !Hno by auto. done.
  - intros a b Hab. rewrite Hc.
    destruct (written population (range 0 (length population)) a b) eqn:Hw; [|done].
    apply written_spec in Hw as (i & j & Hij & Hj & _ & Hhit). lia.
Qed.

End Population.

End Similarity.

Section SimilarityProperties.

Lemma scored_objectives population :
  Forall scored population → Forall (λ x, is_Some (x !! "obj")) population.
Proof.
  intros Hall. eapply Forall_impl; [exact Hall|]. intros x [(obj & -> & _) _]. eauto.
Qed.

(** X20. On a population whose individuals all carry an objective and an
    array with at least as many rows and columns as the population has
    individuals, [adjust_similarity_matrix] returns the array with the
    same shape in which, for every two different positions of the
    population, both entries of the pair are 1.0 when the two
    objectives are equal under [==] and are as they were when not; the
    diagonal and the entries outside the population's range are as they
    were. A symmetric array stays symmetric. *)
Theorem adjust_similarity_matrix_spec population m :
  Forall (λ x, is_Some (x !! "obj")) population →
  wide (length population) m →
  ∃ m',
    adjust_similarity_matrix m population = Ok m' ∧ same_shape m m' ∧
    (∀ a b, a < b → b < length population →
       if same_obj population a b
       then cell m' a b = Some one ∧ cell m' b a = Some one
       else cell m' a b = cell m a b ∧ cell m' b a = cell m b a) ∧
    (∀ a b, a = b ∨ length population ≤ a ∨ length population ≤ b →
       cell m' a b = cell m a b) ∧
    ((∀ a b, cell m a b = cell m b a) → ∀ a b, cell m' a b = cell m' b a).
Proof.
  intros Hobj Hwide.
  destruct (adjust_similarity_matrix_ok population Hobj m Hwide) as (m' & Hrun & _).
  destruct (adjust_similarity_matrix_cells population Hobj m m' Hwide Hrun)
    as (Hs & Hpairs & Hrest).
  exists m'. split_and!; try done.
  intros Hsym a b.
  assert (Hlt : ∀ x y, x < y → cell m' x y = cell m' y x).
  { intros x y Hxy. destruct (decide (y < length population)) as [Hy|Hy].
    - specialize (Hpairs x y Hxy Hy). destruct (same_obj population x y).
      + destruct Hpairs as [-> ->]. done.
      + destruct Hpairs as [-> ->]. apply Hsym.
    - rewrite !Hrest by lia. apply Hsym. }
  destruct (Nat.lt_total a b) as [?|[->|?]]; [by apply Hlt|done|].
  symmetry. by apply Hlt.
Qed.

(** X21. [adjust_similarity_matrix] is idempotent: applied to its own
    result, with the same population, it returns that result
    unchanged. *)
Theorem adjust_similarity_matrix_idempotent population m m' :
  Forall (λ x, is_Some (x !! "obj")) population →
  wide (length population) m →
  adjust_similarity_matrix m population = Ok m' →
  adjust_similarity_matrix m' population = Ok m'.
Proof.
  intros Hobj Hwide Hrun.
  destruct (adjust_similarity_matrix_ok population Hobj m Hwide) as (m1 & Hrun1 & Hs & Hc).
  rewrite Hrun in Hrun1. injection Hrun1 as <-.
  pose proof (same_shape_wide _ m m' Hs Hwide) as Hwide'.
  destruct (adjust_similarity_matrix_ok population Hobj m' Hwide')
    as (m2 & Hrun2 & Hs2 & Hc2).
  rewrite Hrun2. f_equal. apply matrix_ext; [done|].
  intros a b. rewrite Hc2, Hc.
  by destruct (written population (range 0 (length population)) a b).
Qed.

(** X22. After an evaluation, any two individuals that failed are given
    similarity 1.0, whatever the array held before: a failed individual
    has objective [inf], and [inf == inf]. *)
Theorem failed_individuals_made_similar population m i j x y msg_x msg_y :
  Forall scored population → wide (length population) m →
  population !! i = Some x → population !! j = Some y → i ≠ j →
  invalid_with msg_x x → invalid_with msg_y y →
  ∃ m', adjust_similarity_matrix m population = Ok m' ∧
        cell m' i j = Some one ∧ cell m' j i = Some one.
Proof.
  intros Hscored Hwide Hx Hy Hne (_ & Hox & _) (_ & Hoy & _).
  pose proof (scored_objectives population Hscored) as Hobj.
  destruct (adjust_similarity_matrix_ok population Hobj m Hwide) as (m' & Hrun & _).
  destruct (adjust_similarity_matrix_cells population Hobj m m' Hwide Hrun)
    as (_ & Hpairs & _).
  exists m'. split; [done|].
  assert (Hsame : ∀ a b, a = i ∧ b = j ∨ a = j ∧ b = i → same_obj population a b = true).
  { intros a b [[-> ->]|[-> ->]]; unfold same_obj; by rewrite Hx, Hy, Hox, Hoy. }
  pose proof (lookup_lt_Some _ _ _ Hx) as H. pose proof (lookup_lt_Some _ _ _ Hy) as H0.
  destruct (Nat.lt_total i j) as [Hij|[->|Hji]]; [|done|].
  - specialize (Hpairs i j Hij H0). rewrite Hsame in Hpairs by auto. done.
  - specialize (Hpairs j i Hji H). rewrite Hsame in Hpairs by auto.
    by destruct Hpairs.
Qed.

(** X23. The edges of [adjust_similarity_matrix]. With at most one
    individual it returns the array as it is and reads nothing, neither
    an objective nor an entry. With two or more individuals it raises
    [KeyError] when the first individual has no objective, and numpy's
    [IndexError] when the first two objectives are equal and the array
    has no row. *)
Theorem adjust_similarity_matrix_edges population m :
  (length population ≤ 1 → adjust_similarity_matrix m population = Ok m) ∧
  (∀ x, 2 ≤ length population → population !! 0 = Some x → x !! "obj" = None →
     adjust_similarity_matrix m population = Raise (KeyError "obj")) ∧
  (2 ≤ length population → same_obj population 0 1 = true → m = [] →
     adjust_similarity_matrix m population = Raise (np_index_error 0 0)).
Proof.
  split_and!.
  - intros Hlen. destruct population as [|x [|y l]]; simpl in Hlen; [done..|lia].
  - intros x Hlen Hx Hobj. destruct population as [|x' [|y l]]; simpl in Hlen; [lia..|].
    injection Hx as ->. unfold adjust_similarity_matrix, range. simpl.
    unfold adjust_pair, list_getitem, getitem. simpl. by rewrite Hobj.
  - intros Hlen Hsame ->. destruct population as [|x [|y l]]; simpl in Hlen; [lia..|].
    unfold adjust_similarity_matrix, range. simpl.
    unfold same_obj in Hsame. simpl in Hsame.
    unfold adjust_pair, list_getitem, getitem. simpl.
    destruct (x !! "obj"); [|done]. destruct (y !! "obj"); [|done]. simpl.
    by rewrite Hsame.
Qed.

End SimilarityProperties.

(** ** The fitness of an evaluated individual *)

Section Fitness.

Variable E : Externals.

Lemma iter_pos_invariant {A : Type} (f : A → A) (P : A → Prop) :
  (∀ x, P x → P (f x)) → ∀ p x, P x → P (SpecFloat.iter_pos f p x).
Proof. intros Hf. induction p as [p IH|p IH|]; simpl; auto. Qed.

Lemma shr_1_nonneg mrs : (0 ≤ shr_m mrs)%Z → (0 ≤ shr_m (shr_1 mrs))%Z.
Proof. destruct mrs as [[|[p|p|]|[p|p|]] r s]; simpl; lia. Qed.

Lemma shr_nonneg mrs e n : (0 ≤ shr_m mrs)%Z → (0 ≤ shr_m (shr mrs e n).1)%Z.
Proof.
  intros Hm. destruct n as [|p|p]; simpl; try done.
  by apply (iter_pos_invariant shr_1 (λ x, (0 ≤ shr_m x)%Z) shr_1_nonneg).
Qed.

Lemma shr_fexp_nonneg m e l :
  (0 ≤ m)%Z → (0 ≤ shr_m (shr_fexp prec emax m e l).1)%Z.
Proof.
  intros Hm. unfold shr_fexp. apply shr_nonneg. by destruct l as [|[]].
Qed.

Lemma round_nearest_even_nonneg m l :
  (0 ≤ m)%Z → (0 ≤ round_nearest_even m l)%Z.
Proof.
  intros Hm. destruct l as [|[]]; simpl; try lia. destruct (Z.even m); lia.
Qed.

(** rounding a non-negative mantissa with the sign [+] gives a float
    that is not a NaN and not below zero *)
Lemma binary_round_aux_nonneg m e l :
  (0 ≤ m)%Z →
  is_nan (binary_round_aux prec emax false m e l) = false ∧
  leb zero (binary_round_aux prec emax false m e l) = true.
Proof.
  intros Hm. unfold binary_round_aux.
  pose proof (shr_fexp_nonneg m e l Hm) as H1.
  destruct (shr_fexp prec emax m e l) as [mrs1 e1]. simpl in H1.
  pose proof (shr_fexp_nonneg
                (round_nearest_even (shr_m mrs1) (loc_of_shr_record mrs1)) e1 loc_Exact
                (round_nearest_even_nonneg _ _ H1)) as H2.
  destruct (shr_fexp prec emax _ e1 loc_Exact) as [mrs2 e2]. simpl in H2.
  destruct (shr_m mrs2) as [|p|p]; [done| |lia].
  by destruct (e2 <=? emax - prec)%Z.
Qed.

Lemma div_core_nonneg m1 e1 m2 e2 :
  (0 ≤ (SFdiv_core_binary prec emax (Z.pos m1) e1 (Z.pos m2) e2).1.1)%Z.
Proof.
  unfold SFdiv_core_binary. cbv zeta.
  match goal with |- context [Z.div_eucl ?a ?b] =>
    assert (0 ≤ a)%Z as Ha; [|pose proof (Z_div_mod a b eq_refl) as Hdiv;
                               destruct (Z.div_eucl a b) as [q r]]
  end.
  - match goal with |- context [match ?s with _ => _ end] => destruct s end;
      [lia|by apply Z.shiftl_nonneg|lia].
  - simpl. nia.
Qed.

(** [1 / obj] for a positive float [obj] *)
Lemma fitness_nonneg obj :
  ltb zero obj = true →
  is_nan (div one obj) = false ∧ leb zero (div one obj) = true ∧
  (obj = inf → div one obj = zero).
Proof.
  intros Hpos. destruct obj as [[]|[]| |[] m e]; try done.
  unfold div, one, SFdiv.
  pose proof (div_core_nonneg 4503599627370496 (-52) m e) as Hq.
  destruct (SFdiv_core_binary prec emax _ _ _ e) as [[mz ez] lz]. simpl in Hq.
  destruct (binary_round_aux_nonneg mz ez lz Hq) as [Hn Hl].
  by split_and!.
Qed.

(** X24. After its evaluation an individual that has a code field
    carries either the integer fitness 0 with [exec_success] false, or
    [exec_success] true with a float fitness [1 / obj] that is never a
    NaN and never negative; it is 0.0 when the objective is [inf]. *)
Theorem fitness_is_never_negative h response_id individual :
  has_code individual →
  let individual' := evaluated E h response_id individual in
  individual' !! "exec_success" = Some (VBool false) ∧
  individual' !! "fitness" = Some (VInt 0)
  ∨ ∃ obj,
      individual' !! "exec_success" = Some (VBool true) ∧
      individual' !! "obj" = Some (VFloat obj) ∧
      individual' !! "fitness" = Some (VFloat (div one obj)) ∧
      is_nan (div one obj) = false ∧ leb zero (div one obj) = true ∧
      (obj = inf → div one obj = zero).
Proof.
  intros Hcode individual'.
  destruct (evaluated_cases E h response_id individual Hcode)
    as [[msg Hfail]|(process & out & obj & _ & _ & _ & _ & _ & Hpos & Heq)].
  - left. destruct (failure_evaluated E h _ _ _ Hfail) as (x0 & _ & Heq).
    unfold individual'. rewrite Heq.
    by destruct (mark_invalid_invalid x0 msg) as (? & _ & ? & _).
  - right. exists obj. unfold individual'. rewrite Heq.
    destruct (fitness_nonneg obj Hpos) as (? & ? & ?).
    unfold success_with. split_and!; try done; by simplify_map_eq.
Qed.

End Fitness.

(** ** The further properties on concrete data *)

Lemma best_obj_overall_bounds_generation_witness :
  let s' := (update_iter Sample.boundary_state).1 in
  population s' = Some Sample.described_pair ∧
  Forall (λ individual, ∃ obj, obj_of individual = Ok obj ∧
                        leb (best_obj_overall s') obj = true) Sample.described_pair.
Proof.
  intros s'.
  apply (best_obj_overall_bounds_generation Sample.boundary_state s'
           (update_iter Sample.boundary_state).2 Sample.described_pair).
  - reflexivity.
  - discriminate.
  - each_entry ltac:(split; [eexists; split; vm_compute; reflexivity|];
                     split; eexists; vm_compute; reflexivity).
  - reflexivity.
  - vm_compute. reflexivity.
Defined.

Lemma elitist_is_best_preserved_witness :
  elitist_is_best (update_iter Sample.boundary_state).1.
Proof.
  apply (elitist_is_best_preserved Sample.boundary_state _ Sample.described_pair).
  - reflexivity.
  - each_entry ltac:(split; [eexists; split; vm_compute; reflexivity|];
                     split; eexists; vm_compute; reflexivity).
  - eexists. split; [reflexivity|]. vm_compute. reflexivity.
  - vm_compute. reflexivity.
Defined.

Lemma update_iter_records_first_minimum_witness :
  let s := Sample.boundary_state in
  let s' := (update_iter s).1 in
  ∃ k best m,
    Sample.described_pair !! k = Some best ∧ obj_of best = Ok m ∧
    (∀ j x, j < k → Sample.described_pair !! j = Some x →
            ∃ obj, obj_of x = Ok obj ∧ ltb m obj = true) ∧
    Forall (λ x, ∃ obj, obj_of x = Ok obj ∧ leb m obj = true) Sample.described_pair ∧
    (if ltb m (best_obj_overall s)
     then best_obj_overall s' = m ∧ best_code_overall s' = best !! "code" ∧
          best_desc_overall s' = best !! "description" ∧
          best_code_path_overall s' = best !! "code_path"
     else best_obj_overall s' = best_obj_overall s ∧
          best_code_overall s' = best_code_overall s ∧
          best_desc_overall s' = best_desc_overall s ∧
          best_code_path_overall s' = best_code_path_overall s) ∧
    (elitist s' = Some best ∨ elitist s' = elitist s).
Proof.
  intros s s'.
  apply (update_iter_records_first_minimum s s' Sample.described_pair).
  - reflexivity.
  - each_entry ltac:(split; [eexists; split; vm_compute; reflexivity|];
                     split; eexists; vm_compute; reflexivity).
  - vm_compute. reflexivity.
Defined.


Lemma objective_is_second_to_last_line_witness :
  let E := Sample.externals in
  let lines := Cases.capture_lines in
  split_newline (join_newline lines) = lines ∧
  (∀ pre line last, lines = pre ++ [line; last] →
     parse_objective E (join_newline lines) = py_float E line) ∧
  (∀ line individual, lines = [line] →
     parse_objective E (join_newline lines) = None ∧
     classify E individual (join_newline lines) =
     mark_invalid_individual individual
       (if decide (filter_traceback E line = "")
        then "Invalid std out / objective value!" else filter_traceback E line)).
Proof.
  intros E lines.
  apply (objective_is_second_to_last_line E lines).
  - discriminate.
  - each_entry ltac:(vm_compute; reflexivity).
Defined.

Lemma evaluate_population_trace_witness :
  let E := Sample.externals in
  let h := Cases.garbled 3 Sample.outs in
  let launched := launched_slots h Sample.batch in
  let reached := take (reach h (imap (after_launch h) Sample.batch)) Sample.batch in
  ∃ s' r,
    evaluate_population E h Sample.batch init_state = (s', r) ∧
    reverse (events s') =
      reverse (events init_state) ++ (EvLaunch <$> launched)
      ++ mjoin (wait_trace h <$> waited_slots h reached) ∧
    increasing launched ∧ increasing (waited_slots h reached) ∧
    (∀ i, i ∈ launched ↔
          ∃ x, Sample.batch !! i = Some x ∧ code_not_null x ∧
               started h x i = true) ∧
    (∀ i, i ∈ waited_slots h Sample.batch ↔
          ∃ x, Sample.batch !! i = Some x ∧ code_not_null x ∧
               launch_result h x i = Ok i) ∧
    (readable h Sample.batch →
     reached = Sample.batch ∧ ∃ population', r = Ok population') ∧
    (∀ k x e,
       Sample.batch !! k = Some x →
       unreadable h (after_launch h k x) = Some e →
       (∀ j y, j < k → Sample.batch !! j = Some y →
               unreadable h (after_launch h j y) = None) →
       reached = take (S k) Sample.batch ∧ r = Raise e).
Proof.
  intros E h.
  apply (evaluate_population_trace E h Sample.batch init_state).
  each_entry ltac:(eexists; vm_compute; reflexivity).
Defined.

(** the trace of the sample batch when the capture of slot 3 cannot be
    read back: the process of slot 4 is started and never waited on *)
Example evaluate_population_trace_sample :
  let r := evaluate_population Sample.externals (Cases.garbled 3 Sample.outs)
             Sample.batch init_state in
  r.2 = Raise Cases.decode_error ∧
  reverse (events r.1) =
    [EvLaunch 0; EvLaunch 2; EvLaunch 3; EvLaunch 4;
     EvCommunicate 0 20; EvCommunicate 2 20; EvKill 2; EvCommunicate 3 20].
Proof. vm_compute. done. Qed.

(** a run whose first capture cannot be read back ends in the
    constructor, with both completions counted and nothing stored *)
Example run_unreadable_capture :
  ∃ s, run Sample.externals (Sample.config 2 10)
         (Cases.garbled_world ["a"; "b"] Sample.pair_outs) 1
       = Some (s, Raise Cases.decode_error) ∧
       iteration s = 0 ∧ function_evals s = 2 ∧
       elitist s = None ∧ population s = None.
Proof. eexists. split; [vm_compute; reflexivity|]. vm_compute. done. Qed.

Lemma evaluate_population_missing_code_witness :
  let E := Sample.externals in
  let h := Sample.harness Sample.outs in
  let done := [Sample.fresh 0 (VStr "a")] in
  ∃ s',
    evaluate_population E h (done ++ ∅ :: [Sample.fresh 2 (VStr "b")]) init_state
    = (s', Raise (KeyError "code")) ∧
    same_bookkeeping init_state s' ∧
    function_evals s' = function_evals init_state + length (filter code_not_null done) ∧
    reverse (events s') = reverse (events init_state) ++ (EvLaunch <$> launched_slots h done).
Proof.
  intros E h done.
  apply (evaluate_population_missing_code E h done ∅ [Sample.fresh 2 (VStr "b")]
           init_state).
  - each_entry ltac:(eexists; vm_compute; reflexivity).
  - reflexivity.
Defined.

Lemma reevaluation_overwrites_scores_witness :
  let E := Sample.externals in
  let h1 := Sample.harness [TimedOut "timed out"] in
  let h2 := Sample.harness [Exited Sample.capture_42_5] in
  let x := Sample.fresh 0 (VStr "a") in
  let once := evaluated E h2 0 x in
  let twice := evaluated E h2 0 (evaluated E h1 0 x) in
  twice !! "exec_success" = once !! "exec_success" ∧
  twice !! "obj" = once !! "obj" ∧
  twice !! "fitness" = once !! "fitness" ∧
  (∀ k, k ∉ evaluation_keys → twice !! k = x !! k) ∧
  (once !! "exec_success" = Some (VBool false) →
   twice !! "traceback_msg" = once !! "traceback_msg") ∧
  (once !! "exec_success" = Some (VBool true) →
   twice !! "traceback_msg" = evaluated E h1 0 x !! "traceback_msg").
Proof.
  intros E h1 h2 x.
  apply (reevaluation_overwrites_scores E h1 h2 0 x).
  eexists. vm_compute. reflexivity.
Defined.

(** the second evaluation succeeds and the dict still holds the message
    of the first one *)
Example reevaluation_sample :
  let E := Sample.externals in
  let twice := evaluated E (Sample.harness [Exited Sample.capture_42_5]) 0
                 (evaluated E (Sample.harness [TimedOut "timed out"]) 0
                    (Sample.fresh 0 (VStr "a"))) in
  twice !! "exec_success" = Some (VBool true) ∧
  twice !! "traceback_msg" = Some (VStr "timed out").
Proof. split; vm_compute; reflexivity. Qed.

Lemma fitness_is_never_negative_witness :
  let individual' := evaluated Sample.externals (Sample.harness [Exited Sample.capture_inf])
                       0 (Sample.fresh 0 (VStr "a")) in
  individual' !! "exec_success" = Some (VBool false) ∧
  individual' !! "fitness" = Some (VInt 0)
  ∨ ∃ obj,
      individual' !! "exec_success" = Some (VBool true) ∧
      individual' !! "obj" = Some (VFloat obj) ∧
      individual' !! "fitness" = Some (VFloat (div one obj)) ∧
      is_nan (div one obj) = false ∧ leb zero (div one obj) = true ∧
      (obj = inf → div one obj = zero).
Proof.
  apply (fitness_is_never_negative Sample.externals
           (Sample.harness [Exited Sample.capture_inf]) 0 (Sample.fresh 0 (VStr "a"))).
  eexists. vm_compute. reflexivity.
Defined.

(** an objective line [inf] gives a successful individual with fitness 0.0 *)
Example fitness_of_infinite_objective :
  let individual' := evaluated Sample.externals (Sample.harness [Exited Sample.capture_inf])
                       0 (Sample.fresh 0 (VStr "a")) in
  individual' !! "exec_success" = Some (VBool true) ∧
  individual' !! "fitness" = Some (VFloat zero).
Proof. split; vm_compute; reflexivity. Qed.

Lemma capture_path_follows_response_file_witness :
  let E := Sample.externals in
  let individual := Sample.fresh 3 (VStr "abc") in
  individual !! "stdout_filepath"
  = Some (VStr (response_file (iteration init_state) 3 None +:+ "_stdout.txt")) ∧
  (∀ n m : nat,
     individual !! "stdout_filepath"
     ≠ Some (VStr ("problem_iter" +:+ pretty n +:+ "_stdout" +:+ pretty m +:+ ".txt"))) ∧
  (∀ response' response_id' t t' individual',
     response_to_individual E response' response_id' None t = (t', Ok individual') →
     individual !! "stdout_filepath" = individual' !! "stdout_filepath"
     ∨ individual !! "code_path" = individual' !! "code_path" →
     iteration init_state = iteration t ∧ 3 = response_id').
Proof.
  intros E individual.
  destruct (capture_path_follows_response_file E "abc" 3 None init_state init_state
              individual) as (Hpath & Hnever & Hdistinct).
  - vm_compute. reflexivity.
  - split; [exact Hpath|]. split; [exact (Hnever eq_refl)|exact (Hdistinct eq_refl)].
Defined.

Lemma adjust_similarity_matrix_spec_witness :
  let population := Cases.trio in
  let m := Cases.similarities in
  ∃ m',
    adjust_similarity_matrix m population = Ok m' ∧ same_shape m m' ∧
    (∀ a b, a < b → b < length population →
       if same_obj population a b
       then cell m' a b = Some one ∧ cell m' b a = Some one
       else cell m' a b = cell m a b ∧ cell m' b a = cell m b a) ∧
    (∀ a b, a = b ∨ length population ≤ a ∨ length population ≤ b →
       cell m' a b = cell m a b) ∧
    ((∀ a b, cell m a b = cell m b a) → ∀ a b, cell m' a b = cell m' b a).
Proof.
  intros population m.
  apply (adjust_similarity_matrix_spec population m).
  - each_entry ltac:(eexists; vm_compute; reflexivity).
  - split; [simpl; lia|].
    intros [|[|[|a]]] row Ha; [intros [= <-]; simpl; lia..|simpl in Ha; lia].
Defined.

(** Scenario: the first and the third individual share the objective 10.0 *)
Example adjust_similarity_matrix_sample :
  adjust_similarity_matrix Cases.similarities Cases.trio = Ok Cases.adjusted.
Proof. vm_compute. reflexivity. Qed.

Lemma adjust_similarity_matrix_idempotent_witness :
  adjust_similarity_matrix Cases.adjusted Cases.trio = Ok Cases.adjusted.
Proof.
  apply (adjust_similarity_matrix_idempotent Cases.trio Cases.similarities Cases.adjusted).
  - each_entry ltac:(eexists; vm_compute; reflexivity).
  - split; [simpl; lia|].
    intros [|[|[|a]]] row Ha; [intros [= <-]; simpl; lia..|simpl in Ha; lia].
  - vm_compute. reflexivity.
Defined.

Lemma failed_individuals_made_similar_witness :
  ∃ m', adjust_similarity_matrix Cases.similarities Cases.two_failed = Ok m' ∧
        cell m' 0 2 = Some one ∧ cell m' 2 0 = Some one.
Proof.
  apply (failed_individuals_made_similar Cases.two_failed Cases.similarities 0 2
           (mark_invalid_individual (Sample.fresh 0 (VStr "a")) "timed out")
           (mark_invalid_individual (Sample.fresh 2 (VStr "c"))
              "Invalid std out / objective value!")
           "timed out" "Invalid std out / objective value!").
  - each_entry ltac:(split; [eexists; split; vm_compute; reflexivity|];
                     split; eexists; vm_compute; reflexivity).
  - split; [simpl; lia|].
    intros [|[|[|a]]] row Ha; [intros [= <-]; simpl; lia..|simpl in Ha; lia].
  - reflexivity.
  - reflexivity.
  - discriminate.
  - split_and!; vm_compute; reflexivity.
  - split_and!; vm_compute; reflexivity.
Defined.

Lemma crossover_never_returns_witness :
  crossover Sample.externals (Sample.config 1 10) (Sample.world [] [])
    Sample.described_pair init_state
  = (init_state, Raise (AttributeError "system_prompt")).
Proof.
  destruct (crossover_never_returns Sample.externals (Sample.config 1 10)
              (Sample.world [] []) Sample.described_pair init_state)
    as (_ & Hstop & _).
  destruct Hstop as (parent_1 & parent_2 & H1 & H2 & ->); [simpl; lia|reflexivity|].
  injection H1 as <-. injection H2 as <-. vm_compute. reflexivity.
Defined.

Lemma mutate_never_mutates_witness :
  mutate Sample.externals (Sample.config 2 10) Cases.mutating_world
    Sample.described_pair init_state
  = (init_state, Raise (AttributeError "system_prompt")).
Proof.
  destruct (mutate_never_mutates Sample.externals (Sample.config 2 10)
              Cases.mutating_world Sample.described_pair init_state)
    as (Hstop & _).
  rewrite (Hstop 0 (success_with Sample.f42_5
                      (<["description" := VStr "first"]> (Sample.fresh 0 (VStr "a"))))).
  - vm_compute. reflexivity.
  - reflexivity.
  - reflexivity.
  - intros j Hj. lia.
Defined.


(** with budget left, [evolve] stops in its first round also on
    individuals that carry a description *)
Example evolve_described_sample :
  evolve Sample.externals (Sample.config 1 10) (Sample.world [] []) 3
    Sample.boundary_state
  = Some (Sample.boundary_state, Raise (AttributeError "system_prompt")).
Proof. vm_compute. reflexivity. Qed.

(** a completion without code ends the construction before anything is
    evaluated *)
Example init_population_without_code :
  init_population Sample.externals (Sample.config 2 10)
    (Sample.world ["a"; ""] Sample.pair_outs) init_state
  = (init_state, Raise (TypeError none_plus_str)).
Proof. vm_compute. reflexivity. Qed.
